(** * The structural/tabular parser of fonduer and the CoreNLP handler of snorkel

    A shallow embedding of [src/fonduer/parser.py] ([OmniParserUDF.parse_structure]
    with its nested [flatten] and [parse_node], and [TableInfo]) and of
    [src/snorkel/parser.py] ([CoreNLPHandler.parse]).

    Python integers are [Z]; [str] is [string]; [None]-able attributes are
    [option]; dictionaries are [gmap]; an exception is a [Raise] result. *)

From Stdlib Require Import ZArith Lia Ascii String List Sorted.
From stdpp Require Import base gmap strings list pretty.

Local Open Scope Z_scope.

(** ** The fragment of Python the two parsers use *)

Module Py.

(** The exceptions that the modelled code can raise. [BdbQuit] is what
    the interpreter raises when a [pdb] session is left with [quit]. *)
Inductive exn :=
| AttributeError | ValueError | IndexError
| NotImplementedError | BdbQuit.

(** The outcome of a call: a value, an exception, or the model's loop
    budget exhausted (never the case for the budgets used below, see
    [scan_total], [parse_node_fuel] and [run_batches_fuel]). *)
Inductive result (A : Type) :=
| Ok (a : A)
| Raise (e : exn)
| OutOfFuel.
Arguments Ok {A} a.
Arguments Raise {A} e.
Arguments OutOfFuel {A}.

Definition is_ok {A} (r : result A) : bool :=
  match r with Ok _ => true | _ => false end.

Definition bind {A B} (m : result A) (k : A -> result B) : result B :=
  match m with
  | Ok a => k a
  | Raise e => Raise e
  | OutOfFuel => OutOfFuel
  end.

(** [len(s)] *)
Definition len (s : string) : Z := Z.of_nat (String.length s).

(** [s.lstrip()], [s.rstrip()], [s.strip()] on whitespace. *)
Fixpoint lstrip (s : string) : string :=
  match s with
  | String c s' => if Ascii.is_space c then lstrip s' else s
  | EmptyString => EmptyString
  end.

Fixpoint rstrip (s : string) : string :=
  match s with
  | EmptyString => EmptyString
  | String c s' =>
      match rstrip s' with
      | EmptyString => if Ascii.is_space c then EmptyString else String c EmptyString
      | r => String c r
      end
  end.

Definition strip (s : string) : string := rstrip (lstrip s).

(** Truth value of a string: [None] is excluded by the caller, the empty
    string is false. *)
Definition nonempty (s : string) : bool :=
  match s with EmptyString => false | _ => true end.

(** [d.join(l)] *)
Fixpoint join (d : string) (l : list string) : string :=
  match l with
  | [] => EmptyString
  | [x] => x
  | x :: l' => x +:+ d +:+ join d l'
  end.

(** [s[a:b]] for [0 <= a]; a bound past the end is clipped. *)
Definition slice (s : string) (a b : Z) : string :=
  String.substring (Z.to_nat a) (Z.to_nat (b - a)) s.

(** [s.rfind(sub)]: the highest index at which [sub] starts, or [-1]. *)
Fixpoint rfind_from (s sub : string) (i : Z) : option Z :=
  match s with
  | EmptyString => if String.prefix sub EmptyString then Some i else None
  | String _ s' =>
      match rfind_from s' sub (i + 1) with
      | Some j => Some j
      | None => if String.prefix sub s then Some i else None
      end
  end.

Definition rfind (s sub : string) : Z :=
  match rfind_from s sub 0 with Some j => j | None => -1 end.

(** [range(a, b)] *)
Definition range (a b : Z) : list Z :=
  map (fun i => a + Z.of_nat i) (seq 0 (Z.to_nat (b - a))).

(** [itertools.product(xs, ys)]: the last coordinate varies fastest. *)
Definition product {A B} (xs : list A) (ys : list B) : list (A * B) :=
  flat_map (fun x => map (fun y => (x, y)) ys) xs.

(** [numpy.cumsum] *)
Fixpoint cumsum_from (acc : Z) (l : list Z) : list Z :=
  match l with
  | [] => []
  | x :: l' => (acc + x) :: cumsum_from (acc + x) l'
  end.
Definition cumsum (l : list Z) : list Z := cumsum_from 0 l.

(** [int(s)] on a [str]: optional surrounding whitespace, an optional
    sign, then at least one decimal digit; anything else is a
    [ValueError]. *)
Fixpoint digits (acc : Z) (s : string) : option Z :=
  match s with
  | EmptyString => Some acc
  | String c s' =>
      match Ascii.is_nat c with
      | Some d => digits (10 * acc + Z.of_nat d) s'
      | None => None
      end
  end.

Definition unsigned (s : string) : option Z :=
  match s with
  | EmptyString => None
  | _ => digits 0 s
  end.

Definition int (s : string) : result Z :=
  let r :=
    match strip s with
    | String "-" s' => Z.opp <$> unsigned s'
    | String "+" s' => unsigned s'
    | s' => unsigned s'
    end in
  match r with Some z => Ok z | None => Raise ValueError end.

(** ["%s" % n] for an integer *)
Definition str (n : Z) : string := pretty n.

(** [collections.defaultdict(int)] keyed by pairs of integers: reading a
    missing key stores and returns [0]. *)
Definition getitem (g : gmap (Z * Z) Z) (k : Z * Z) : Z * gmap (Z * Z) Z :=
  match g !! k with
  | Some v => (v, g)
  | None => (0, <[k := 0]> g)
  end.

(** [x in l] for a list of strings. *)
Definition contains (l : list string) (x : string) : bool :=
  existsb (String.eqb x) l.

(** ["%s::%s:%s:%s" % (a, b, c, d)] and the five-place form. *)
Definition fmt4 (a b c d : string) : string :=
  a +:+ "::" +:+ b +:+ ":" +:+ c +:+ ":" +:+ d.
Definition fmt5 (a b c d e : string) : string :=
  a +:+ "::" +:+ b +:+ ":" +:+ c +:+ ":" +:+ d +:+ ":" +:+ e.

(** [s.split(sep)] for a non-empty separator: [skip] counts the
    characters of a matched separator still to pass over, [cur] holds
    the current piece backwards. *)
Fixpoint split_go (sep s : string) (skip : nat) (cur : string) : list string :=
  match s with
  | EmptyString => [String.rev cur]
  | String c s' =>
      match skip with
      | S k => split_go sep s' k cur
      | O =>
          if String.prefix sep s
          then String.rev cur :: split_go sep s' (String.length sep - 1) EmptyString
          else split_go sep s' O (String c cur)
      end
  end.
Definition split (s sep : string) : list string := split_go sep s O EmptyString.

(** Truth value of an integer. *)
Definition truthy (v : Z) : bool := negb (v =? 0).

End Py.

(** [result] is a monad for stdpp's [x ← m; k] notation. *)
#[global] Instance result_ret : MRet Py.result := fun _ a => Py.Ok a.
#[global] Instance result_bind : MBind Py.result := fun _ _ k m => Py.bind m k.

(** ** fonduer: the element tree *)

Module Fonduer.
Import Py.

(** An lxml element. [node.tag] is a string, or the function
    [etree.Comment] for a comment node. [tail] is the text that follows
    the element, up to its next sibling. *)
Inductive Tag :=
| TagName (s : string)
| Comment.

#[warnings="-register-all"]
Inductive Element :=
| Elem (tag : Tag) (attrib : list (string * string))
       (text : option string) (children : list Element)
       (tail : option string).

Definition tag (e : Element) : Tag :=
  match e with Elem t _ _ _ _ => t end.
Definition attrib (e : Element) : list (string * string) :=
  match e with Elem _ a _ _ _ => a end.
Definition text (e : Element) : option string :=
  match e with Elem _ _ x _ _ => x end.
Definition children (e : Element) : list Element :=
  match e with Elem _ _ _ cs _ => cs end.
Definition tail (e : Element) : option string :=
  match e with Elem _ _ _ _ x => x end.

(** [node.tag == s] *)
Definition tag_is (e : Element) (s : string) : bool :=
  match tag e with TagName t => String.eqb t s | Comment => false end.

(** [node.tag in l] *)
Definition tag_in (e : Element) (l : list string) : bool :=
  match tag e with TagName t => contains l t | Comment => false end.

(** [k in node.attrib] and [node.get(k)] *)
Fixpoint get (a : list (string * string)) (k : string) : option string :=
  match a with
  | [] => None
  | (k', v) :: a' => if String.eqb k' k then Some v else get a' k
  end.

(** [node.getiterator()]: the element and its descendants, in document
    order. *)
Fixpoint getiterator (e : Element) : list Element :=
  e :: (fix go (l : list Element) : list Element :=
          match l with
          | [] => []
          | c :: l' => getiterator c ++ go l'
          end) (children e).

(** The number of levels of the tree below and including [e]. *)
Fixpoint height (e : Element) : nat :=
  S ((fix go (l : list Element) : nat :=
        match l with
        | [] => O
        | c :: l' => Nat.max (height c) (go l')
        end) (children e)).

(** The height of a list of siblings. *)
Definition forest_height (cs : list Element) : nat :=
  foldr (fun c => Nat.max (height c)) O cs.

(** ** The configuration of [OmniParserUDF.__init__]

    [self_flatten] is the attribute [self.flatten]. A compiled
    replacement rule [(rgx, replace)] is kept as the function
    [fun text => rgx.sub(replace, text)]. *)
Record Config := {
  blacklist : list string;
  self_flatten : list string;
  flatten_delim : string;
  lingual : bool;
  strip : bool;
  replacements : list (string -> string);
  tabular : bool
}.

(** [self.delim] *)
Definition delim : string := "<NB>".

(** [self.batch_size] *)
Definition batch_size (cfg : Config) : Z :=
  if lingual cfg then 7000 else 1000000.

(** ** Entities *)

Record Document := { name : string }.

Record Table := {
  t_document : Document;
  t_stable_id : string;
  t_position : Z
}.

Record Cell := {
  c_document : Document;
  c_table : Table;
  row_start : Z;
  row_end : Z;
  col_start : Z;
  col_end : Z;
  c_position : Z;
  c_stable_id : string
}.

(** What [table_info.parent] can hold. [IsNone] is Python's [None], the
    default of [TableInfo.__init__]; it is the one value met here that
    is no Document, Table or Cell. *)
Inductive Context :=
| IsDocument (d : Document)
| IsTable (t : Table)
| IsCell (c : Cell)
| IsNone.

(** ** The object store

    [grids] holds the [defaultdict(int)] objects by address; [tables]
    and [cells] list the entities built by [Table(...)] and [Cell(...)],
    oldest first. *)
Record Heap := {
  grids : gmap nat (gmap (Z * Z) Z);
  tables : list Table;
  cells : list Cell
}.

(** The address of the dictionary that the default [table_grid=defaultdict(int)]
    of [TableInfo.__init__] denotes. Python evaluates a default once,
    when the [def] is executed: every call that leaves [table_grid] out
    receives this same object. *)
Definition default_table_grid : nat := 0%nat.

(** The heap of a process that has not parsed any table yet. *)
Definition initial_heap : Heap :=
  {| grids := {[ default_table_grid := ∅ ]}; tables := []; cells := [] |}.

(** The dictionary at an address, its replacement, and the two
    constructors of entities. *)
Definition grid_at (h : Heap) (l : nat) : gmap (Z * Z) Z := grids h !!! l.

Definition set_grid (h : Heap) (l : nat) (g : gmap (Z * Z) Z) : Heap :=
  {| grids := <[l := g]> (grids h); tables := tables h; cells := cells h |}.

Definition new_Table (h : Heap) (t : Table) : Heap :=
  {| grids := grids h; tables := tables h ++ [t]; cells := cells h |}.

Definition new_Cell (h : Heap) (c : Cell) : Heap :=
  {| grids := grids h; tables := tables h; cells := cells h ++ [c] |}.

(** ** [class TableInfo]

    [cell_position] is assigned only on entering a table, so it is
    absent ([None]) before. [table_grid] is an address in the heap. *)
Record TableInfo := {
  document : Document;
  table : option Table;
  table_grid : nat;
  cell : option Cell;
  cell_idx : Z;
  row_idx : Z;
  col_idx : Z;
  parent : Context;
  cell_position : option Z
}.

(** [TableInfo(document, parent=parent)]: every other argument takes its
    default. Both constructions in [parse_structure] have this shape. *)
Definition TableInfo_init (document : Document) (parent : Context) : TableInfo :=
  {| document := document; table := None; table_grid := default_table_grid;
     cell := None; cell_idx := 0; row_idx := 0; col_idx := 0;
     parent := parent; cell_position := None |}.

(** [while self.table_grid[(self.row_idx, self.col_idx)]: self.col_idx += 1] *)
Fixpoint scan (fuel : nat) (g : gmap (Z * Z) Z) (r c : Z)
  : option (Z * gmap (Z * Z) Z) :=
  match fuel with
  | O => None
  | S fuel' =>
      let '(v, g1) := getitem g (r, c) in
      if truthy v then scan fuel' g1 r (c + 1) else Some (c, g1)
  end.

(** [for r, c in itertools.product(range(row_start, row_end+1),
    range(col_start, col_end+1)): self.table_grid[r, c] = 1] *)
Definition mark (g : gmap (Z * Z) Z) (r0 r1 c0 c1 : Z) : gmap (Z * Z) Z :=
  foldl (fun g rc => <[rc := 1]> g) g
        (product (range r0 (r1 + 1)) (range c0 (c1 + 1))).

(** [end += int(node.get(k)) - 1] when [k in node.attrib] *)
Definition span_end (node : Element) (k : string) (start : Z) : result Z :=
  match get (attrib node) k with
  | Some v => n ← int v; Ok (start + (n - 1))
  | None => Ok start
  end.

Definition enter_tabular (self : TableInfo) (node : Element) (table_idx : Z)
           (h : Heap) : result (Z * TableInfo * Heap) :=
  if tag_is node "table" then
    let table_idx := table_idx + 1 in
    let h := set_grid h (table_grid self) ∅ in
    let stable_id :=
      fmt4 (name (document self)) "table" (str table_idx) (str table_idx) in
    let t := {| t_document := document self; t_stable_id := stable_id;
                t_position := table_idx |} in
    Ok (table_idx,
        {| document := document self; table := Some t;
           table_grid := table_grid self; cell := cell self;
           cell_idx := cell_idx self; row_idx := 0; col_idx := col_idx self;
           parent := IsTable t; cell_position := Some 0 |},
        new_Table h t)
  else if tag_is node "tr" then
    Ok (table_idx,
        {| document := document self; table := table self;
           table_grid := table_grid self; cell := cell self;
           cell_idx := cell_idx self; row_idx := row_idx self; col_idx := 0;
           parent := parent self; cell_position := cell_position self |},
        h)
  else if tag_in node ["td"; "th"] then
    let g := grid_at h (table_grid self) in
    match scan (S (size g)) g (row_idx self) (col_idx self) with
    | None => OutOfFuel
    | Some (col, g) =>
        let col_start := col in
        let row_start := row_idx self in
        row_end ← span_end node "rowspan" row_start;
        col_end ← span_end node "colspan" col_start;
        let g := mark g row_start row_end col_start col_end in
        let h := set_grid h (table_grid self) g in
        match cell_position self, table self with
        | Some pos, Some t =>
            let c := {| c_document := document self; c_table := t;
                        row_start := row_start; row_end := row_end;
                        col_start := col_start; col_end := col_end;
                        c_position := pos;
                        c_stable_id :=
                          fmt5 (name (document self)) "cell"
                               (str (t_position t)) (str row_start)
                               (str col_start) |} in
            Ok (table_idx,
                {| document := document self; table := table self;
                   table_grid := table_grid self; cell := Some c;
                   cell_idx := cell_idx self; row_idx := row_idx self;
                   col_idx := col; parent := IsCell c;
                   cell_position := cell_position self |},
                new_Cell h c)
        | _, _ => Raise AttributeError
        end
    end
  else Ok (table_idx, self, h).

Definition exit_tabular (self : TableInfo) (node : Element) : result TableInfo :=
  if tag_is node "table" then
    Ok {| document := document self; table := None;
          table_grid := table_grid self; cell := cell self;
          cell_idx := cell_idx self; row_idx := row_idx self;
          col_idx := col_idx self; parent := IsDocument (document self);
          cell_position := cell_position self |}
  else if tag_is node "tr" then
    Ok {| document := document self; table := table self;
          table_grid := table_grid self; cell := cell self;
          cell_idx := cell_idx self; row_idx := row_idx self + 1;
          col_idx := col_idx self; parent := parent self;
          cell_position := cell_position self |}
  else if tag_in node ["td"; "th"] then
    match cell_position self with
    | None => Raise AttributeError
    | Some pos =>
        Ok {| document := document self; table := table self;
              table_grid := table_grid self; cell := None;
              cell_idx := cell_idx self + 1; row_idx := row_idx self;
              col_idx := col_idx self + 1;
              parent := match table self with
                        | Some t => IsTable t
                        | None => IsNone
                        end;
              cell_position := Some (pos + 1) |}
    end
  else Ok self.

(** ** [flatten], nested in [parse_structure]

    The source walks the children backwards; child [j] in
    [self.flatten] is replaced by the joined text of its subtree, which
    is appended to the tail of child [j-1], or to [node.text] when
    [j = 0]. Read from the front, each child first receives what its
    right neighbours passed down, and then either stays or passes its
    own joined text to the left. [lxml]'s [remove] drops the child with
    its tail. *)

(** [if x is None: x = ''] followed by [x += s] *)
Definition append_to (x : option string) (s : string) : option string :=
  Some (match x with Some t => t | None => EmptyString end +:+ s).

(** [x and x.strip()] *)
Definition kept (x : option string) : bool :=
  match x with Some t => nonempty t && nonempty (Py.strip t) | None => false end.

(** The list [contents] built for one child. *)
Definition fragments (child : Element) : list string :=
  EmptyString ::
  flat_map (fun d =>
              (if kept (text d) then [default EmptyString (text d)] else []) ++
              (if kept (tail d) then [default EmptyString (tail d)] else []))
           (getiterator child).

(** The child with the text of its flattened right neighbours, if any,
    appended to its tail. *)
Definition with_tail (e : Element) (pending : option string) : Element :=
  match pending with
  | Some s => Elem (tag e) (attrib e) (text e) (children e) (append_to (tail e) s)
  | None => e
  end.

(** The text to pass to the left of [cs], and the children that stay. *)
Fixpoint flatten_children (cfg : Config) (cs : list Element)
  : option string * list Element :=
  match cs with
  | [] => (None, [])
  | c :: rest =>
      let '(pending, rest') := flatten_children cfg rest in
      let c := with_tail c pending in
      if tag_in c (self_flatten cfg)
      then (Some (join (flatten_delim cfg) (fragments c)), rest')
      else (None, c :: rest')
  end.

Definition flatten (cfg : Config) (node : Element) : Element :=
  let '(pending, cs) := flatten_children cfg (children node) in
  Elem (tag node) (attrib node)
       (match pending with
        | Some s => append_to (text node) s
        | None => text node
        end)
       cs (tail node).

(** ** The state of the walk: [self.contents], [block_lengths],
    [parents], [self.table_idx] and the heap.

    The lists [xpaths], [html_tags] and [html_attrs] of the structural
    mode grow together with [block_lengths] and are read at the same
    index; their entries come from lxml and are not modelled. *)
Record Walk := {
  contents : string;
  block_lengths : list Z;
  parents : list Context;
  table_idx : Z;
  heap : Heap
}.

(** The body of [for field in ['text', 'tail']] for one field value. *)
Definition emit (cfg : Config) (table_info : option TableInfo)
           (field : option string) (w : Walk) : result Walk :=
  match field with
  | None => Ok w
  | Some text =>
      let text := if strip cfg then Py.strip text else text in
      if nonempty text then
        let text := foldl (fun t sub => sub t) text (replacements cfg) in
        let contents := (contents w +:+ text) +:+ delim in
        let block_lengths := block_lengths w ++ [len text + len delim] in
        if tabular cfg then
          match table_info with
          | Some ti =>
              Ok {| contents := contents; block_lengths := block_lengths;
                    parents := parents w ++ [parent ti];
                    table_idx := table_idx w; heap := heap w |}
          | None => Raise AttributeError
          end
        else
          Ok {| contents := contents; block_lengths := block_lengths;
                parents := parents w; table_idx := table_idx w;
                heap := heap w |}
      else Ok w
  end.

(** [for child in node], given the recursive call. A child tagged
    [table] is walked with [TableInfo(document=table_info.document)],
    which is dropped afterwards. *)
Fixpoint parse_children
         (parse_node : Element -> option TableInfo -> Walk ->
                       result (option TableInfo * Walk))
         (cs : list Element) (table_info : option TableInfo) (w : Walk)
  : result (option TableInfo * Walk) :=
  match cs with
  | [] => Ok (table_info, w)
  | child :: cs' =>
      if tag_is child "table" then
        match table_info with
        | None => Raise AttributeError
        | Some ti =>
            '(_, w) ← parse_node child (Some (TableInfo_init (document ti) IsNone)) w;
            parse_children parse_node cs' table_info w
        end
      else
        '(table_info, w) ← parse_node child table_info w;
        parse_children parse_node cs' table_info w
  end.

Fixpoint parse_node (cfg : Config) (fuel : nat) (node : Element)
         (table_info : option TableInfo) (w : Walk)
  : result (option TableInfo * Walk) :=
  match fuel with
  | O => OutOfFuel
  | S fuel' =>
      match tag node with
      | Comment => Ok (table_info, w)
      | TagName t =>
          if match blacklist cfg with [] => false | l => contains l t end
          then Ok (table_info, w)
          else
            '(table_info, w) ←
              (if tabular cfg then
                 match table_info with
                 | None => Raise AttributeError
                 | Some ti =>
                     '(idx, ti, h) ← enter_tabular ti node (table_idx w) (heap w);
                     Ok (Some ti,
                         {| contents := contents w;
                            block_lengths := block_lengths w;
                            parents := parents w; table_idx := idx;
                            heap := h |})
                 end
               else Ok (table_info, w));
            let node := match self_flatten cfg with
                        | [] => node
                        | _ => flatten cfg node
                        end in
            w ← emit cfg table_info (text node) w;
            w ← emit cfg table_info (tail node) w;
            '(table_info, w) ←
              parse_children (parse_node cfg fuel') (children node) table_info w;
            if tabular cfg then
              match table_info with
              | None => Raise AttributeError
              | Some ti => ti ← exit_tabular ti node; Ok (Some ti, w)
              end
            else Ok (table_info, w)
      end
  end.

(** The walk of [parse_structure], from [self.contents = ""] to
    [parse_node(root, table_info)]. [h] is the heap the call starts in. *)
Definition walk (cfg : Config) (document : Document) (root : Element) (h : Heap)
  : result Walk :=
  let table_info :=
    if tabular cfg then Some (TableInfo_init document (IsDocument document))
    else None in
  let w := {| contents := EmptyString; block_lengths := []; parents := [];
              table_idx := -1; heap := h |} in
  '(_, w) ← parse_node cfg (height root) root table_info w;
  Ok w.

(** ** The annotator

    Modelled from the spec: [split_stable_id] and [construct_stable_id]
    of [models.py], which is not part of the sources at hand. A stable
    identifier ["<document-name>::<kind>:<start>:<end>"] is kept in its
    split form, so [split_stable_id] reads the four components off. *)
Record StableId := {
  sid_document : string;
  sid_kind : string;
  sid_start : Z;
  sid_end : Z
}.

Definition split_stable_id (s : StableId) : string * string * Z * Z :=
  (sid_document s, sid_kind s, sid_start s, sid_end s).

Definition construct_stable_id (d : Document) (kind : string) (a b : Z) : StableId :=
  {| sid_document := name d; sid_kind := kind; sid_start := a; sid_end := b |}.

(** The dictionary [parts] that [self.lingual_parse] yields for one
    annotated unit. The keys that only the linguistic annotator fills
    are optional: [CoreNLPHandler.parse] sets all of them, with
    ['position'] the index of the sentence in its answer and
    ['document'] the document it was called with; [SimpleTokenizer.parse]
    sets ['text'], ['words'], ['char_offsets'] and ['stable_id'] only. *)
Record Parts := {
  parts_text : string;
  words : list string;
  char_offsets : list Z;
  lemmas : option (list string);
  pos_tags : option (list string);
  ner_tags : option (list string);
  dep_parents : option (list Z);
  dep_labels : option (list string);
  parts_position : option Z;
  parts_document : option Document;
  entity_cids : option (list string);
  entity_types : option (list string);
  stable_id : StableId
}.

(** A call of [self.lingual_parse(document, text)] is a generator: the
    units it yields, in order, and the exception that ends it, if any. *)
Definition Annotator := Document -> string -> list Parts * option exn.

(** [SimpleTokenizer.parse], the annotator when [lingual] is off. *)
Fixpoint SimpleTokenizer_go (document : Document) (pieces : list string) (i : Z)
  : list Parts :=
  match pieces with
  | [] => []
  | text :: rest =>
      if nonempty (Py.strip text) then
        let ws := String.words text in
        let offsets :=
          0 :: removelast (cumsum (map (fun x => len x + 1) ws)) in
        {| parts_text := join " " ws; words := ws; char_offsets := offsets;
           lemmas := None; pos_tags := None; ner_tags := None;
           dep_parents := None; dep_labels := None;
           parts_position := None; parts_document := None;
           entity_cids := None; entity_types := None;
           stable_id := construct_stable_id document "phrase" i i |}
          :: SimpleTokenizer_go document rest (i + 1)
      else SimpleTokenizer_go document rest i
  end.

Definition SimpleTokenizer_parse (d : string) : Annotator :=
  fun document contents => (SimpleTokenizer_go document (split contents d) 0, None).

(** ** Phrases

    The dictionary [parts] once [parse_structure] has added its keys,
    which is what the constructor of [Phrase] receives as keywords. *)
Record Phrase := {
  p_parts : Parts;
  p_document : Document;
  p_phrase_num : Z;
  p_stable_id : string;
  p_position : option Z;
  p_table : option Table;
  p_cell : option Cell;
  p_row_start : option Z;
  p_row_end : option Z;
  p_col_start : option Z;
  p_col_end : option Z
}.

(** [TableInfo.apply_tabular]; it reads nothing of [self]. *)
Definition apply_tabular (parts : Phrase) (parent : Context) (position : Z)
  : result Phrase :=
  match parent with
  | IsDocument _ =>
      Ok {| p_parts := p_parts parts; p_document := p_document parts;
            p_phrase_num := p_phrase_num parts; p_stable_id := p_stable_id parts;
            p_position := Some position;
            p_table := p_table parts; p_cell := p_cell parts;
            p_row_start := p_row_start parts; p_row_end := p_row_end parts;
            p_col_start := p_col_start parts; p_col_end := p_col_end parts |}
  | IsTable t =>
      Ok {| p_parts := p_parts parts; p_document := p_document parts;
            p_phrase_num := p_phrase_num parts; p_stable_id := p_stable_id parts;
            p_position := Some position;
            p_table := Some t; p_cell := p_cell parts;
            p_row_start := p_row_start parts; p_row_end := p_row_end parts;
            p_col_start := p_col_start parts; p_col_end := p_col_end parts |}
  | IsCell c =>
      Ok {| p_parts := p_parts parts; p_document := p_document parts;
            p_phrase_num := p_phrase_num parts; p_stable_id := p_stable_id parts;
            p_position := Some position;
            p_table := Some (c_table c); p_cell := Some c;
            p_row_start := Some (row_start c); p_row_end := Some (row_end c);
            p_col_start := Some (col_start c); p_col_end := Some (col_end c) |}
  | IsNone => Raise NotImplementedError
  end.

(** ** The reconciliation loop of [parse_structure] *)

(** The local variables [parent_idx], [position] and [phrase_num]. *)
Record Cursor := {
  parent_idx : nat;
  position : Z;
  phrase_num : Z
}.

(** [while parsed + char_end > block_char_end[parent_idx]: parent_idx += 1;
    position = 0], where [rest] is [block_char_end[parent_idx:]]. Reading
    past the end of the array is an [IndexError]; the two variables keep
    what they hold at that point. *)
Fixpoint advance (rest : list Z) (target : Z) (parent_idx : nat) (position : Z)
  : nat * Z * option exn :=
  match rest with
  | [] => (parent_idx, position, Some IndexError)
  | e :: rest' =>
      if target >? e then advance rest' target (S parent_idx) 0
      else (parent_idx, position, None)
  end.

(** What the [try] block does with one unit: it yields a Phrase built
    from block [parent_idx], or an exception reaches the bare [except].
    The keys [parse_structure] assigns replace those of the annotator;
    ['position'] is assigned by [apply_tabular] only, so that outside
    tabular mode the Phrase is built with the annotator's own. *)
Inductive Outcome :=
| Yield (block : nat) (p : Phrase)
| Caught (e : exn).

Definition process_unit (cfg : Config) (document : Document)
           (block_char_end : list Z) (parents : list Context) (parsed : Z)
           (cur : Cursor) (parts : Parts) : Cursor * Outcome :=
  let '(_, _, _, char_end) := split_stable_id (stable_id parts) in
  let '(idx, pos, err) :=
    advance (drop (parent_idx cur) block_char_end) (parsed + char_end)
            (parent_idx cur) (position cur) in
  let cur := {| parent_idx := idx; position := pos;
                phrase_num := phrase_num cur |} in
  match err with
  | Some e => (cur, Caught e)
  | None =>
      let parts :=
        {| p_parts := parts; p_document := document;
           p_phrase_num := phrase_num cur;
           p_stable_id := fmt4 (name document) "phrase"
                               (str (phrase_num cur)) (str (phrase_num cur));
           p_position := parts_position parts; p_table := None; p_cell := None;
           p_row_start := None; p_row_end := None;
           p_col_start := None; p_col_end := None |} in
      let applied :=
        if tabular cfg then
          match parents !! idx with
          | Some parent => apply_tabular parts parent pos
          | None => Raise IndexError
          end
        else Ok parts in
      match applied with
      | Ok parts =>
          ({| parent_idx := idx; position := pos + 1;
              phrase_num := phrase_num cur + 1 |},
           Yield idx parts)
      | Raise e => (cur, Caught e)
      | OutOfFuel => (cur, Caught IndexError) (* no loop inside: does not arise *)
      end
  end.

(** [except: import pdb; pdb.set_trace()]. The handler hands control to
    the interactive debugger. How a session ends is up to whoever sits
    at the prompt: [continue] resumes the [for] loop with the next unit,
    [quit] makes the interpreter raise [BdbQuit] in the generator. The
    way the [n]-th session of a run ends is an input of the model. *)
Inductive DebuggerCommand := Continue | Quit.
Definition Debugger := nat -> DebuggerCommand.

(** What a consumer of the generator [parse_structure] observes: the
    texts passed to the annotator, the phrases yielded (each with the
    value of [parent_idx] it was built from), and how the generator
    ended. *)
Record Run := {
  calls : list string;
  emitted : list (nat * Phrase);
  outcome : result unit
}.

(** The body of [for parts in self.lingual_parse(...)] over the units of
    one batch. [n] counts the debugger sessions so far. *)
Fixpoint run_units (cfg : Config) (pdb : Debugger) (document : Document)
         (block_char_end : list Z) (parents : list Context) (parsed : Z)
         (units : list Parts) (cur : Cursor) (n : nat)
  : list (nat * Phrase) * Cursor * nat * option exn :=
  match units with
  | [] => ([], cur, n, None)
  | parts :: units' =>
      match process_unit cfg document block_char_end parents parsed cur parts with
      | (cur, Yield idx p) =>
          let '(ps, cur, n, stop) :=
            run_units cfg pdb document block_char_end parents parsed units' cur n in
          ((idx, p) :: ps, cur, n, stop)
      | (cur, Caught _) =>
          match pdb n with
          | Continue =>
              run_units cfg pdb document block_char_end parents parsed units' cur (S n)
          | Quit => ([], cur, S n, Some BdbQuit)
          end
      end
  end.

(** [batch_end] of one turn of the [while] loop. *)
Definition batch_end (cfg : Config) (contents : string) (parsed : Z) : Z :=
  parsed + rfind (slice contents parsed (parsed + batch_size cfg)) delim + len delim.

(** [while parsed < content_length: ...] *)
Fixpoint run_batches (fuel : nat) (cfg : Config) (lingual_parse : Annotator)
         (pdb : Debugger) (document : Document) (contents : string)
         (block_char_end : list Z) (parents : list Context)
         (parsed : Z) (cur : Cursor) (n : nat) : Run :=
  match fuel with
  | O => {| calls := []; emitted := []; outcome := OutOfFuel |}
  | S fuel' =>
      if parsed <? len contents then
        let batch_end := batch_end cfg contents parsed in
        let batch := slice contents parsed batch_end in
        let '(units, raised) := lingual_parse document batch in
        let '(ps, cur, n, stop) :=
          run_units cfg pdb document block_char_end parents parsed units cur n in
        match stop, raised with
        | Some e, _ | None, Some e =>
            {| calls := [batch]; emitted := ps; outcome := Raise e |}
        | None, None =>
            let r := run_batches fuel' cfg lingual_parse pdb document contents
                                 block_char_end parents batch_end cur n in
            {| calls := batch :: calls r; emitted := ps ++ emitted r;
               outcome := outcome r |}
        end
      else {| calls := []; emitted := []; outcome := Ok tt |}
  end.

(** [self.lingual_parse] as [__init__] sets it; the CoreNLP server
    behind the linguistic handler is outside the program, so its
    answers are the argument [corenlp]. *)
Definition lingual_parse (cfg : Config) (corenlp : Annotator) : Annotator :=
  if lingual cfg then corenlp else SimpleTokenizer_parse delim.

(** [OmniParserUDF.parse_structure(document, text)], where [root] is
    [fromstring(text)] and [h] the heap at the call. *)
Definition parse_structure (cfg : Config) (corenlp : Annotator) (pdb : Debugger)
           (document : Document) (root : Element) (h : Heap) : Run :=
  match walk cfg document root h with
  | Ok w =>
      let block_char_end := cumsum (block_lengths w) in
      run_batches (S (String.length (contents w))) cfg (lingual_parse cfg corenlp)
                  pdb document (contents w) block_char_end (parents w) 0
                  {| parent_idx := 0; position := 0; phrase_num := 0 |} 0
  | Raise e => {| calls := []; emitted := []; outcome := Raise e |}
  | OutOfFuel => {| calls := []; emitted := []; outcome := OutOfFuel |}
  end.

End Fonduer.

(** ** snorkel: [CoreNLPHandler.parse] *)

Module Snorkel.
Import Py.

(** One entry of [block['tokens']] and of [block['basic-dependencies']]
    in the JSON answer of the CoreNLP server. *)
Record Token := {
  word : string;
  lemma : string;
  pos : string;
  ner : string;
  characterOffsetBegin : Z;
  originalText : string;
  after : option string
}.

Record Dependency := {
  governor : Z;
  dep : string;
  dependent : Z
}.

Record Block := {
  tokens : list Token;
  basic_dependencies : list Dependency
}.

(** The values a [parts] dictionary holds. *)
Inductive Atom :=
| AStr (s : string)
| AInt (z : Z).

Inductive Value :=
| VList (l : list Atom)
| VStr (s : string)
| VInt (z : Z).

(** [parts = defaultdict(list)]: reading a missing key gives a new empty
    list, which is stored under the key. Reading a key that holds no
    list does not occur in [parse]. *)
Definition getlist (parts : gmap string Value) (k : string) : list Atom :=
  match parts !! k with
  | Some (VList l) => l
  | _ => []
  end.

(** [parts[k].append(x)] *)
Definition append (parts : gmap string Value) (k : string) (x : Atom)
  : gmap string Value :=
  <[k := VList (getlist parts k ++ [x])]> parts.

(** The table [PTB] and [PTB.get(w, w)]. *)
Definition PTB : list (string * string) :=
  [("-RRB-", ")"); ("-LRB-", "("); ("-RCB-", "}"); ("-LCB-", "{");
   ("-RSB-", "]"); ("-LSB-", "[")].

Fixpoint PTB_get (t : list (string * string)) (w : string) : string :=
  match t with
  | [] => w
  | (k, v) :: t' => if String.eqb k w then v else PTB_get t' w
  end.

(** [s.replace(u"\x00", " ")] *)
Fixpoint replace_nul (s : string) : string :=
  match s with
  | EmptyString => EmptyString
  | String c s' =>
      String (if Ascii.eqb c "000"%char then " "%char else c) (replace_nul s')
  end.

(** The body of [for tok, deps in zip(...)] for one pair. *)
Definition token_step (st : gmap string Value * list Z * list string * list Z)
           (td : Token * Dependency)
  : gmap string Value * list Z * list string * list Z :=
  let '(parts, dep_par, dep_lab, dep_order) := st in
  let '(tok, deps) := td in
  let parts := append parts "words" (AStr (PTB_get PTB (word tok))) in
  let parts := append parts "lemmas" (AStr (PTB_get PTB (lemma tok))) in
  let parts := append parts "words" (AStr (replace_nul (word tok))) in
  let parts := append parts "lemma" (AStr (replace_nul (lemma tok))) in
  let parts := append parts "pos_tags" (AStr (pos tok)) in
  let parts := append parts "ner_tags" (AStr (ner tok)) in
  let parts := append parts "char_offsets" (AInt (characterOffsetBegin tok)) in
  (parts, dep_par ++ [governor deps], dep_lab ++ [dep deps],
   dep_order ++ [dependent deps]).

Definition atom_len (a : Atom) : result Z :=
  match a with AStr s => Ok (len s) | AInt _ => Raise AttributeError end.

Definition atom_int (a : Atom) : result Z :=
  match a with AInt z => Ok z | AStr _ => Raise AttributeError end.

(** [l[0]] and [l[-1]] *)
Definition first (l : list Atom) : result Atom :=
  match l with a :: _ => Ok a | [] => Raise IndexError end.
Definition final (l : list Atom) : result Atom :=
  match last l with Some a => Ok a | None => Raise IndexError end.

(** The body of [for block in blocks] up to [yield parts], with
    [parse_tree] off. [sort_X_on_Y] is a function of [utils.py], which
    is not among the sources at hand: it is an argument.

    Modelled from the spec: [construct_stable_id] of [models.py]; the
    identifier is ["<document-name>::<kind>:<start>:<end>"]. *)
Definition parse_block
           (sort_X_on_Y : forall A : Type, list A -> list Z -> list A)
           (document_name : string) (position : Z) (block : Block)
  : result (gmap string Value) :=
  let '(parts, dep_par, dep_lab, dep_order) :=
    foldl token_step (∅, [], [], [])
          (zip (tokens block) (basic_dependencies block)) in
  let parts :=
    <["text" := VStr (foldr (fun t acc =>
                               (originalText t +:+ default EmptyString (after t)) +:+ acc)
                            EmptyString (tokens block))]> parts in
  a0 ← first (getlist parts "char_offsets");
  abs_sent_offset ← atom_int a0;
  offsets ← foldr (fun a acc => p ← atom_int a; l ← acc; Ok (AInt (p - abs_sent_offset) :: l))
                   (Ok []) (getlist parts "char_offsets");
  let parts := <["char_offsets" := VList offsets]> parts in
  let parts :=
    <["dep_parents" := VList (AInt <$> sort_X_on_Y Z dep_par dep_order)]> parts in
  let parts :=
    <["dep_labels" := VList (AStr <$> sort_X_on_Y string dep_lab dep_order)]> parts in
  let parts := <["position" := VInt position]> parts in
  let parts := <["document" := VStr document_name]> parts in
  let parts :=
    <["entity_cids" := VList ((fun _ => AStr "O") <$> getlist parts "words")]> parts in
  let parts :=
    <["entity_types" := VList ((fun _ => AStr "O") <$> getlist parts "words")]> parts in
  o ← final (getlist parts "char_offsets");
  o ← atom_int o;
  w ← final (getlist parts "words");
  n ← atom_len w;
  let abs_sent_offset_end := abs_sent_offset + o + n in
  Ok (<["stable_id" := VStr (fmt4 document_name "sentence" (str abs_sent_offset)
                                   (str abs_sent_offset_end))]> parts).

(** The generator [parse] from [position = 0] on, given the decoded
    [blocks]: the records yielded and the exception that ends it, if
    any. *)
Fixpoint parse_blocks
         (sort_X_on_Y : forall A : Type, list A -> list Z -> list A)
         (document_name : string) (position : Z) (blocks : list Block)
  : list (gmap string Value) * option exn :=
  match blocks with
  | [] => ([], None)
  | block :: blocks' =>
      match parse_block sort_X_on_Y document_name position block with
      | Ok parts =>
          let '(ps, e) := parse_blocks sort_X_on_Y document_name (position + 1) blocks' in
          (parts :: ps, e)
      | Raise e => ([], Some e)
      | OutOfFuel => ([], None) (* no loop inside: does not arise *)
      end
  end.

End Snorkel.

Import Py Fonduer.

(** * Properties *)

(** ** The occupancy grid *)

(** A coordinate is occupied when the grid holds a true value for it. *)
Definition occupied (g : gmap (Z * Z) Z) (k : Z * Z) : bool :=
  match g !! k with Some v => truthy v | None => false end.

(** The rectangle of a cell. *)
Definition covers (c : Cell) (r k : Z) : Prop :=
  row_start c <= r <= row_end c /\ col_start c <= k <= col_end c.

(** The span an attribute asks for: its integer value, and 1 when the
    attribute is absent. *)
Definition span (node : Element) (k : string) : result Z :=
  match get (attrib node) k with
  | Some v => int v
  | None => Ok 1
  end.

(** Two cells of one table never share a coordinate. *)
Definition rectangles_disjoint (cs : list Cell) : Prop :=
  forall i j c1 c2, i <> j -> cs !! i = Some c1 -> cs !! j = Some c2 ->
    c_table c1 = c_table c2 ->
    forall r k, ~ (covers c1 r k /\ covers c2 r k).

(** ** Inputs of the examples *)

(** The defaults of [OmniParser.__init__], apart from the replacement
    rule for Unicode dashes, which leaves ASCII text as it is. *)
Definition config : Config :=
  {| blacklist := ["style"]; self_flatten := ["span"; "br"]; flatten_delim := "";
     lingual := true; strip := true; replacements := []; tabular := true |}.

Definition doc : Document := {| name := "doc" |}.

Definition el (t : string) (a : list (string * string)) (x : option string)
           (cs : list Element) : Element :=
  Elem (TagName t) a x cs None.

(** [<table><tr><td rowspan="2" colspan="3">a</td></tr></table>] *)
Definition one_cell : Element :=
  el "table" [] None
     [el "tr" [] None [el "td" [("rowspan", "2"); ("colspan", "3")] (Some "a") []]].

(** [<table><tr><td rowspan="2" colspan="3">a</td><td>b</td></tr></table>] *)
Definition two_cells : Element :=
  el "table" [] None
     [el "tr" [] None [el "td" [("rowspan", "2"); ("colspan", "3")] (Some "a") [];
                       el "td" [] (Some "b") []]].

(** [<table><tr><td>a</td><td rowspan="2">b</td></tr>
    <tr><td colspan="2">c</td></tr></table>] *)
Definition span_clash : Element :=
  el "table" [] None
     [el "tr" [] None [el "td" [] (Some "a") [];
                       el "td" [("rowspan", "2")] (Some "b") []];
      el "tr" [] None [el "td" [("colspan", "2")] (Some "c") []]].

(** A [TableInfo] inside the first row of a table. *)
Definition in_row : TableInfo :=
  {| document := doc;
     table := Some {| t_document := doc; t_stable_id := "doc::table:0:0";
                      t_position := 0 |};
     table_grid := default_table_grid; cell := None; cell_idx := 0;
     row_idx := 0; col_idx := 0;
     parent := IsTable {| t_document := doc; t_stable_id := "doc::table:0:0";
                          t_position := 0 |};
     cell_position := Some 0 |}.

(** The heap once the coordinate (0,0) of the grid is marked. *)
Definition first_column_taken : Heap :=
  set_grid initial_heap default_table_grid {[ (0, 0) := 1 ]}.

(** [<table><tr><td rowspan="2">a<table><tr><td>b</td></tr></table></td></tr>
    <tr><td>c</td></tr></table>]: a table inside a cell that spans two
    rows. *)
Definition inner_table : Element :=
  el "table" [] None [el "tr" [] None [el "td" [] (Some "b") []]].

Definition outer_cell : Element :=
  el "td" [("rowspan", "2")] (Some "a") [inner_table].

Definition nested : Element :=
  el "table" [] None
     [el "tr" [] None [outer_cell];
      el "tr" [] None [el "td" [] (Some "c") []]].

(** The outer [TableInfo] and the heap once the walk of [nested] has
    entered the outer table, its first row and [outer_cell]. *)
Definition at_outer_cell : result (Z * TableInfo * Heap) :=
  '(i, s, h) ← enter_tabular (TableInfo_init doc (IsDocument doc)) nested (-1) initial_heap;
  '(i, s, h) ← enter_tabular s (el "tr" [] None [outer_cell]) i h;
  enter_tabular s outer_cell i h.

(** [<p>aaa...a</p>] with 7001 letters: one block, longer than a batch. *)
Definition letters : string := string_of_list_ascii (repeat "a"%char (7 * 1000 + 1)).

Definition long_paragraph : Element := el "p" [] (Some letters) [].

(** [<p>Hello<span>there</span>!</p>] *)
Definition hello : Element :=
  el "p" [] (Some "Hello") [Elem (TagName "span") [] (Some "there") [] (Some "!")].

(** [<div><p>a</p><p>b</p></div>], and the two sentences CoreNLP finds in
    ["a<NB>b<NB>"], with their character spans 0..1 and 5..6 and their
    positions 0 and 1 in the answer. *)
Definition two_paragraphs : Element :=
  el "div" [] None [el "p" [] (Some "a") []; el "p" [] (Some "b") []].

Definition sentence_at (k : Z) (w : string) (a b : Z) : Parts :=
  {| parts_text := w; words := [w]; char_offsets := [0];
     lemmas := Some [w]; pos_tags := Some ["NN"]; ner_tags := Some ["O"];
     dep_parents := Some [0]; dep_labels := Some ["ROOT"];
     parts_position := Some k; parts_document := Some doc;
     entity_cids := Some ["O"]; entity_types := Some ["O"];
     stable_id := construct_stable_id doc "sentence" a b |}.

Definition sentence (w : string) (a b : Z) : Parts := sentence_at 0 w a b.

Definition two_sentences : Annotator :=
  fun _ _ => ([sentence "a" 0 1; sentence_at 1 "b" 5 6], None).

(** The default configuration with a space for [flatten_delim]. *)
Definition config_space : Config :=
  {| blacklist := ["style"]; self_flatten := ["span"; "br"]; flatten_delim := " ";
     lingual := true; strip := true; replacements := []; tabular := true |}.

(** [re.sub] for a pattern that matches single characters of a set:
    every character of [s] that is in [set] becomes [new]. *)
Fixpoint sub_chars (set : list ascii) (new : string) (s : string) : string :=
  match s with
  | EmptyString => EmptyString
  | String c s' =>
      (if bool_decide (c ∈ set) then new else String c EmptyString)
        +:+ sub_chars set new s'
  end.

(** A configuration with a space for [flatten_delim] and one replacement
    rule, which turns the tilde into a hyphen as the default rule of
    [OmniParser] does with the Unicode dashes. *)
Definition config_dashes : Config :=
  {| blacklist := ["style"]; self_flatten := ["span"; "br"]; flatten_delim := " ";
     lingual := true; strip := true; replacements := [sub_chars ["~"%char] "-"];
     tabular := true |}.

(** The defaults with the tabular mode switched off. *)
Definition config_no_tables : Config :=
  {| blacklist := ["style"]; self_flatten := ["span"; "br"]; flatten_delim := "";
     lingual := true; strip := true; replacements := []; tabular := false |}.

(** A sentence of one token, as CoreNLP answers for ["Hi"], and a
    stand-in for [sort_X_on_Y] that leaves its first argument as it is. *)
Definition greeting : Snorkel.Block :=
  {| Snorkel.tokens :=
       [{| Snorkel.word := "Hi"; Snorkel.lemma := "hi"; Snorkel.pos := "UH";
           Snorkel.ner := "O"; Snorkel.characterOffsetBegin := 0;
           Snorkel.originalText := "Hi"; Snorkel.after := None |}];
     Snorkel.basic_dependencies :=
       [{| Snorkel.governor := 0; Snorkel.dep := "ROOT"; Snorkel.dependent := 1 |}] |}.

Definition unsorted (A : Type) (X : list A) (Y : list Z) : list A := X.

(** The lengths of the per-token lists of a [parts] record of snorkel. *)
Definition counts (parts : gmap string Snorkel.Value) : list nat :=
  (fun k => length (Snorkel.getlist parts k)) <$>
    ["words"; "lemmas"; "pos_tags"; "ner_tags"; "char_offsets"; "lemma"].

(** The cursor [parse_structure] starts the [while] loop with. *)
Definition start : Cursor := {| parent_idx := 0; position := 0; phrase_num := 0 |}.


(** ** The reconciliation loop as a step relation *)

(** The parent a Phrase is attached to: its cell, else its table, else
    its document. *)
Definition parent_of (p : Phrase) : Context :=
  match p_cell p, p_table p with
  | Some c, _ => IsCell c
  | None, Some t => IsTable t
  | None, None => IsDocument (p_document p)
  end.

(** The positions of the phrases built from block [b], in the order of
    emission. *)
Definition block_positions (b : nat) (l : list (nat * Phrase)) : list (option Z) :=
  map (fun x => p_position x.2) (filter (fun x => x.1 = b) l).

(** [Some a; Some (a+1); ...], [k] entries. *)
Definition positions_from (a : Z) (k : nat) : list (option Z) :=
  map (fun i => Some (a + Z.of_nat i)) (seq 0 k).

(** The identifier given to phrase number [n] of a document. *)
Definition phrase_id (document : Document) (n : Z) : string :=
  fmt4 (name document) "phrase" (str n) (str n).

(** What one pass through the [try] block does to the cursor. [position]
    is kept while the block pointer stays, and starts from 0 when the
    pointer has moved. *)
Definition position_at (c c' : Cursor) : Z :=
  if decide (parent_idx c' = parent_idx c) then position c else 0.

Definition unit_ok (cfg : Config) (document : Document) (parents : list Context)
           (c : Cursor) (o : Outcome) (c' : Cursor) : Prop :=
  (parent_idx c <= parent_idx c')%nat /\
  match o with
  | Yield b p =>
      b = parent_idx c' /\
      phrase_num c' = phrase_num c + 1 /\
      position c' = position_at c c' + 1 /\
      p_phrase_num p = phrase_num c /\
      p_stable_id p = phrase_id document (phrase_num c) /\
      (tabular cfg = true ->
       p_position p = Some (position_at c c') /\
       exists parent, parents !! b = Some parent /\ parent <> IsNone)
  | Caught _ =>
      phrase_num c' = phrase_num c /\ position c' = position_at c c'
  end.

(** The phrases yielded along a sequence of units, whatever the batches
    they came in and whatever the debugger was told. *)
Inductive steps (cfg : Config) (document : Document) (parents : list Context)
  : Cursor -> list (nat * Phrase) -> Cursor -> Prop :=
| steps_done c : steps cfg document parents c [] c
| steps_yield c b p c1 l c2 :
    unit_ok cfg document parents c (Yield b p) c1 ->
    steps cfg document parents c1 l c2 ->
    steps cfg document parents c ((b, p) :: l) c2
| steps_caught c e c1 l c2 :
    unit_ok cfg document parents c (Caught e) c1 ->
    steps cfg document parents c1 l c2 ->
    steps cfg document parents c l c2.

(** ** What the walk adds to its state *)

(** The sum of a list of integers. *)
Definition sum_Z (l : list Z) : Z := foldr Z.add 0 l.

(** A recorded parent that [apply_tabular] accepts, and that belongs to
    the document being parsed when it is the document itself. *)
Definition known_parent (d : Document) (p : Context) : Prop :=
  match p with
  | IsNone => False
  | IsDocument d' => d' = d
  | IsTable _ | IsCell _ => True
  end.

(** [w'] is [w] with more blocks: the buffer has grown by the lengths of
    the new blocks, every new block ends with the delimiter, one parent
    is recorded per new block in tabular mode and none otherwise, and
    the new tables are numbered on from [table_idx]. *)
Definition extends (cfg : Config) (d : Document) (w w' : Walk) : Prop :=
  exists lens ps ts,
    block_lengths w' = block_lengths w ++ lens /\
    len (contents w') = len (contents w) + sum_Z lens /\
    Forall (fun n => len delim <= n) lens /\
    parents w' = parents w ++ ps /\
    (if tabular cfg then length ps = length lens else ps = []) /\
    Forall (known_parent d) ps /\
    tables (heap w') = tables (heap w) ++ ts /\
    map t_position ts =
      map (fun i => table_idx w + 1 + Z.of_nat i) (seq 0 (length ts)) /\
    Forall (fun t => t_document t = d /\
                     t_stable_id t =
                       fmt4 (name d) "table" (str (t_position t)) (str (t_position t)))
           ts /\
    table_idx w' = table_idx w + Z.of_nat (length ts).

(** The invariant of a [TableInfo] between two nodes of a document. *)
Definition settled (d : Document) (ti : TableInfo) : Prop :=
  document ti = d /\ known_parent d (parent ti).

(** What a call of [parse_node] is entered with: in tabular mode the
    [TableInfo] belongs to the document, and its parent is known unless
    the node is a table, which sets the parent itself. *)
Definition node_pre (cfg : Config) (d : Document) (node : Element)
           (ti : option TableInfo) : Prop :=
  tabular cfg = true -> forall t, ti = Some t ->
    document t = d /\ (tag_is node "table" = true \/ known_parent d (parent t)).

(** What it returns with: the state has grown, and below a node that is
    no table the [TableInfo] is settled again and names the same table. *)
Definition node_post (cfg : Config) (d : Document) (node : Element)
           (ti : option TableInfo) (w : Walk)
           (r : option TableInfo * Walk) : Prop :=
  extends cfg d w r.2 /\
  (tabular cfg = true -> tag_is node "table" = false -> forall t, ti = Some t ->
     exists t', r.1 = Some t' /\ settled d t' /\ table t' = table t).

(** A node that [parse_node] leaves at once: a comment, or an element
    whose tag is blacklisted. *)
Definition skipped (cfg : Config) (node : Element) : bool :=
  match tag node with
  | Comment => true
  | TagName t => match blacklist cfg with [] => false | l => contains l t end
  end.

(** A node without its comments and blacklisted children. *)
Definition pruned (cfg : Config) (node : Element) : Element :=
  Elem (tag node) (attrib node) (text node)
       (filter (fun c => skipped cfg c = false) (children node)) (tail node).

(** [<p>Hello<!--c--><span>there</span></p>] *)
Definition hello_comment : Element :=
  el "p" [] (Some "Hello")
     [Elem Comment [] (Some "c") [] None;
      Elem (TagName "span") [] (Some "there") [] None].

(** The tabular keys of a Phrase built for a block whose recorded parent
    is [parent]: the table, the cell and the cell's rows and columns, as
    far as the parent has them. *)
Definition linked (parent : Context) (p : Phrase) : Prop :=
  match parent with
  | IsDocument _ =>
      p_table p = None /\ p_cell p = None /\
      (p_row_start p, p_row_end p, p_col_start p, p_col_end p) = (None, None, None, None)
  | IsTable t =>
      p_table p = Some t /\ p_cell p = None /\
      (p_row_start p, p_row_end p, p_col_start p, p_col_end p) = (None, None, None, None)
  | IsCell c =>
      p_table p = Some (c_table c) /\ p_cell p = Some c /\
      (p_row_start p, p_row_end p, p_col_start p, p_col_end p) =
      (Some (row_start c), Some (row_end c), Some (col_start c), Some (col_end c))
  | IsNone => False
  end.

(** A text or tail after [if x is None: x = ''] and [x += s] may have
    run on it: it is as before, or the old string with [s] appended. *)
Definition grown (old new : option string) : Prop :=
  new = old \/ exists s, new = Some (default EmptyString old +:+ s).

(** An element without its tail. *)
Definition untail (e : Element) : Element :=
  Elem (tag e) (attrib e) (text e) (children e) None.

(** [<p>a<span>b</span><i>c</i><br/>d</p>] *)
Definition inline : Element :=
  el "p" [] (Some "a")
     [Elem (TagName "span") [] (Some "b") [] None;
      Elem (TagName "i") [] (Some "c") [] None;
      Elem (TagName "br") [] None [] (Some "d")].

(** The texts of a list of calls, one after the other. *)
Definition glue (l : list string) : string := foldr String.append "" l.

(** A piece of the buffer that [SimpleTokenizer.parse] does not skip. *)
Definition nonblank (t : string) : bool := nonempty (Py.strip t).

(** ** fonduer: [CoreNLPHandler.parse]

    The handler of [src/fonduer/parser.py], with [parse_tree] off as
    [OmniParserUDF] builds it. It shares the shape of the server's answer
    and the [parts] dictionary with snorkel's handler. *)

Module FonduerNLP.
Import Py Snorkel.

(** The body of [for tok, deps in zip(...)] for one pair. *)
Definition token_step (st : gmap string Value * list Z * list string * list Z)
           (td : Token * Dependency)
  : gmap string Value * list Z * list string * list Z :=
  let '(parts, dep_par, dep_lab, dep_order) := st in
  let '(tok, deps) := td in
  let parts := append parts "words" (AStr (PTB_get PTB (word tok))) in
  let parts := append parts "lemmas" (AStr (PTB_get PTB (lemma tok))) in
  let parts := append parts "pos_tags" (AStr (pos tok)) in
  let parts := append parts "ner_tags" (AStr (ner tok)) in
  let parts := append parts "char_offsets" (AInt (characterOffsetBegin tok)) in
  (parts, dep_par ++ [governor deps], dep_lab ++ [dep deps],
   dep_order ++ [dependent deps]).

(** The body of [for block in blocks] up to [yield parts].
    [sort_X_on_Y] is a function of [utils.py], outside the sources at
    hand: it is an argument.

    Modelled from the spec: [construct_stable_id] of [models.py]; the
    identifier is ["<document-name>::<kind>:<start>:<end>"]. *)
Definition parse_block
           (sort_X_on_Y : forall A : Type, list A -> list Z -> list A)
           (document_name : string) (position : Z) (block : Block)
  : result (gmap string Value) :=
  let '(parts, dep_par, dep_lab, dep_order) :=
    foldl token_step (∅, [], [], [])
          (zip (tokens block) (basic_dependencies block)) in
  let parts :=
    <["text" := VStr (foldr (fun t acc =>
                               (originalText t +:+ default EmptyString (after t)) +:+ acc)
                            EmptyString (tokens block))]> parts in
  a0 ← first (getlist parts "char_offsets");
  abs_sent_offset ← atom_int a0;
  offsets ← foldr (fun a acc => p ← atom_int a; l ← acc; Ok (AInt (p - abs_sent_offset) :: l))
                   (Ok []) (getlist parts "char_offsets");
  let parts := <["char_offsets" := VList offsets]> parts in
  let parts :=
    <["dep_parents" := VList (AInt <$> sort_X_on_Y Z dep_par dep_order)]> parts in
  let parts :=
    <["dep_labels" := VList (AStr <$> sort_X_on_Y string dep_lab dep_order)]> parts in
  let parts := <["position" := VInt position]> parts in
  let parts := <["document" := VStr document_name]> parts in
  let parts :=
    <["entity_cids" := VList ((fun _ => AStr "O") <$> getlist parts "words")]> parts in
  let parts :=
    <["entity_types" := VList ((fun _ => AStr "O") <$> getlist parts "words")]> parts in
  o ← final (getlist parts "char_offsets");
  o ← atom_int o;
  w ← final (getlist parts "words");
  n ← atom_len w;
  let abs_sent_offset_end := abs_sent_offset + o + n in
  Ok (<["stable_id" := VStr (fmt4 document_name "sentence" (str abs_sent_offset)
                                   (str abs_sent_offset_end))]> parts).

(** The loop [for block in blocks] from [position] on: the records
    yielded and the exception that ends the generator, if any. *)
Fixpoint parse_blocks
         (sort_X_on_Y : forall A : Type, list A -> list Z -> list A)
         (document_name : string) (position : Z) (blocks : list Block)
  : list (gmap string Value) * option exn :=
  match blocks with
  | [] => ([], None)
  | block :: blocks' =>
      match parse_block sort_X_on_Y document_name position block with
      | Ok parts =>
          let '(ps, e) := parse_blocks sort_X_on_Y document_name (position + 1) blocks' in
          (parts :: ps, e)
      | Raise e => ([], Some e)
      | OutOfFuel => ([], None) (* no loop inside: does not arise *)
      end
  end.

(** [parse(document, text)]. [server] is the answer of the CoreNLP
    server to the posted text ([resp.content]), and [decode] stands for
    [json.loads(content, strict=False)['sentences']], with [None] when
    that raises. *)
Definition parse
           (sort_X_on_Y : forall A : Type, list A -> list Z -> list A)
           (server : string -> string) (decode : string -> option (list Block))
           (document_name : string) (text : string)
  : list (gmap string Value) * option exn :=
  if len (Py.strip text) =? 0 then ([], None)
  else
    let content := Py.strip (server text) in
    if String.prefix "Request is too long" content then ([], Some ValueError)
    else if String.prefix "CoreNLP request timed out" content then ([], Some ValueError)
    else
      match decode content with
      | None => ([], None)
      | Some blocks => parse_blocks sort_X_on_Y document_name 0 blocks
      end.

End FonduerNLP.

(** The lengths of the five per-token lists and of the two entity lists
    of a [parts] record. *)
Definition token_counts (parts : gmap string Snorkel.Value) : list nat :=
  (fun k => length (Snorkel.getlist parts k)) <$>
    ["words"; "lemmas"; "pos_tags"; "ner_tags"; "char_offsets"].

(** A sentence for which the token loop does not run: it has no token
    or no dependency entry. *)
Definition tokenless (b : Snorkel.Block) : Prop :=
  zip (Snorkel.tokens b) (Snorkel.basic_dependencies b) = [].

(** The integer under a key of a [parts] record. *)
Definition get_int (parts : gmap string Snorkel.Value) (k : string) : option Z :=
  match parts !! k with Some (Snorkel.VInt z) => Some z | _ => None end.

(** A sentence of two tokens at offsets 10 and 13, ["Hi -RRB-"]. *)
Definition two_tokens : Snorkel.Block :=
  {| Snorkel.tokens :=
       [{| Snorkel.word := "Hi"; Snorkel.lemma := "hi"; Snorkel.pos := "UH";
           Snorkel.ner := "O"; Snorkel.characterOffsetBegin := 10;
           Snorkel.originalText := "Hi"; Snorkel.after := Some " " |};
        {| Snorkel.word := "-RRB-"; Snorkel.lemma := "-RRB-"; Snorkel.pos := "-RRB-";
           Snorkel.ner := "O"; Snorkel.characterOffsetBegin := 13;
           Snorkel.originalText := ")"; Snorkel.after := None |}];
     Snorkel.basic_dependencies :=
       [{| Snorkel.governor := 0; Snorkel.dep := "ROOT"; Snorkel.dependent := 1 |};
        {| Snorkel.governor := 1; Snorkel.dep := "punct"; Snorkel.dependent := 2 |}] |}.

(** A sentence for which the server lists no token. *)
Definition no_tokens : Snorkel.Block :=
  {| Snorkel.tokens := []; Snorkel.basic_dependencies := [] |}.

(** ** fonduer: the document preprocessors *)

Module PyStr.
Import Py.

(** [s[:b]]; a negative [b] counts from the end. *)
Definition upto (s : string) (b : Z) : string :=
  if b <? 0 then slice s 0 (len s + b) else slice s 0 b.

(** [s.endswith(suf)] *)
Definition endswith (s suf : string) : bool :=
  (len suf <=? len s) && String.eqb (slice s (len s - len suf) (len s)) suf.

(** [s.rsplit('.', 1)[0]]: the part before the last dot, or all of [s]
    when it has no dot. *)
Definition rsplit_dot_head (s : string) : string :=
  match rfind_from s "." 0 with
  | Some j => slice s 0 j
  | None => s
  end.

End PyStr.

Module DocPreprocessor.

(** The inner loop of [generate] over the documents of one file, from
    the count [doc_count]: the documents yielded, the new count, and
    whether [return] was reached. [max_docs] is [None] for the default
    [float('inf')]. *)
Fixpoint generate_file {D} (max_docs : option Z) (doc_count : Z) (docs : list D)
  : list D * Z * bool :=
  match docs with
  | [] => ([], doc_count, false)
  | d :: docs' =>
      let doc_count := doc_count + 1 in
      if match max_docs with Some m => m <=? doc_count | None => false end
      then ([d], doc_count, true)
      else
        let '(r, c, stop) := generate_file max_docs doc_count docs' in
        (d :: r, c, stop)
  end.

(** The outer loop of [generate] over the files. [_can_read] and
    [parse_file] are the methods of the subclass. *)
Fixpoint generate_from {F D} (_can_read : F -> bool) (parse_file : F -> list D)
         (max_docs : option Z) (doc_count : Z) (files : list F) : list D :=
  match files with
  | [] => []
  | fp :: files' =>
      if _can_read fp then
        let '(r, c, stop) := generate_file max_docs doc_count (parse_file fp) in
        if stop then r
        else r ++ generate_from _can_read parse_file max_docs c files'
      else generate_from _can_read parse_file max_docs doc_count files'
  end.

(** [generate()] *)
Definition generate {F D} (_can_read : F -> bool) (parse_file : F -> list D)
           (max_docs : option Z) (files : list F) : list D :=
  generate_from _can_read parse_file max_docs 0 files.

(** [get_stable_id(doc_id)] *)
Definition get_stable_id (doc_id : string) : string :=
  doc_id +:+ "::document:0:0".

End DocPreprocessor.

(** [HTMLDocPreprocessor]: [_can_read] and the document name that
    [parse_file] computes from the base name of the file. *)
Module HTMLDocPreprocessor.

Definition _can_read (fpath : string) : bool := PyStr.endswith fpath ".html".

Definition name (basename : string) : string := PyStr.rsplit_dot_head basename.

End HTMLDocPreprocessor.

(** [HTMLPreprocessor]: the same two for the preprocessor that
    [OmniParser] is fed from. *)
Module HTMLPreprocessor.

Definition _can_read (fpath : string) : bool := PyStr.endswith fpath "html".

Definition name (basename : string) : string :=
  PyStr.upto basename (Py.rfind basename ".").

End HTMLPreprocessor.
(** ** tutorials/tables: [hardware_utils.py], the entity counts *)

Module HardwareUtils.
Section Entities.
Context {A : Type} {EqA : EqDecision A} {CountA : Countable A}.

(** An argument that is a set already, or another iterable. *)
Inductive Iterable :=
| IsSet (s : gset A)
| IsList (l : list A).

(** [set(x)], taken when [x] is not a set. *)
Definition to_set (x : Iterable) : gset A :=
  match x with
  | IsSet s => s
  | IsList l => list_to_set l
  end.

(** [entity_confusion_matrix(pred, gold)] *)
Definition entity_confusion_matrix (pred gold : Iterable)
  : gset A * gset A * gset A :=
  let pred := to_set pred in
  let gold := to_set gold in
  let TP := pred ∩ gold in
  let FP := pred ∖ gold in
  let FN := gold ∖ pred in
  (TP, FP, FN).

(** [e in gold] *)
Definition member (e : A) (gold : Iterable) : bool :=
  match gold with
  | IsSet s => bool_decide (e ∈ s)
  | IsList l => bool_decide (e ∈ l)
  end.

(** [count_labels(entities, gold)], with [entities] in the order of
    iteration. *)
Definition count_labels (entities : list A) (gold : Iterable) : Z * Z :=
  foldl (fun '(T, F) e => if member e gold then (T + 1, F) else (T, F + 1))
        (0, 0) entities.

End Entities.
End HardwareUtils.

Section Grid.
Implicit Types (g : gmap (Z * Z) Z) (r c : Z).

Lemma occupied_getitem g k k' :
  occupied (getitem g k).2 k' = occupied g k'.
Proof.
  unfold getitem, occupied. destruct (g !! k) eqn:E; simpl; [done|].
  destruct (decide (k = k')) as [->|Hne].
  - by rewrite lookup_insert_eq, E.
  - by rewrite lookup_insert_ne.
Qed.

Lemma getitem_truthy g k :
  truthy (getitem g k).1 = occupied g k.
Proof. unfold getitem, occupied. by destruct (g !! k). Qed.

(** Deleting a coordinate to the left of the cursor does not change
    whether the scan ends. *)
Lemma scan_delete fuel g r c c0 :
  c0 < c -> is_Some (scan fuel (delete (r, c0) g) r c) -> is_Some (scan fuel g r c).
Proof.
  revert g c. induction fuel as [|fuel IH]; intros g c Hlt; simpl; [done|].
  unfold getitem. rewrite lookup_delete_ne by (intros [=]; lia).
  destruct (g !! (r, c)) as [v|] eqn:E; simpl.
  - destruct (truthy v); [|by eauto]. apply IH. lia.
  - intros _. eauto.
Qed.

Lemma scan_total_size n : forall fuel g r c,
  size g = n -> (n < fuel)%nat -> is_Some (scan fuel g r c).
Proof.
  induction n as [n IH] using lt_wf_ind. intros fuel g r c Hn Hf.
  destruct fuel as [|fuel]; [lia|]. simpl. unfold getitem.
  destruct (g !! (r, c)) as [v|] eqn:E; simpl; [|by eauto].
  destruct (truthy v); [|by eauto].
  apply scan_delete with (c0 := c); [lia|].
  assert (size g = S (size (delete (r, c) g))) as Hs.
  { rewrite <- (insert_delete_id g (r, c) v E) at 1.
    apply map_size_insert_None, lookup_delete_eq. }
  apply (IH (size (delete (r, c) g))); [lia|done|lia].
Qed.

(** The [while] loop of [enter_tabular] always ends within the budget
    the model gives it. *)
Lemma scan_total g r c : is_Some (scan (S (size g)) g r c).
Proof. apply (scan_total_size (size g)); [done|lia]. Qed.

(** Where it ends: at the first column from the cursor on that is not
    occupied; occupancy is as before. *)
Lemma scan_spec fuel : forall g r c c' g',
  scan fuel g r c = Some (c', g') ->
  c <= c' /\
  (forall k, c <= k < c' -> occupied g (r, k) = true) /\
  occupied g (r, c') = false /\
  (forall k, occupied g' k = occupied g k).
Proof.
  induction fuel as [|fuel IH]; intros g r c c' g'; simpl; [done|].
  destruct (getitem g (r, c)) as [v g1] eqn:E.
  assert (truthy v = occupied g (r, c)) as Hv.
  { rewrite <- getitem_truthy. by rewrite E. }
  assert (forall k, occupied g1 k = occupied g k) as Hg1.
  { intros k. rewrite <- (occupied_getitem g (r, c) k). by rewrite E. }
  destruct (truthy v) eqn:Ht.
  - intros H. apply IH in H as (Hle & Hocc & Hfree & Hsame).
    split; [lia|]. split; [|split].
    + intros k Hk. destruct (decide (k = c)) as [->|Hne]; [done|].
      rewrite <- Hg1. apply Hocc. lia.
    + by rewrite <- Hg1.
    + intros k. by rewrite Hsame.
  - intros [= <- <-]. split; [lia|]. split; [intros; lia|]. split; [done|]. done.
Qed.

Lemma elem_of_range a b x : x ∈ range a b <-> a <= x < b.
Proof.
  unfold range. rewrite list_elem_of_In, in_map_iff. split.
  - intros (i & <- & Hi). apply in_seq in Hi. lia.
  - intros Hx. exists (Z.to_nat (x - a)). split; [lia|]. apply in_seq. lia.
Qed.

Lemma elem_of_product {A B} (xs : list A) (ys : list B) x y :
  (x, y) ∈ product xs ys <-> x ∈ xs /\ y ∈ ys.
Proof.
  unfold product. rewrite !list_elem_of_In, in_flat_map. split.
  - intros (x' & Hx & Hy). apply in_map_iff in Hy as (y' & [= <- <-] & Hy). done.
  - intros [Hx Hy]. exists x. split; [done|]. apply in_map_iff. eauto.
Qed.

Lemma lookup_mark_list l : forall g k,
  foldl (fun g rc => <[rc := 1]> g) g l !! k =
  if bool_decide (k ∈ l) then Some 1 else g !! k.
Proof.
  induction l as [|x l IH]; intros g k; cbn [foldl].
  - by rewrite bool_decide_eq_false_2 by apply not_elem_of_nil.
  - rewrite IH. destruct (decide (k ∈ l)) as [Hin|Hin].
    + rewrite !bool_decide_eq_true_2; [done| |done]. by right.
    + rewrite (bool_decide_eq_false_2 (k ∈ l)) by done.
      destruct (decide (x = k)) as [->|Hne].
      * rewrite lookup_insert_eq, bool_decide_eq_true_2; [done|by left].
      * rewrite lookup_insert_ne by done.
        rewrite bool_decide_eq_false_2; [done|].
        intros [->|?]%elem_of_cons; done.
Qed.

(** What marking a rectangle leaves in the grid. *)
Lemma lookup_mark g r0 r1 c0 c1 r c :
  mark g r0 r1 c0 c1 !! (r, c) =
  if bool_decide (r0 <= r <= r1 /\ c0 <= c <= c1) then Some 1 else g !! (r, c).
Proof.
  unfold mark. rewrite lookup_mark_list.
  assert ((r, c) ∈ product (range r0 (r1 + 1)) (range c0 (c1 + 1)) <->
          r0 <= r <= r1 /\ c0 <= c <= c1) as Hiff.
  { rewrite elem_of_product, !elem_of_range. lia. }
  by rewrite (bool_decide_ext _ _ Hiff).
Qed.

End Grid.

(** ** Entering a cell *)

Lemma grid_at_set_grid h l g : grid_at (set_grid h l g) l = g.
Proof. unfold grid_at, set_grid; simpl. apply lookup_total_insert_eq. Qed.

Lemma grid_at_new_Cell h c l : grid_at (new_Cell h c) l = grid_at h l.
Proof. reflexivity. Qed.

Lemma tag_in_cell node :
  tag_in node ["td"; "th"] = true ->
  tag_is node "table" = false /\ tag_is node "tr" = false.
Proof.
  unfold tag_in, tag_is, contains. destruct (tag node) as [t|]; [|done]. simpl.
  destruct (String.eqb_spec t "td") as [->|_]; [done|].
  destruct (String.eqb_spec t "th") as [->|_]; done.
Qed.

Lemma span_end_span node k start s :
  span node k = Ok s -> span_end node k start = Ok (start + s - 1).
Proof.
  unfold span, span_end. destruct (get (attrib node) k) as [v|].
  - intros ->. simpl. f_equal. lia.
  - intros [= <-]. f_equal. lia.
Qed.

Lemma span_end_inv node k start e :
  span_end node k start = Ok e -> exists s, span node k = Ok s /\ e = start + s - 1.
Proof.
  unfold span, span_end. destruct (get (attrib node) k) as [v|].
  - destruct (int v) as [n| |]; simpl; [|done..]. intros [= <-]. exists n. split; [done|lia].
  - intros [= <-]. exists 1. split; [done|lia].
Qed.

(** [enter_tabular] on a [td] or [th], with the values it goes through. *)
Lemma enter_cell self node table_idx h r :
  tag_in node ["td"; "th"] = true ->
  enter_tabular self node table_idx h = Ok r ->
  exists col g rs cs t pos c,
    scan (S (size (grid_at h (table_grid self)))) (grid_at h (table_grid self))
         (row_idx self) (col_idx self) = Some (col, g) /\
    span node "rowspan" = Ok rs /\ span node "colspan" = Ok cs /\
    table self = Some t /\ cell_position self = Some pos /\
    c = {| c_document := document self; c_table := t;
           row_start := row_idx self; row_end := row_idx self + rs - 1;
           col_start := col; col_end := col + cs - 1; c_position := pos;
           c_stable_id := fmt5 (name (document self)) "cell" (str (t_position t))
                               (str (row_idx self)) (str col) |} /\
    r = (table_idx,
         {| document := document self; table := table self;
            table_grid := table_grid self; cell := Some c;
            cell_idx := cell_idx self; row_idx := row_idx self; col_idx := col;
            parent := IsCell c; cell_position := cell_position self |},
         new_Cell (set_grid h (table_grid self)
                            (mark g (row_idx self) (row_idx self + rs - 1)
                                  col (col + cs - 1)))
                  c).
Proof.
  intros Htag. destruct (tag_in_cell node Htag) as [Ht Hr].
  unfold enter_tabular. rewrite Ht, Hr, Htag.
  destruct (scan _ _ _ _) as [[col g]|] eqn:Hscan; [|done].
  destruct (span_end node "rowspan" (row_idx self)) as [re| |] eqn:Hre; [|done..].
  destruct (span_end node "colspan" col) as [ce| |] eqn:Hce; [|done..].
  simpl.
  destruct (cell_position self) as [pos|] eqn:Hpos; [|done].
  destruct (table self) as [t|] eqn:Htab; [|done].
  apply span_end_inv in Hre as (rs & Hrs & ->).
  apply span_end_inv in Hce as (cs & Hcs & ->).
  intros [= <-]. by eexists col, g, rs, cs, t, pos, _.
Qed.

(** It returns whenever the instance is inside a table and the span
    attributes are integers. *)
Lemma enter_cell_returns self node table_idx h t pos rs cs :
  tag_in node ["td"; "th"] = true ->
  table self = Some t -> cell_position self = Some pos ->
  span node "rowspan" = Ok rs -> span node "colspan" = Ok cs ->
  exists r, enter_tabular self node table_idx h = Ok r.
Proof.
  intros Htag Htab Hpos Hrs Hcs. destruct (tag_in_cell node Htag) as [Ht Hr].
  unfold enter_tabular. rewrite Ht, Hr, Htag.
  destruct (scan_total (grid_at h (table_grid self)) (row_idx self) (col_idx self))
    as [[col g] ->].
  rewrite (span_end_span _ _ _ _ Hrs). simpl.
  rewrite (span_end_span _ _ _ _ Hcs). simpl.
  rewrite Hpos, Htab. eauto.
Qed.

(** C5. On entering a [td]/[th] inside a table, [col_start] is the first
    column from the cursor on whose coordinate in the current row is not
    occupied; [row_end = row_start + rowspan - 1] and
    [col_end = col_start + colspan - 1], a span being 1 when the attribute
    is absent; afterwards every coordinate of the rectangle is marked, and
    no other coordinate changes. In particular a cell with [rowspan=2] and
    [colspan=3] at (0,0) marks exactly {0,1} x {0,1,2}, and the next cell
    of row 0 starts at column 3. *)
Theorem enter_tabular_cell :
  (forall self node table_idx h t pos rs cs,
      tag_in node ["td"; "th"] = true ->
      table self = Some t -> cell_position self = Some pos ->
      span node "rowspan" = Ok rs -> span node "colspan" = Ok cs ->
      exists self' h' c,
        enter_tabular self node table_idx h = Ok (table_idx, self', h') /\
        cell self' = Some c /\ parent self' = IsCell c /\
        cells h' = cells h ++ [c] /\
        row_start c = row_idx self /\
        col_idx self <= col_start c /\
        (forall k, col_idx self <= k < col_start c ->
                   occupied (grid_at h (table_grid self)) (row_idx self, k) = true) /\
        occupied (grid_at h (table_grid self)) (row_idx self, col_start c) = false /\
        row_end c = row_start c + rs - 1 /\
        col_end c = col_start c + cs - 1 /\
        (forall r k, covers c r k ->
                     grid_at h' (table_grid self') !! (r, k) = Some 1) /\
        (forall r k, ~ covers c r k ->
                     occupied (grid_at h' (table_grid self')) (r, k) =
                     occupied (grid_at h (table_grid self)) (r, k))) /\
  (exists w c,
      walk config doc one_cell initial_heap = Ok w /\
      cells (heap w) = [c] /\
      (row_start c, row_end c, col_start c, col_end c) = (0, 1, 0, 2) /\
      grid_at (heap w) default_table_grid =
        list_to_map [((0, 0), 1); ((0, 1), 1); ((0, 2), 1);
                     ((1, 0), 1); ((1, 1), 1); ((1, 2), 1)]) /\
  (exists w c1 c2,
      walk config doc two_cells initial_heap = Ok w /\
      cells (heap w) = [c1; c2] /\
      (row_start c1, row_end c1, col_start c1, col_end c1) = (0, 1, 0, 2) /\
      (row_start c2, col_start c2) = (0, 3)).
Proof.
  split; [|split].
  - intros self node table_idx h t pos rs cs Htag Htab Hpos Hrs Hcs.
    destruct (enter_cell_returns self node table_idx h t pos rs cs) as [r Hr]; try done.
    destruct (enter_cell _ _ _ _ _ Htag Hr)
      as (col & g & rs' & cs' & t' & pos' & c & Hscan & Hrs' & Hcs' & _ & _ & -> & ->).
    rewrite Hrs in Hrs'. rewrite Hcs in Hcs'. injection Hrs' as <-. injection Hcs' as <-.
    apply scan_spec in Hscan as (Hle & Hocc & Hfree & Hsame).
    eexists _, _, _. split; [exact Hr|]. simpl.
    repeat (split; [done|]). rewrite grid_at_new_Cell, grid_at_set_grid. split.
    + intros r k [Hr1 Hk1]. simpl in *. rewrite lookup_mark.
      by rewrite bool_decide_eq_true_2 by lia.
    + intros r k Hn. unfold occupied at 1. rewrite lookup_mark.
      rewrite bool_decide_eq_false_2.
      * apply Hsame.
      * intros Hc. apply Hn. unfold covers. simpl. lia.
  - eexists _, _. split; [vm_compute; reflexivity|]. by vm_compute.
  - eexists _, _, _. split; [vm_compute; reflexivity|]. by vm_compute.
Qed.

Lemma enter_tabular_cell_witness :
  tag_in (el "td" [("colspan", "2")] None []) ["td"; "th"] = true /\
  table in_row = Some {| t_document := doc; t_stable_id := "doc::table:0:0";
                         t_position := 0 |} /\
  cell_position in_row = Some 0 /\
  span (el "td" [("colspan", "2")] None []) "rowspan" = Ok 1 /\
  span (el "td" [("colspan", "2")] None []) "colspan" = Ok 2 /\
  exists self' h' c,
    enter_tabular in_row (el "td" [("colspan", "2")] None []) 0 initial_heap
      = Ok (0, self', h') /\
    col_end c = col_start c + 2 - 1 /\ cell self' = Some c.
Proof.
  repeat (split; [reflexivity|]).
  destruct (proj1 enter_tabular_cell in_row (el "td" [("colspan", "2")] None []) 0
                  initial_heap _ 0 1 2 eq_refl eq_refl eq_refl eq_refl eq_refl)
    as (self' & h' & c & H1 & H2 & _ & _ & _ & _ & _ & _ & _ & H3 & _).
  exists self', h', c. auto.
Defined.

(** C1, counterexample. In [span_clash] the cell of the second row spans
    two columns from column 0, and the second cell of the first row spans
    two rows in column 1: both cover (1,1). *)
Lemma rectangles_overlap :
  exists w, walk config doc span_clash initial_heap = Ok w /\
            ~ rectangles_disjoint (cells (heap w)).
Proof.
  eexists. split; [vm_compute; reflexivity|].
  intros H.
  eapply (H 1%nat 2%nat _ _ ltac:(done) eq_refl eq_refl eq_refl 1 1).
  unfold covers; simpl. lia.
Qed.

(** C1, amended. On entering a [td]/[th], [col_start] is the first
    column from the cursor on whose coordinate in the current row is
    free: every column passed over is marked occupied, and the first
    coordinate [(row_start, col_start)] of the new cell is not. The rest
    of its rectangle is not looked at. *)
Theorem cell_anchor_free self node table_idx h table_idx' self' h' :
  tag_in node ["td"; "th"] = true ->
  enter_tabular self node table_idx h = Ok (table_idx', self', h') ->
  exists c, cell self' = Some c /\ cells h' = cells h ++ [c] /\
            row_start c = row_idx self /\ col_idx self <= col_start c /\
            (forall k, col_idx self <= k < col_start c ->
                       occupied (grid_at h (table_grid self)) (row_start c, k) = true) /\
            occupied (grid_at h (table_grid self)) (row_start c, col_start c) = false.
Proof.
  intros Htag Hr.
  destruct (enter_cell _ _ _ _ _ Htag Hr)
    as (col & g & rs & cs & t & pos & c & Hscan & _ & _ & _ & _ & -> & Heq).
  injection Heq as ? ? ?; subst.
  apply scan_spec in Hscan as (Hle & Hocc & Hfree & _).
  eexists. simpl. repeat (split; [done|]). done.
Qed.

Lemma cell_anchor_free_witness :
  tag_in (el "td" [("colspan", "2")] None []) ["td"; "th"] = true /\
  occupied (grid_at first_column_taken (table_grid in_row)) (0, 0) = true /\
  occupied (grid_at first_column_taken (table_grid in_row)) (0, 1) = false /\
  exists r, enter_tabular in_row (el "td" [("colspan", "2")] None []) 0 first_column_taken
            = Ok r /\
  exists c, cell r.1.2 = Some c /\ (row_start c, col_start c) = (0, 1).
Proof.
  split; [reflexivity|]. split; [reflexivity|]. split; [reflexivity|].
  assert (is_ok (enter_tabular in_row (el "td" [("colspan", "2")] None []) 0
                              first_column_taken) = true) as Hok
      by (vm_compute; reflexivity).
  destruct (enter_tabular in_row (el "td" [("colspan", "2")] None []) 0 first_column_taken)
    as [[[i s] h]| |] eqn:E; [|discriminate Hok..].
  exists (i, s, h). split; [reflexivity|].
  destruct (cell_anchor_free in_row (el "td" [("colspan", "2")] None []) 0
                             first_column_taken i s h eq_refl E)
    as (c & Hc & _ & Hrow & Hle & Hocc & Hfree).
  exists c. split; [exact Hc|].
  change (row_idx in_row) with 0 in Hrow. change (col_idx in_row) with 0 in Hle, Hocc.
  rewrite Hrow in Hocc, Hfree.
  assert (col_start c = 1) as Hcol.
  { destruct (Z.lt_trichotomy (col_start c) 1) as [Hlt|[Heq|Hgt]]; [|exact Heq|].
    - assert (col_start c = 0) as H0 by lia. rewrite H0 in Hfree.
      vm_compute in Hfree. discriminate Hfree.
    - specialize (Hocc 1 ltac:(lia)). vm_compute in Hocc. discriminate Hocc. }
  by rewrite Hrow, Hcol.
Defined.

(** ** One unit *)

Lemma advance_spec rest : forall target idx pos idx' pos' err,
  advance rest target idx pos = (idx', pos', err) ->
  (idx <= idx')%nat /\
  pos' = (if decide (idx' = idx) then pos else 0) /\
  (err = None -> (idx' < idx + length rest)%nat).
Proof.
  induction rest as [|e rest IH]; intros target idx pos idx' pos' err; simpl.
  - intros [= <- <- <-]. split; [lia|]. split; [|done]. by rewrite decide_True.
  - destruct (target >? e).
    + intros H. apply IH in H as (Hle & Hpos & Herr). split; [lia|]. split.
      * rewrite decide_False by lia. rewrite Hpos. by destruct (decide _).
      * intros He. specialize (Herr He). lia.
    + intros [= <- <- <-]. split; [lia|]. split; [by rewrite decide_True|]. lia.
Qed.

Lemma apply_tabular_ok parts parent pos p :
  apply_tabular parts parent pos = Ok p ->
  parent <> IsNone /\ p_position p = Some pos /\
  p_phrase_num p = p_phrase_num parts /\ p_stable_id p = p_stable_id parts.
Proof.
  destruct parent; simpl; intros H; inversion H; subst; simpl;
    repeat split; congruence.
Qed.

Lemma process_unit_ok cfg document block_char_end parents parsed c parts c' o :
  process_unit cfg document block_char_end parents parsed c parts = (c', o) ->
  unit_ok cfg document parents c o c'.
Proof.
  unfold process_unit.
  destruct (split_stable_id (stable_id parts)) as [[[? ?] ?] char_end].
  destruct (advance _ _ _ _) as [[idx pos] err] eqn:Hadv.
  apply advance_spec in Hadv as (Hle & Hpos & _).
  destruct err as [e|].
  { intros [= <- <-]. split; [done|]. simpl. split; [done|]. done. }
  destruct (tabular cfg) eqn:Htab.
  - destruct (parents !! idx) as [parent|] eqn:Hpar.
    + destruct (apply_tabular _ parent pos) as [p| |] eqn:Happ.
      * intros [= <- <-]. apply apply_tabular_ok in Happ as (Hne & Hp & Hn & Hid).
        split; [done|]. simpl in *. unfold position_at; simpl.
        repeat (split; [first [done | lia | by rewrite Hpos]|]).
        intros _. split; [by rewrite Hp, Hpos|]. eauto.
      * intros [= <- <-]. split; [done|]. simpl. by split.
      * intros [= <- <-]. split; [done|]. simpl. by split.
    + intros [= <- <-]. split; [done|]. simpl. by split.
  - intros [= <- <-]. split; [done|]. simpl. unfold position_at; simpl.
    repeat (split; [first [done | lia | by rewrite Hpos]|]). congruence.
Qed.

(** ** The two loops follow the step relation *)

Section Loops.
Context (cfg : Config) (pdb : Debugger) (document : Document).
Context (block_char_end : list Z) (parents : list Context).

Local Abbreviation steps := (steps cfg document parents).

Lemma steps_app c l1 c1 l2 c2 :
  steps c l1 c1 -> steps c1 l2 c2 -> steps c (l1 ++ l2) c2.
Proof.
  induction 1 as [c|c b p c1 l c2' Hu Hs IH|c e c1 l c2' Hu Hs IH]; intros H2.
  - done.
  - simpl. eapply steps_yield; eauto.
  - eapply steps_caught; eauto.
Qed.

Lemma run_units_steps parsed units : forall c n l c' n' stop,
  run_units cfg pdb document block_char_end parents parsed units c n
    = (l, c', n', stop) ->
  steps c l c'.
Proof.
  induction units as [|u units IH]; intros c n l c' n' stop; simpl.
  - intros [= <- <- <- <-]. constructor.
  - destruct (process_unit _ _ _ _ _ _ _) as [c1 [b p|e]] eqn:Hu;
      apply process_unit_ok in Hu.
    + destruct (run_units _ _ _ _ _ _ _ _ _) as [[[l1 c2] n2] stop2] eqn:Hr.
      intros [= <- <- <- <-]. eapply steps_yield; eauto.
    + destruct (pdb n).
      * intros Hr. eapply steps_caught; eauto.
      * intros [= <- <- <- <-]. eapply steps_caught; [eauto|constructor].
Qed.

Lemma run_batches_steps lp contents fuel : forall parsed c n,
  exists c',
    steps c (emitted (run_batches fuel cfg lp pdb document contents
                                  block_char_end parents parsed c n)) c'.
Proof.
  induction fuel as [|fuel IH]; intros parsed c n; simpl.
  - eexists; constructor.
  - destruct (parsed <? len contents); [|eexists; constructor].
    destruct (lp document _) as [units raised].
    destruct (run_units _ _ _ _ _ _ _ _ _) as [[[l c1] n1] stop] eqn:Hr.
    apply run_units_steps in Hr.
    destruct stop as [e|]; [by eexists|].
    destruct raised as [e|]; [by eexists|]. simpl.
    destruct (IH (batch_end cfg contents parsed) c1 n1) as [c2 H2].
    exists c2. by eapply steps_app.
Qed.

(** The [while] loop makes progress: a batch is at least three
    characters long. *)
Lemma rfind_from_ge s sub : forall i j, rfind_from s sub i = Some j -> i <= j.
Proof.
  induction s as [|a s IH]; intros i j; cbn [rfind_from].
  - destruct (String.prefix sub ""); intros ?; simplify_eq; lia.
  - destruct (rfind_from s sub (i + 1)) as [j'|] eqn:E.
    + intros [= <-]. apply IH in E. lia.
    + destruct (String.prefix sub (String a s)); intros ?; simplify_eq; lia.
Qed.

Lemma rfind_ge s sub : -1 <= rfind s sub.
Proof.
  unfold rfind. destruct (rfind_from s sub 0) as [j|] eqn:E; [|lia].
  apply rfind_from_ge in E. lia.
Qed.

Lemma batch_end_progress contents parsed :
  parsed + 3 <= batch_end cfg contents parsed.
Proof.
  unfold batch_end.
  pose proof (rfind_ge (slice contents parsed (parsed + batch_size cfg)) delim).
  change (len delim) with 4. lia.
Qed.

(** The budget [parse_structure] gives the [while] loop is enough. *)
Lemma run_batches_fuel lp contents fuel : forall parsed c n,
  (Z.to_nat (len contents - parsed) < fuel)%nat ->
  outcome (run_batches fuel cfg lp pdb document contents
                       block_char_end parents parsed c n) <> OutOfFuel.
Proof.
  induction fuel as [|fuel IH]; intros parsed c n Hf; [lia|]. simpl.
  destruct (Z.ltb_spec parsed (len contents)) as [Hlt|Hge]; [|done].
  destruct (lp document _) as [units raised].
  destruct (run_units _ _ _ _ _ _ _ _ _) as [[[l c1] n1] stop].
  destruct stop as [e|]; [done|]. destruct raised as [e|]; [done|]. simpl.
  apply IH. pose proof (batch_end_progress contents parsed). lia.
Qed.

(** The first text handed to the annotator. *)
Lemma run_batches_first_call lp contents fuel parsed c n :
  parsed < len contents ->
  exists rest,
    calls (run_batches (S fuel) cfg lp pdb document contents
                       block_char_end parents parsed c n)
    = slice contents parsed (batch_end cfg contents parsed) :: rest.
Proof.
  intros Hlt. simpl. rewrite (proj2 (Z.ltb_lt _ _) Hlt).
  destruct (lp document _) as [units raised].
  destruct (run_units _ _ _ _ _ _ _ _ _) as [[[l c1] n1] stop].
  destruct stop as [e|]; [by eexists|]. destruct raised as [e|]; by eexists.
Qed.

End Loops.

(** ** What the step relation preserves *)

Section Steps.
Context (cfg : Config) (document : Document) (parents : list Context).

Local Abbreviation steps := (steps cfg document parents).

(** The block pointer only moves forward, and every phrase is built
    from a block between the pointer's first and last value. *)
Lemma steps_bounds c l c' :
  steps c l c' ->
  (parent_idx c <= parent_idx c')%nat /\
  Forall (fun x => parent_idx c <= x.1 <= parent_idx c')%nat l.
Proof.
  induction 1 as [c|c b p c1 l c2 Hu Hs [IH1 IH2]|c e c1 l c2 Hu Hs [IH1 IH2]].
  - split; [lia|constructor].
  - destruct Hu as (Hle & -> & _). split; [lia|]. constructor; [simpl; lia|].
    eapply Forall_impl; [exact IH2|]. simpl. intros; lia.
  - destruct Hu as (Hle & _). split; [lia|].
    eapply Forall_impl; [exact IH2|]. simpl. intros; lia.
Qed.

Lemma steps_sorted c l c' :
  steps c l c' -> StronglySorted le (map fst l).
Proof.
  induction 1 as [c|c b p c1 l c2 Hu Hs IH|c e c1 l c2 Hu Hs IH]; simpl.
  - constructor.
  - constructor; [done|]. destruct Hu as (_ & -> & _).
    apply steps_bounds in Hs as [_ Hb]. apply Forall_map.
    eapply Forall_impl; [exact Hb|]. simpl. intros; lia.
  - done.
Qed.

(** Phrase numbers and identifiers count up from the cursor's. *)
Lemma steps_ids c l c' :
  steps c l c' ->
  phrase_num c' = phrase_num c + Z.of_nat (length l) /\
  map (fun x => (p_phrase_num x.2, p_stable_id x.2)) l =
  map (fun i => (phrase_num c + Z.of_nat i,
                 phrase_id document (phrase_num c + Z.of_nat i)))
      (seq 0 (length l)).
Proof.
  induction 1 as [c|c b p c1 l c2 Hu Hs [IH1 IH2]|c e c1 l c2 Hu Hs [IH1 IH2]].
  - simpl. split; [lia|done].
  - destruct Hu as (_ & _ & Hn & _ & Hp & Hid & _). split.
    + rewrite IH1, Hn. simpl length. lia.
    + cbn [map length seq snd]. rewrite Hp, Hid, Z.add_0_r. f_equal.
      rewrite IH2, <- seq_shift, map_map. apply map_ext. intros i.
      rewrite Hn.
      by replace (phrase_num c + 1 + Z.of_nat i)
        with (phrase_num c + Z.of_nat (S i)) by lia.
  - destruct Hu as (_ & Hn & _). rewrite Hn in IH1, IH2. done.
Qed.


End Steps.

(** ** Positions inside one block *)

Lemma positions_from_S a k :
  positions_from a (S k) = Some a :: positions_from (a + 1) k.
Proof.
  unfold positions_from. cbn [seq map]. rewrite Z.add_0_r. f_equal.
  rewrite <- seq_shift, map_map. apply map_ext. intros i. f_equal. lia.
Qed.

Lemma filter_block_nil (b : nat) (l : list (nat * Phrase)) :
  Forall (fun x => x.1 <> b) l -> filter (fun x => x.1 = b) l = [].
Proof.
  induction 1 as [|x l Hx Hl IH]; [done|]. by rewrite filter_cons_False.
Qed.

Section Positions.
Context (cfg : Config) (document : Document) (parents : list Context).
Hypothesis Htab : tabular cfg = true.

Lemma steps_positions c l c' :
  steps cfg document parents c l c' ->
  forall b,
    block_positions b l =
    positions_from (if decide (b = parent_idx c) then position c else 0)
                   (length (filter (fun x => x.1 = b) l)).
Proof.
  induction 1 as [c|c b p c1 l c2 Hu Hs IH|c e c1 l c2 Hu Hs IH]; intros b0.
  - done.
  - pose proof (steps_bounds _ _ _ _ _ _ Hs) as [_ Hb].
    destruct Hu as (Hle & -> & _ & Hpos & _ & _ & Hp).
    destruct (Hp Htab) as [Hp' _]. unfold position_at in *.
    unfold block_positions in *.
    destruct (decide (parent_idx c1 = b0)) as [<-|Hne].
    + rewrite filter_cons_True by done. cbn [map length snd].
      rewrite positions_from_S, IH, Hp'.
      rewrite (decide_True (P := parent_idx c1 = parent_idx c1)) by done.
      by rewrite Hpos.
    + rewrite filter_cons_False by done. rewrite IH.
      rewrite (decide_False (P := b0 = parent_idx c1)) by done.
      destruct (decide (b0 = parent_idx c)) as [->|]; [|done].
      rewrite filter_block_nil; [done|].
      eapply Forall_impl; [exact Hb|]. simpl. intros; lia.
  - pose proof (steps_bounds _ _ _ _ _ _ Hs) as [_ Hb].
    destruct Hu as (Hle & _ & Hpos). unfold position_at in *.
    rewrite IH. destruct (decide (b0 = parent_idx c1)) as [->|Hne].
    + rewrite Hpos. by destruct (decide (parent_idx c1 = parent_idx c)).
    + destruct (decide (b0 = parent_idx c)) as [->|]; [|done].
      rewrite filter_block_nil; [done|].
      eapply Forall_impl; [exact Hb|]. simpl. intros; lia.
Qed.

End Positions.

(** ** Phrase identifiers *)

Lemma append_eq_length s1 : forall s2 t1 t2,
  s1 +:+ t1 = s2 +:+ t2 -> String.length s1 = String.length s2 -> s1 = s2.
Proof.
  induction s1 as [|a s1 IH]; intros [|b s2] t1 t2; simpl; try done.
  intros [= -> H] [= Hl]. f_equal. eauto.
Qed.

Lemma length_append s1 s2 :
  String.length (s1 +:+ s2) = (String.length s1 + String.length s2)%nat.
Proof. induction s1 as [|a s1 IH]; simpl; [done|]. by rewrite IH. Qed.

Lemma phrase_id_inj document : Inj (=) (=) (phrase_id document).
Proof.
  intros n m. unfold phrase_id, fmt4. intros H.
  do 4 apply (inj (String.append _)) in H.
  apply (inj (pretty : Z -> string)).
  apply (append_eq_length _ _ _ _ H).
  apply (f_equal String.length) in H. rewrite !length_append in H. lia.
Qed.

(** ** From the loops to [parse_structure] *)

Lemma parse_structure_steps cfg corenlp pdb document root h :
  match walk cfg document root h with
  | Ok w =>
      exists c', steps cfg document (parents w) start
                       (emitted (parse_structure cfg corenlp pdb document root h)) c'
  | _ => emitted (parse_structure cfg corenlp pdb document root h) = []
  end.
Proof.
  unfold parse_structure. destruct (walk cfg document root h) as [w| |]; [|done..].
  apply run_batches_steps.
Qed.

Lemma parse_structure_steps_any cfg corenlp pdb document root h :
  exists parents c',
    steps cfg document parents start
          (emitted (parse_structure cfg corenlp pdb document root h)) c'.
Proof.
  pose proof (parse_structure_steps cfg corenlp pdb document root h) as H.
  destruct (walk cfg document root h) as [w| |].
  - destruct H as [c' H]. eauto.
  - rewrite H. exists [], start. constructor.
  - rewrite H. exists [], start. constructor.
Qed.

(** ** The budgets of the walk are enough *)

Lemma bind_fuel {A B} (m : result A) (k : A -> result B) :
  m <> OutOfFuel -> (forall a, k a <> OutOfFuel) -> m ≫= k <> OutOfFuel.
Proof. destruct m; simpl; intros; eauto. Qed.

Lemma int_fuel s : int s <> OutOfFuel.
Proof. unfold int. by case_match. Qed.

Lemma span_end_fuel node k start : span_end node k start <> OutOfFuel.
Proof.
  unfold span_end. destruct (get _ _); [|done].
  apply bind_fuel; [apply int_fuel|done].
Qed.

Lemma enter_tabular_fuel self node table_idx h :
  enter_tabular self node table_idx h <> OutOfFuel.
Proof.
  unfold enter_tabular.
  destruct (tag_is node "table"); [done|]. destruct (tag_is node "tr"); [done|].
  destruct (tag_in node ["td"; "th"]); [|done].
  destruct (scan_total (grid_at h (table_grid self)) (row_idx self) (col_idx self))
    as [[col g] ->].
  apply bind_fuel; [apply span_end_fuel|].
  intros row_end. apply bind_fuel; [apply span_end_fuel|].
  intros col_end. destruct (cell_position self); [|done]. by destruct (table self).
Qed.

Lemma exit_tabular_fuel self node : exit_tabular self node <> OutOfFuel.
Proof.
  unfold exit_tabular. repeat (case_match; try done).
Qed.

Lemma emit_fuel cfg ti field w : emit cfg ti field w <> OutOfFuel.
Proof. unfold emit. repeat (case_match; try done). Qed.

Lemma forest_height_cons c cs :
  forest_height (c :: cs) = Nat.max (height c) (forest_height cs).
Proof. reflexivity. Qed.

Lemma height_children e : height e = S (forest_height (children e)).
Proof.
  destruct e. reflexivity.
Qed.

Lemma height_with_tail e pending : height (with_tail e pending) = height e.
Proof.
  destruct pending; [|done]. by rewrite (height_children e), height_children.
Qed.

Lemma flatten_children_height cfg cs :
  (forest_height (flatten_children cfg cs).2 <= forest_height cs)%nat.
Proof.
  induction cs as [|c cs IH]; [done|]. cbn [flatten_children].
  destruct (flatten_children cfg cs) as [pending rest]. cbn [snd] in IH.
  rewrite forest_height_cons.
  destruct (tag_in _ _); cbn [snd].
  - lia.
  - rewrite forest_height_cons, height_with_tail. lia.
Qed.

Lemma flatten_height cfg node :
  (forest_height (children (flatten cfg node)) <= forest_height (children node))%nat.
Proof.
  unfold flatten. pose proof (flatten_children_height cfg (children node)) as H.
  by destruct (flatten_children cfg (children node)).
Qed.

Lemma parse_children_fuel rec cs : forall ti w,
  (forall c ti w, c ∈ cs -> rec c ti w <> OutOfFuel) ->
  parse_children rec cs ti w <> OutOfFuel.
Proof.
  induction cs as [|c cs IH]; intros ti w Hrec; [done|]. cbn [parse_children].
  assert (forall ti w, parse_children rec cs ti w <> OutOfFuel) as Hcs.
  { intros. apply IH. intros. apply Hrec. by right. }
  destruct (tag_is c "table").
  - destruct ti as [ti|]; [|done].
    apply bind_fuel; [apply Hrec; by left|]. by intros [? ?].
  - apply bind_fuel; [apply Hrec; by left|]. by intros [? ?].
Qed.

Lemma forest_height_elem c cs : c ∈ cs -> (height c <= forest_height cs)%nat.
Proof.
  induction 1 as [c cs|c c' cs _ IH]; rewrite forest_height_cons; lia.
Qed.

(** [parse_node] never runs out of budget when given the height of the
    tree. *)
Lemma parse_node_fuel cfg fuel : forall node ti w,
  (height node <= fuel)%nat -> parse_node cfg fuel node ti w <> OutOfFuel.
Proof.
  induction fuel as [|fuel IH]; intros node ti w Hh.
  { rewrite height_children in Hh. lia. }
  cbn [parse_node]. destruct (tag node) as [t|]; [|done].
  destruct (match blacklist cfg with [] => false | _ => _ end); [done|].
  rewrite height_children in Hh.
  set (node' := match self_flatten cfg with [] => node | _ => flatten cfg node end).
  assert (forest_height (children node') <= fuel)%nat as Hn.
  { unfold node'. destruct (self_flatten cfg); [lia|].
    pose proof (flatten_height cfg node). lia. }
  apply bind_fuel.
  { destruct (tabular cfg); [|done]. destruct ti as [ti|]; [|done].
    apply bind_fuel; [apply enter_tabular_fuel|]. by intros [[? ?] ?]. }
  intros [ti' w']. apply bind_fuel; [apply emit_fuel|]. intros w1.
  apply bind_fuel; [apply emit_fuel|]. intros w2.
  apply bind_fuel.
  { apply parse_children_fuel. intros c ti0 w0 Hc. apply IH.
    apply forest_height_elem in Hc. lia. }
  intros [ti3 w3]. destruct (tabular cfg); [|done]. destruct ti3 as [ti3|]; [|done].
  apply bind_fuel; [apply exit_tabular_fuel|]. done.
Qed.

(** [parse_structure] always comes to an end within the budgets of the
    model: its outcome is a normal end or an exception. *)
Lemma parse_structure_returns cfg corenlp pdb document root h :
  outcome (parse_structure cfg corenlp pdb document root h) <> OutOfFuel.
Proof.
  unfold parse_structure.
  destruct (walk cfg document root h) as [w| |] eqn:Hw; [|done|].
  - apply run_batches_fuel. unfold len. lia.
  - exfalso. revert Hw. unfold walk.
    apply bind_fuel; [by apply parse_node_fuel|]. by intros [? ?].
Qed.

(** ** The claims on the reconciliation loop *)

(** C6. The block pointer never moves backward: processing a unit leaves
    [parent_idx] where it was or further on, and along a whole document
    the block indices the yielded phrases were built from are in
    non-decreasing order. *)
Theorem block_pointer_monotone :
  (forall cfg document block_char_end parents parsed c parts,
      (parent_idx c <=
       parent_idx (process_unit cfg document block_char_end parents parsed c parts).1)%nat) /\
  (forall cfg corenlp pdb document root h,
      StronglySorted le
        (map fst (emitted (parse_structure cfg corenlp pdb document root h)))).
Proof.
  split.
  - intros cfg document block_char_end parents parsed c parts.
    destruct (process_unit _ _ _ _ _ _ _) as [c' o] eqn:E.
    apply process_unit_ok in E as [Hle _]. done.
  - intros cfg corenlp pdb document root h.
    destruct (parse_structure_steps_any cfg corenlp pdb document root h)
      as (parents & c' & H).
    by eapply steps_sorted.
Qed.

Lemma phrase_id_format document n :
  phrase_id document n = name document +:+ "::phrase:" +:+ str n +:+ ":" +:+ str n.
Proof. reflexivity. Qed.

(** C7. The [n]-th phrase yielded for a document, counting from 0, has
    [phrase_num = n] and the identifier ["<name>::phrase:<n>:<n>"]; the
    identifiers of one run are pairwise distinct. They depend on the
    document's name and on [n] alone, so a second run on the same input
    gives the same ones. *)
Theorem phrase_stable_ids cfg corenlp pdb document root h :
  let ps := map snd (emitted (parse_structure cfg corenlp pdb document root h)) in
  map p_phrase_num ps = map Z.of_nat (seq 0 (length ps)) /\
  map p_stable_id ps =
    map (fun n => name document +:+ "::phrase:" +:+ str (Z.of_nat n)
                       +:+ ":" +:+ str (Z.of_nat n))
        (seq 0 (length ps)) /\
  NoDup (map p_stable_id ps).
Proof.
  intros ps.
  destruct (parse_structure_steps_any cfg corenlp pdb document root h)
    as (parents & c' & H).
  apply steps_ids in H as [_ H]. simpl in H.
  assert (length ps = length (emitted (parse_structure cfg corenlp pdb document root h)))
    as Hlen by apply length_map.
  assert (map p_phrase_num ps = map Z.of_nat (seq 0 (length ps))) as H1.
  { unfold ps at 1. rewrite map_map, Hlen.
    apply (f_equal (map fst)) in H. rewrite !map_map in H. exact H. }
  assert (map p_stable_id ps =
          map (fun n => phrase_id document (Z.of_nat n)) (seq 0 (length ps))) as H2.
  { unfold ps at 1. rewrite map_map, Hlen.
    apply (f_equal (map snd)) in H. rewrite !map_map in H. exact H. }
  split; [exact H1|]. split; [exact H2|].
  rewrite H2. apply NoDup_fmap_2; [|apply NoDup_seq].
  intros n m Hnm. apply phrase_id_inj in Hnm. lia.
Qed.

(** C4, counterexample. Two paragraphs directly under the document give
    two blocks with the same parent; the pointer moves to the second
    block for the second sentence and [position] starts again from 0. *)
Lemma positions_repeat :
  exists p1 p2,
    emitted (parse_structure config two_sentences (fun _ => Continue) doc
                             two_paragraphs initial_heap)
      = [(0%nat, p1); (1%nat, p2)] /\
    parent_of p1 = IsDocument doc /\ parent_of p2 = IsDocument doc /\
    p_position p1 = Some 0 /\ p_position p2 = Some 0.
Proof. eexists _, _. split; [vm_compute; reflexivity|]. by vm_compute. Qed.

(** C4, amended. The positions of the phrases built from one block are
    0, 1, ..., k-1 in the order of emission. *)
Theorem positions_per_block cfg corenlp pdb document root h b :
  tabular cfg = true ->
  block_positions b (emitted (parse_structure cfg corenlp pdb document root h)) =
  positions_from 0
    (length (filter (fun x => x.1 = b)
                    (emitted (parse_structure cfg corenlp pdb document root h)))).
Proof.
  intros Htab.
  destruct (parse_structure_steps_any cfg corenlp pdb document root h)
    as (parents & c' & H).
  rewrite (steps_positions _ _ _ Htab _ _ _ H b). simpl.
  by destruct (decide (b = 0%nat)).
Qed.

Lemma positions_per_block_witness :
  tabular config = true /\
  block_positions 1 (emitted (parse_structure config two_sentences (fun _ => Continue)
                                              doc two_paragraphs initial_heap)) =
  positions_from 0
    (length (filter (fun x => x.1 = 1%nat)
                    (emitted (parse_structure config two_sentences (fun _ => Continue)
                                              doc two_paragraphs initial_heap)))).
Proof.
  split; [reflexivity|].
  apply (positions_per_block config two_sentences (fun _ => Continue) doc
                             two_paragraphs initial_heap 1%nat).
  reflexivity.
Defined.

(** ** Where a batch ends when the window holds a delimiter *)

Lemma substring_window m : forall c n w sub,
  String.substring n m (String.substring 0 w c) = sub ->
  String.length sub = m ->
  String.substring n m c = sub.
Proof.
  induction m as [|m IHm].
  - intros c n w sub H Hl. destruct sub; [|done]. clear.
    revert n. induction c as [|a c IH]; intros [|n]; simpl; auto.
  - intros c. induction c as [|a c IHc]; intros n w sub H Hl.
    + destruct w, n; simpl in *; by subst.
    + destruct w as [|w].
      * simpl in H. destruct n; simpl in H; subst; done.
      * destruct n as [|n].
        -- simpl in *. destruct sub as [|b sub]; [done|].
           injection H as -> H. f_equal. apply (IHm c 0%nat w); [done|].
           simpl in Hl. lia.
        -- simpl in *. by apply (IHc n w).
Qed.

Lemma substring_empty n m : String.substring n m "" = "".
Proof. by destruct n, m. Qed.

Lemma substring_window_at m p : forall c n w sub,
  String.substring n m (String.substring p w c) = sub ->
  String.length sub = m ->
  String.substring (p + n) m c = sub.
Proof.
  induction p as [|p IH]; intros c n w sub H Hl.
  - by apply (substring_window m c n w).
  - destruct c as [|a c].
    + rewrite !substring_empty in *. done.
    + simpl in *. by apply (IH c n w).
Qed.

Lemma rfind_from_found s sub : forall i j,
  rfind_from s sub i = Some j ->
  String.substring (Z.to_nat (j - i)) (String.length sub) s = sub.
Proof.
  induction s as [|a s IH]; intros i j; cbn [rfind_from].
  - destruct (String.prefix sub "") eqn:Hp; [|done]. intros [= <-].
    rewrite Z.sub_diag. by apply prefix_correct.
  - destruct (rfind_from s sub (i + 1)) as [j'|] eqn:E.
    + intros [= <-]. pose proof (rfind_from_ge _ _ _ _ E).
      replace (Z.to_nat (j' - i)) with (S (Z.to_nat (j' - (i + 1)))) by lia.
      simpl. by apply IH.
    + destruct (String.prefix sub (String a s)) eqn:Hp; [|done]. intros [= <-].
      rewrite Z.sub_diag. by apply prefix_correct.
Qed.

(** When the window [contents[parsed:parsed + batch_size]] holds a whole
    delimiter, the batch ends right after a delimiter of the buffer. *)
Lemma batch_end_after_delimiter cfg contents parsed :
  0 <= parsed ->
  0 <= rfind (slice contents parsed (parsed + batch_size cfg)) delim ->
  slice contents (batch_end cfg contents parsed - len delim)
        (batch_end cfg contents parsed) = delim.
Proof.
  intros Hp Hr. unfold batch_end.
  set (window := slice contents parsed (parsed + batch_size cfg)) in *.
  unfold rfind in *.
  destruct (rfind_from window delim 0) as [j|] eqn:E; [|lia].
  apply rfind_from_found in E. rewrite Z.sub_0_r in E.
  unfold window, slice in E.
  apply substring_window_at in E; [|done].
  unfold slice. change (len delim) with 4. change (String.length delim) with 4%nat in E.
  replace (Z.to_nat (parsed + j + 4 - 4)) with (Z.to_nat parsed + Z.to_nat j)%nat by lia.
  replace (Z.to_nat (parsed + j + 4 - (parsed + j + 4 - 4))) with 4%nat by lia.
  exact E.
Qed.

(** ** Batches *)

(** C2, at the failing input. A paragraph of 7001 letters is one block of
    7005 characters with its delimiter. The first 7000 characters hold no
    delimiter, [rfind] answers -1, and the first batch ends at offset 3:
    the annotator is handed ["aaa"], a piece of the block. *)
Theorem oversized_block_is_split corenlp pdb h :
  walk config doc long_paragraph h =
    Ok {| contents := letters +:+ delim; block_lengths := [7005];
          parents := [IsDocument doc]; table_idx := -1; heap := h |} /\
  rfind (slice (letters +:+ delim) 0 (0 + batch_size config)) delim = -1 /\
  batch_end config (letters +:+ delim) 0 = 3 /\
  exists rest,
    calls (parse_structure config corenlp pdb doc long_paragraph h) = "aaa" :: rest.
Proof.
  assert (walk config doc long_paragraph h =
          Ok {| contents := letters +:+ delim; block_lengths := [7005];
                parents := [IsDocument doc]; table_idx := -1; heap := h |}) as Hw.
  { vm_compute. reflexivity. }
  split; [exact Hw|]. split; [by vm_compute|]. split; [by vm_compute|].
  unfold parse_structure. rewrite Hw.
  destruct (run_batches_first_call config pdb doc (cumsum [7005]) [IsDocument doc]
              (lingual_parse config corenlp) (letters +:+ delim)
              (String.length (letters +:+ delim)) 0 start 0)
    as [rest Hrest]; [by vm_compute|].
  exists rest. etransitivity; [exact Hrest|].
  apply (f_equal (fun x => x :: rest)). by vm_compute.
Qed.

(** ** Nested tables *)

(** C3, at the failing input. Every [TableInfo] is built with the same
    grid object. When the walk reaches the table nested in [outer_cell],
    the outer grid marks (0,0) and (1,0); on return the outer instance is
    as it was, row and column cursors included, but its grid has been
    cleared and holds the mark of the inner cell only. The cell of the
    second outer row is therefore put at column 0, on top of the cell
    that spans both rows. *)
Theorem nested_table_clears_outer_grid :
  (forall d p d' p', table_grid (TableInfo_init d p) = table_grid (TableInfo_init d' p')) /\
  (exists i s h w',
      at_outer_cell = Ok (i, s, h) /\
      (row_idx s, col_idx s) = (0, 0) /\
      occupied (grid_at h (table_grid s)) (0, 0) = true /\
      occupied (grid_at h (table_grid s)) (1, 0) = true /\
      parse_children (parse_node config 3) [inner_table] (Some s)
                     {| contents := ""; block_lengths := []; parents := [];
                        table_idx := i; heap := h |} = Ok (Some s, w') /\
      grid_at (heap w') (table_grid s) = list_to_map [((0, 0), 1)] /\
      occupied (grid_at (heap w') (table_grid s)) (1, 0) = false) /\
  (exists w a b c,
      walk config doc nested initial_heap = Ok w /\
      cells (heap w) = [a; b; c] /\
      c_table a = c_table c /\ c_table a <> c_table b /\
      (row_start a, row_end a, col_start a, col_end a) = (0, 1, 0, 0) /\
      (row_start c, row_end c, col_start c, col_end c) = (1, 1, 0, 0)).
Proof.
  split; [done|]. split.
  - eexists _, _, _, _. split; [vm_compute; reflexivity|].
    split; [by vm_compute|]. split; [by vm_compute|]. split; [by vm_compute|].
    split; [vm_compute; reflexivity|]. split; by vm_compute.
  - eexists _, _, _, _. split; [vm_compute; reflexivity|].
    split; [reflexivity|]. split; [by vm_compute|]. split; [by vm_compute|].
    split; by vm_compute.
Qed.

(** ** Flattening *)

Lemma append_nonempty s t : t <> "" -> s +:+ t <> "".
Proof. by destruct s. Qed.

Lemma rstrip_append s : forall t,
  rstrip t = t -> t <> "" -> rstrip (s +:+ t) = s +:+ t.
Proof.
  induction s as [|a s IH]; intros t Ht Hne; [done|].
  change (String a s +:+ t) with (String a (s +:+ t)). cbn [rstrip].
  rewrite (IH t Ht Hne).
  pose proof (append_nonempty s t Hne). by destruct (s +:+ t).
Qed.

Lemma strip_hello d :
  Py.strip ("Hello" +:+ d +:+ "there" +:+ d +:+ "!") =
  "Hello" +:+ d +:+ "there" +:+ d +:+ "!".
Proof.
  unfold Py.strip.
  change (lstrip ("Hello" +:+ d +:+ "there" +:+ d +:+ "!"))
    with ("Hello" +:+ d +:+ "there" +:+ d +:+ "!").
  assert (rstrip (d +:+ "!") = d +:+ "!" /\ d +:+ "!" <> "") as [H1 H1'].
  { split; [by apply rstrip_append|by apply append_nonempty]. }
  assert (rstrip ("there" +:+ d +:+ "!") = "there" +:+ d +:+ "!" /\
          "there" +:+ d +:+ "!" <> "") as [H2 H2'].
  { split; [by apply rstrip_append|done]. }
  assert (rstrip (d +:+ "there" +:+ d +:+ "!") = d +:+ "there" +:+ d +:+ "!" /\
          d +:+ "there" +:+ d +:+ "!" <> "") as [H3 H3'].
  { split; [by apply rstrip_append|by apply append_nonempty]. }
  by apply rstrip_append.
Qed.

(** C9, counterexample. With the default, empty [flatten_delim] the block
    reads ["Hellothere!"]; with a space it reads ["Hello there !"], the
    delimiter standing before every fragment. *)
Lemma hello_is_not_hello_there :
  (exists w, walk config doc hello initial_heap = Ok w /\
             contents w = "Hellothere!<NB>" /\ block_lengths w = [15]) /\
  (exists w, walk config_space doc hello initial_heap = Ok w /\
             contents w = "Hello there !<NB>" /\ block_lengths w = [17]).
Proof.
  split; (eexists; split; [vm_compute; reflexivity|]; by vm_compute).
Qed.

(** C9, amended. With [span] in the flatten set and the paragraph not
    blacklisted, [<p>Hello<span>there</span>!</p>] gives exactly one
    block. Its text is ["Hello"], the delimiter, ["there"], the delimiter
    and ["!"], passed through the replacement rules: the fragments of
    the flattened child, each preceded by [flatten_delim], appended to
    the text of the paragraph. For no delimiter is that string
    ["Hello there!"]. *)
Theorem flatten_hello cfg document h :
  contains (self_flatten cfg) "span" = true ->
  contains (blacklist cfg) "p" = false ->
  let joined :=
    "Hello" +:+ flatten_delim cfg +:+ "there" +:+ flatten_delim cfg +:+ "!" in
  joined <> "Hello there!" /\
  exists w,
    walk cfg document hello h = Ok w /\
    contents w = foldl (fun t sub => sub t) joined (replacements cfg) +:+ "<NB>" /\
    length (block_lengths w) = 1%nat.
Proof.
  intros Hflat Hblack.
  set (d := flatten_delim cfg). cbv zeta. split.
  { intros Heq. apply (f_equal String.length) in Heq.
    rewrite !length_append in Heq. simpl in Heq. lia. }
  assert (flatten cfg hello =
          Elem (TagName "p") [] (Some ("Hello" +:+ d +:+ "there" +:+ d +:+ "!")) [] None)
    as Hf.
  { unfold flatten, hello, el. cbn [children flatten_children with_tail].
    unfold tag_in. cbn [tag]. rewrite Hflat. reflexivity. }
  assert (forall ti w,
             (tabular cfg = true -> ti <> None) ->
             exists w',
               emit cfg ti (Some ("Hello" +:+ d +:+ "there" +:+ d +:+ "!")) w = Ok w' /\
               contents w' =
                 (contents w +:+
                  foldl (fun t sub => sub t) ("Hello" +:+ d +:+ "there" +:+ d +:+ "!")
                        (replacements cfg)) +:+ "<NB>" /\
               length (block_lengths w') = S (length (block_lengths w)) /\
               table_idx w' = table_idx w /\ heap w' = heap w) as Hemit.
  { intros ti w Hti. unfold emit.
    assert ((if strip cfg then Py.strip ("Hello" +:+ d +:+ "there" +:+ d +:+ "!")
             else "Hello" +:+ d +:+ "there" +:+ d +:+ "!")
            = "Hello" +:+ d +:+ "there" +:+ d +:+ "!") as ->.
    { destruct (strip cfg); [apply strip_hello|done]. }
    cbn [nonempty String.append].
    destruct (tabular cfg).
    - destruct ti as [ti|]; [|by destruct Hti].
      eexists. split; [reflexivity|]. cbn [contents block_lengths table_idx heap].
      rewrite length_app. simpl. repeat split; lia.
    - eexists. split; [reflexivity|]. cbn [contents block_lengths table_idx heap].
      rewrite length_app. simpl. repeat split; lia. }
  unfold walk. change (height hello) with 2%nat. cbn [parse_node].
  change (tag hello) with (TagName "p"). cbv beta iota.
  assert ((match blacklist cfg with [] => false | x :: l => contains (x :: l) "p" end)
          = false) as ->.
  { destruct (blacklist cfg); [done|exact Hblack]. }
  assert (match self_flatten cfg with [] => hello | _ :: _ => flatten cfg hello end
          = flatten cfg hello) as ->.
  { by destruct (self_flatten cfg). }
  rewrite Hf. cbn [text tail children parse_children].
  destruct (tabular cfg) eqn:Htab.
  - cbn [table_idx heap contents block_lengths parents].
    assert (enter_tabular (TableInfo_init document (IsDocument document)) hello (-1) h
            = Ok (-1, TableInfo_init document (IsDocument document), h)) as ->
      by reflexivity.
    cbn [mbind result_bind Py.bind].
    destruct (Hemit (Some (TableInfo_init document (IsDocument document)))
                    {| contents := ""; block_lengths := []; parents := [];
                       table_idx := -1; heap := h |})
      as (w' & Hw' & Hc & Hl & _); [done|].
    rewrite Hw'. cbn [Py.bind emit].
    eexists. split; [reflexivity|]. split; [exact Hc|exact Hl].
  - cbn [mbind result_bind Py.bind].
    destruct (Hemit None
                    {| contents := ""; block_lengths := []; parents := [];
                       table_idx := -1; heap := h |})
      as (w' & Hw' & Hc & Hl & _); [done|].
    rewrite Hw'. cbn [Py.bind emit].
    eexists. split; [reflexivity|]. split; [exact Hc|exact Hl].
Qed.

Lemma flatten_hello_witness :
  contains (self_flatten config_dashes) "span" = true /\
  contains (blacklist config_dashes) "p" = false /\
  exists w,
    walk config_dashes doc hello initial_heap = Ok w /\
    contents w = "Hello there !<NB>".
Proof.
  repeat (split; [reflexivity|]).
  destruct (flatten_hello config_dashes doc initial_heap eq_refl eq_refl)
    as (_ & w & Hw & Hc & _).
  exists w. split; [exact Hw|exact Hc].
Defined.

(** ** snorkel: the token arrays *)

Section TokenArrays.
Import Snorkel.

Lemma getlist_append parts k x k' :
  getlist (append parts k x) k' =
  if decide (k = k') then getlist parts k ++ [x] else getlist parts k'.
Proof.
  unfold append, getlist at 1. destruct (decide (k = k')) as [->|Hne].
  - by rewrite lookup_insert_eq.
  - by rewrite lookup_insert_ne.
Qed.

Lemma getlist_append_eq parts k x :
  getlist (append parts k x) k = getlist parts k ++ [x].
Proof. rewrite getlist_append. by rewrite decide_True. Qed.

Lemma getlist_append_ne parts k x k' :
  k <> k' -> getlist (append parts k x) k' = getlist parts k'.
Proof. intros. rewrite getlist_append. by rewrite decide_False. Qed.

Lemma getlist_insert_ne parts k v k' :
  k <> k' -> getlist (<[k := v]> parts) k' = getlist parts k'.
Proof. intros Hne. unfold getlist. by rewrite lookup_insert_ne. Qed.

Lemma getlist_insert_eq parts k l :
  getlist (<[k := VList l]> parts) k = l.
Proof. unfold getlist. by rewrite lookup_insert_eq. Qed.

(** After the loop over the tokens: two words for every token, one
    entry in every other list. *)
Lemma token_step_counts st td :
  counts (token_step st td).1.1.1 =
  zip_with Nat.add (counts st.1.1.1) [2; 1; 1; 1; 1; 1]%nat.
Proof.
  destruct st as [[[parts a] b] c], td as [tok deps].
  unfold token_step, counts. cbn [fst fmap list_fmap zip_with].
  repeat first [rewrite getlist_append_eq | rewrite getlist_append_ne by done].
  rewrite !length_app. simpl. by rewrite <- Nat.add_assoc.
Qed.

Lemma token_loop_counts tds : forall st,
  counts (foldl token_step st tds).1.1.1 =
  zip_with Nat.add (counts st.1.1.1)
           ((fun m => m * length tds)%nat <$> [2; 1; 1; 1; 1; 1]%nat).
Proof.
  induction tds as [|td tds IH]; intros st; cbn [foldl].
  - unfold counts. simpl. repeat (apply (f_equal2 cons); [lia|]). done.
  - rewrite IH, token_step_counts. unfold counts. simpl.
    repeat (apply (f_equal2 cons); [lia|]). done.
Qed.

Lemma counts_empty : counts ∅ = [0; 0; 0; 0; 0; 0]%nat.
Proof. reflexivity. Qed.

Lemma relative_offsets_length z l : forall offsets,
  foldr (fun a acc => p ← atom_int a; l ← acc; Ok (AInt (p - z) :: l))
        (Ok []) l = Ok offsets ->
  length offsets = length l.
Proof.
  induction l as [|a l IH]; intros offsets; cbn [foldr].
  - by intros [= <-].
  - destruct (atom_int a) as [p| |]; [|done..]. cbn [mbind result_bind Py.bind].
    destruct (foldr _ _ l) as [l'| |]; [|done..]. cbn [Py.bind].
    intros [= <-]. simpl. f_equal. by apply IH.
Qed.

Lemma first_nonempty l a : first l = Ok a -> (0 < length l)%nat.
Proof. destruct l; [done|]. simpl. lia. Qed.

End TokenArrays.

(** C10, on the code. Every record that snorkel's [CoreNLPHandler.parse]
    yields comes from a sentence with [n >= 1] tokens, and holds [2 n]
    words against [n] lemmas, part-of-speech tags, entity tags and
    character offsets: the loop appends to [parts['words']] twice for each
    token, and its second append for the lemma goes to the key ['lemma'].
    The five lists are never of one length. *)
Theorem words_twice_per_token sort_X_on_Y document_name position block parts :
  Snorkel.parse_block sort_X_on_Y document_name position block = Ok parts ->
  let n := length (zip (Snorkel.tokens block) (Snorkel.basic_dependencies block)) in
  (0 < n)%nat /\
  length (Snorkel.getlist parts "words") = (2 * n)%nat /\
  length (Snorkel.getlist parts "lemmas") = n /\
  length (Snorkel.getlist parts "pos_tags") = n /\
  length (Snorkel.getlist parts "ner_tags") = n /\
  length (Snorkel.getlist parts "char_offsets") = n /\
  length (Snorkel.getlist parts "words") <> length (Snorkel.getlist parts "lemmas").
Proof.
  intros H n. unfold Snorkel.parse_block in H. unfold mbind, result_bind in H.
  pose proof (token_loop_counts (zip (Snorkel.tokens block) (Snorkel.basic_dependencies block))
                                (∅, [], [], [])) as Hc.
  destruct (foldl Snorkel.token_step (∅, [], [], [])
                  (zip (Snorkel.tokens block) (Snorkel.basic_dependencies block)))
    as [[[p0 dep_par] dep_lab] dep_order].
  cbn [fst] in Hc. rewrite counts_empty in Hc. fold n in Hc.
  unfold counts in Hc. cbn [fmap list_fmap zip_with] in Hc.
  injection Hc as Hw Hl Hp Hn Ho _.
  rewrite getlist_insert_ne in H by done.
  destruct (Snorkel.first _) as [a0| |] eqn:Ha0; [|done..].
  apply first_nonempty in Ha0. cbn [Py.bind] in H.
  destruct (Snorkel.atom_int a0) as [z| |]; [|done..]. cbn [Py.bind] in H.
  destruct (foldr _ (Ok []) _) as [offsets| |] eqn:Hoff; [|done..]. cbn [Py.bind] in H.
  apply relative_offsets_length in Hoff.
  destruct (Snorkel.final _) as [o| |]; [|done..]. cbn [Py.bind] in H.
  destruct (Snorkel.atom_int o) as [o'| |]; [|done..]. cbn [Py.bind] in H.
  destruct (Snorkel.final _) as [w| |]; [|done..]. cbn [Py.bind] in H.
  destruct (Snorkel.atom_len w) as [m| |]; [|done..]. cbn [Py.bind] in H.
  injection H as <-.
  assert (length (Snorkel.getlist p0 "char_offsets") = n) as Ho' by lia.
  repeat first [ rewrite getlist_insert_eq
               | rewrite getlist_insert_ne by done ].
  rewrite Hw, Hl, Hp, Hn. lia.
Qed.

Lemma words_twice_per_token_witness :
  exists parts,
    Snorkel.parse_block unsorted "doc" 0 greeting = Ok parts /\
    length (Snorkel.getlist parts "words") = 2%nat /\
    length (Snorkel.getlist parts "lemmas") = 1%nat.
Proof.
  assert (is_ok (Snorkel.parse_block unsorted "doc" 0 greeting) = true) as Hok
      by (vm_compute; reflexivity).
  destruct (Snorkel.parse_block unsorted "doc" 0 greeting) as [parts| |] eqn:E;
    [|discriminate Hok..].
  exists parts. split; [reflexivity|].
  destruct (words_twice_per_token unsorted "doc" 0 greeting parts E)
    as (_ & Hw & Hl & _).
  split; [exact Hw|exact Hl].
Defined.

(** ** Invariants of the walk *)

Lemma bind_Ok {A B} (m : result A) (k : A -> result B) r :
  m ≫= k = Ok r -> exists a, m = Ok a /\ k a = Ok r.
Proof. destruct m; simpl; [eauto|done..]. Qed.

Lemma sum_Z_app l1 l2 : sum_Z (l1 ++ l2) = sum_Z l1 + sum_Z l2.
Proof. induction l1 as [|x l1 IH]; simpl; [done|]. rewrite IH. lia. Qed.

Lemma len_append s1 s2 : len (s1 +:+ s2) = len s1 + len s2.
Proof. unfold len. rewrite length_append. lia. Qed.

Section Walk.
Context (cfg : Config) (d : Document).

Lemma extends_refl w : extends cfg d w w.
Proof.
  exists [], [], []. rewrite !app_nil_r. simpl.
  repeat split; try done; try lia. by destruct (tabular cfg).
Qed.

Lemma extends_trans w1 w2 w3 :
  extends cfg d w1 w2 -> extends cfg d w2 w3 -> extends cfg d w1 w3.
Proof.
  intros (l1 & p1 & t1 & Hb1 & Hc1 & Hd1 & Hp1 & Hl1 & Hk1 & Ht1 & Hn1 & Hdoc1 & Hi1)
         (l2 & p2 & t2 & Hb2 & Hc2 & Hd2 & Hp2 & Hl2 & Hk2 & Ht2 & Hn2 & Hdoc2 & Hi2).
  exists (l1 ++ l2), (p1 ++ p2), (t1 ++ t2).
  split; [by rewrite Hb2, Hb1, app_assoc|].
  split; [rewrite Hc2, Hc1, sum_Z_app; lia|].
  split; [by apply Forall_app|].
  split; [by rewrite Hp2, Hp1, app_assoc|].
  split.
  { destruct (tabular cfg); [rewrite !length_app; lia|by subst]. }
  split; [by apply Forall_app|].
  split; [by rewrite Ht2, Ht1, app_assoc|].
  split.
  { rewrite map_app, Hn1, Hn2, length_app, seq_app, map_app. f_equal.
    replace (seq (0 + length t1) (length t2))
      with (Nat.add (length t1) <$> seq 0 (length t2))
      by (rewrite fmap_add_seq; f_equal; lia).
    rewrite <- list_fmap_compose.
    apply map_ext. intros i. simpl. rewrite Hi1. lia. }
  split; [by apply Forall_app|].
  rewrite Hi2, Hi1, length_app. lia.
Qed.

Lemma emit_extends ti field w w' :
  (tabular cfg = true -> forall t, ti = Some t -> known_parent d (parent t)) ->
  emit cfg ti field w = Ok w' -> extends cfg d w w'.
Proof.
  intros Hti. unfold emit. destruct field as [text|]; [|intros [= <-]; apply extends_refl].
  set (text1 := if strip cfg then Py.strip text else text).
  destruct (nonempty text1); [|intros [= <-]; apply extends_refl].
  set (text2 := foldl (fun t sub => sub t) text1 (replacements cfg)).
  assert (len delim <= len text2 + len delim) as Hlen by (unfold len; lia).
  destruct (tabular cfg) eqn:Htab.
  - destruct ti as [t|]; [|done]. intros [= <-].
    exists [len text2 + len delim], [parent t], []. simpl.
    rewrite Htab, !len_append, app_nil_r. repeat split; try done; try lia.
    + by constructor.
    + constructor; [by eapply Hti|done].
  - intros [= <-]. exists [len text2 + len delim], [], []. simpl.
    rewrite Htab, !len_append, !app_nil_r. repeat split; try done; try lia.
    by constructor.
Qed.

Lemma emit_frame ti field w w' :
  emit cfg ti field w = Ok w' -> heap w' = heap w /\ table_idx w' = table_idx w.
Proof.
  unfold emit. repeat case_match; intros ?; simplify_eq; done.
Qed.

(** [enter_tabular] and [exit_tabular] on the fields the invariant reads. *)
Lemma enter_tabular_inv self node idx h idx' self' h' :
  enter_tabular self node idx h = Ok (idx', self', h') ->
  document self' = document self /\
  (exists ts,
      tables h' = tables h ++ ts /\
      map t_position ts = map (fun i => idx + 1 + Z.of_nat i) (seq 0 (length ts)) /\
      Forall (fun t => t_document t = document self /\
                       t_stable_id t =
                         fmt4 (name (document self)) "table"
                              (str (t_position t)) (str (t_position t))) ts /\
      idx' = idx + Z.of_nat (length ts)) /\
  (tag_is node "table" = true -> exists t, parent self' = IsTable t) /\
  (tag_is node "table" = false ->
     table self' = table self /\
     (parent self' = parent self \/ exists c, parent self' = IsCell c)) /\
  (tag_in node ["td"; "th"] = true -> is_Some (table self')).
Proof.
  unfold enter_tabular. destruct (tag_is node "table") eqn:Ht.
  { intros [= <- <- <-]. split; [done|]. split.
    - eexists [_]. simpl. rewrite Z.add_0_r. repeat split; try done; try lia.
      by repeat constructor.
    - split; [eauto|]. split; [done|]. simpl. eauto. }
  destruct (tag_is node "tr") eqn:Hr.
  { intros [= <- <- <-]. split; [done|]. split.
    - exists []. rewrite app_nil_r. simpl. repeat split; try done; lia.
    - split; [done|]. split; [auto|].
      intros Hc. apply tag_in_cell in Hc as [_ Hc]. congruence. }
  destruct (tag_in node ["td"; "th"]) eqn:Hc.
  - destruct (scan _ _ _ _) as [[col g]|]; [|done].
    intros H. apply bind_Ok in H as (re & _ & H). apply bind_Ok in H as (ce & _ & H).
    destruct (cell_position self) as [pos|]; [|done].
    destruct (table self) as [t|] eqn:Etab; [|done].
    injection H as <- <- <-. split; [done|]. split.
    + exists []. rewrite app_nil_r. simpl. repeat split; try done; lia.
    + split; [done|]. split; [|simpl; eauto].
      intros _. simpl. split; [done|]. eauto.
  - intros [= <- <- <-]. split; [done|]. split.
    + exists []. rewrite app_nil_r. simpl. repeat split; try done; lia.
    + split; [done|]. split; [auto|done].
Qed.

Lemma exit_tabular_inv self node self' :
  exit_tabular self node = Ok self' ->
  document self' = document self /\
  (tag_is node "table" = false ->
     table self' = table self /\
     (parent self' = parent self \/
      tag_in node ["td"; "th"] = true /\
      parent self' = match table self with Some t => IsTable t | None => IsNone end)).
Proof.
  unfold exit_tabular. destruct (tag_is node "table") eqn:Ht.
  { intros [= <-]. done. }
  destruct (tag_is node "tr"); [intros [= <-]; auto|].
  destruct (tag_in node ["td"; "th"]).
  - destruct (cell_position self); [|done]. intros [= <-]. auto.
  - intros [= <-]. auto.
Qed.

Lemma tag_flatten node : tag (flatten cfg node) = tag node.
Proof. unfold flatten. by destruct (flatten_children cfg (children node)). Qed.

Lemma parse_children_extends rec cs : forall ti w r,
  (forall c ti w r, node_pre cfg d c ti -> rec c ti w = Ok r ->
                    node_post cfg d c ti w r) ->
  (tabular cfg = true -> exists t, ti = Some t /\ settled d t) ->
  parse_children rec cs ti w = Ok r ->
  extends cfg d w r.2 /\
  (tabular cfg = true -> forall t, ti = Some t ->
     exists t', r.1 = Some t' /\ settled d t' /\ table t' = table t).
Proof.
  induction cs as [|c cs IH]; intros ti w r Hrec Hti; cbn [parse_children].
  { intros [= <-]. split; [apply extends_refl|]. intros Htab t ->.
    destruct (Hti Htab) as (t' & [= <-] & Hs). eauto. }
  destruct (tag_is c "table") eqn:Hc.
  - destruct ti as [t|]; [|done]. intros H.
    apply bind_Ok in H as ([ti1 w1] & H1 & H).
    apply Hrec in H1 as [He1 _].
    + apply IH in H as [He2 Ht2]; [|done..]. split; [by eapply extends_trans|done].
    + intros Htab t0 [= <-]. destruct (Hti Htab) as (t' & [= <-] & Hd & _). simpl. auto.
  - intros H. apply bind_Ok in H as ([ti1 w1] & H1 & H).
    apply Hrec in H1 as [He1 Ht1].
    + assert (tabular cfg = true -> exists t, ti1 = Some t /\ settled d t) as Hti1.
      { intros Htab. destruct (Hti Htab) as (t & -> & _).
        destruct (Ht1 Htab Hc t eq_refl) as (t1 & Hr1 & Hs1 & _). eauto. }
      apply IH in H as [He2 Ht2]; [|done..].
      split; [by eapply extends_trans|]. intros Htab t ->.
      destruct (Ht1 Htab Hc t eq_refl) as (t1 & Hr1 & Hs1 & Htb1). simpl in Hr1.
      destruct (Ht2 Htab t1 Hr1) as (t2 & Hr2 & Hs2 & Htb2).
      exists t2. split; [done|]. split; [done|]. congruence.
    + intros Htab t ->. destruct (Hti Htab) as (t' & [= <-] & Hd & Hk). auto.
Qed.

(** The invariant of [parse_node], by induction on the budget. *)
Lemma parse_node_extends fuel : forall node ti w r,
  node_pre cfg d node ti ->
  parse_node cfg fuel node ti w = Ok r ->
  node_post cfg d node ti w r.
Proof.
  induction fuel as [|fuel IH]; intros node ti w r Hpre; [done|].
  cbn [parse_node].
  assert (node_post cfg d node ti w (ti, w)) as Hskip.
  { split; [apply extends_refl|]. intros Htab Hnt t ->.
    destruct (Hpre Htab t eq_refl) as [Hd [Ht|Hk]]; [congruence|].
    exists t. done. }
  destruct (tag node) as [tg|] eqn:Htag; [|by intros [= <-]].
  destruct (match blacklist cfg with [] => false | _ => _ end); [by intros [= <-]|].
  set (node' := match self_flatten cfg with [] => node | _ => flatten cfg node end).
  assert (tag node' = tag node) as Htag'.
  { unfold node'. destruct (self_flatten cfg); [done|apply tag_flatten]. }
  assert (tag_is node' "table" = tag_is node "table" /\
          tag_in node' ["td"; "th"] = tag_in node ["td"; "th"]) as [Hn1 Hn2].
  { unfold tag_is, tag_in. by rewrite Htag'. }
  intros H. apply bind_Ok in H as ([ti1 w1] & Henter & H).
  apply bind_Ok in H as (w2 & Hemit1 & H). apply bind_Ok in H as (w3 & Hemit2 & H).
  apply bind_Ok in H as ([ti4 w4] & Hch & H).
  destruct (tabular cfg) eqn:Htab.
  - destruct ti as [t|]; [|done].
    destruct (Hpre Htab t eq_refl) as [Hd Hk].
    apply bind_Ok in Henter as ([[idx t1] h1] & Henter & [= <- <-]).
    apply enter_tabular_inv in Henter
      as (Hd1 & (ts & Hts & Hpos & Hdoc & Hidx) & Htbl & Hnt & Hcell).
    assert (settled d t1) as Hs1.
    { split; [congruence|]. destruct (tag_is node "table") eqn:Ht.
      - destruct (Htbl eq_refl) as [t0 ->]. done.
      - destruct Hk as [|Hk]; [done|].
        destruct (Hnt eq_refl) as [_ [->|[c ->]]]; done. }
    assert (extends cfg d w {| contents := contents w; block_lengths := block_lengths w;
                               parents := parents w; table_idx := idx; heap := h1 |})
      as He1.
    { exists [], [], ts. rewrite !app_nil_r, Htab. cbn.
      rewrite Hd in Hdoc. repeat split; try done; lia. }
    assert (tabular cfg = true -> forall t0, Some t1 = Some t0 -> known_parent d (parent t0))
      as Hk1 by (intros _ t0 [= <-]; apply Hs1).
    pose proof (emit_extends _ _ _ _ Hk1 Hemit1) as He2.
    pose proof (emit_extends _ _ _ _ Hk1 Hemit2) as He3.
    apply parse_children_extends in Hch as [He4 Ht4]; [|by apply IH|by eauto].
    destruct (Ht4 Htab t1 eq_refl) as (t4 & Hr4 & Hs4 & Htb4). simpl in Hr4, He4. subst ti4.
    apply bind_Ok in H as (t5 & Hexit & [= <-]).
    apply exit_tabular_inv in Hexit as (Hd5 & Hx).
    split.
    { simpl. eapply extends_trans; [exact He1|]. eapply extends_trans; [exact He2|].
      eapply extends_trans; [exact He3|exact He4]. }
    intros _ Hntab t0 [= <-]. simpl. exists t5. split; [done|].
    rewrite Hn1 in Hx. destruct (Hx Hntab) as [Htb5 Hp5].
    destruct (Hnt Hntab) as [Htb1 _]. split; [|congruence].
    split; [destruct Hs4; congruence|].
    destruct Hp5 as [->|[Hc ->]]; [apply Hs4|].
    rewrite Hn2 in Hc. destruct (Hcell Hc) as [tb Htb]. rewrite Htb4, Htb. done.
  - injection Henter as <- <-.
    assert (tabular cfg = true -> forall t0, ti = Some t0 -> known_parent d (parent t0))
      as Hk1 by (rewrite Htab; done).
    pose proof (emit_extends _ _ _ _ Hk1 Hemit1) as He2.
    pose proof (emit_extends _ _ _ _ Hk1 Hemit2) as He3.
    apply parse_children_extends in Hch as [He4 _];
      [|by apply IH|by rewrite Htab].
    injection H as <-. split; [|by rewrite Htab].
    simpl. eapply extends_trans; [exact He2|]. eapply extends_trans; [exact He3|exact He4].
Qed.

End Walk.
Lemma walk_extends cfg d root h w :
  walk cfg d root h = Ok w ->
  extends cfg d {| contents := ""; block_lengths := []; parents := [];
                   table_idx := -1; heap := h |} w.
Proof.
  unfold walk. intros H. apply bind_Ok in H as ([ti w'] & H & [= <-]).
  apply (parse_node_extends cfg d) in H as [He _]; [done|].
  intros Htab t. rewrite Htab. intros [= <-]. simpl. auto.
Qed.

Lemma cumsum_from_length acc l : length (cumsum_from acc l) = length l.
Proof. revert acc. induction l as [|x l IH]; intros acc; simpl; [done|]. by rewrite IH. Qed.

Lemma cumsum_from_last acc l :
  l <> [] -> last (cumsum_from acc l) = Some (acc + sum_Z l).
Proof.
  revert acc. induction l as [|x l IH]; intros acc Hne; [done|].
  destruct l as [|y l].
  - simpl. f_equal. lia.
  - cbn [cumsum_from]. rewrite last_cons. cbn [cumsum_from] in IH.
    rewrite (IH (acc + x)) by done. simpl. f_equal. lia.
Qed.

(** X1. After the walk the buffer is as long as the block lengths say:
    [len(self.contents)] is the sum of [block_lengths], which is the last
    entry of [block_char_end]; every block counts at least the
    delimiter; and in tabular mode there is exactly one recorded parent
    per block (none in the other mode). *)
Theorem walk_accounting cfg document root h w :
  walk cfg document root h = Ok w ->
  len (contents w) = sum_Z (block_lengths w) /\
  (block_lengths w <> [] ->
   last (cumsum (block_lengths w)) = Some (len (contents w))) /\
  Forall (fun n => len delim <= n) (block_lengths w) /\
  (if tabular cfg then length (parents w) = length (block_lengths w)
   else parents w = []).
Proof.
  intros H. apply walk_extends in H
    as (lens & ps & ts & Hb & Hc & Hd & Hp & Hl & _).
  simpl in *. change (len "") with 0 in Hc. rewrite Hb, Hp, Hc.
  split; [lia|]. split; [|done].
  intros Hne. unfold cumsum. by rewrite cumsum_from_last.
Qed.

Lemma walk_accounting_witness :
  exists w, walk config doc two_paragraphs initial_heap = Ok w /\
            len (contents w) = sum_Z (block_lengths w) /\
            length (parents w) = length (block_lengths w).
Proof.
  assert (is_ok (walk config doc two_paragraphs initial_heap) = true) as Hok
      by (vm_compute; reflexivity).
  destruct (walk config doc two_paragraphs initial_heap) as [w| |] eqn:E;
    [|discriminate Hok..].
  exists w. split; [reflexivity|].
  destruct (walk_accounting config doc two_paragraphs initial_heap w E)
    as (H1 & _ & _ & H2).
  split; [exact H1|exact H2].
Defined.

(** X2. Every parent the walk records for a block is the document being
    parsed, a Table or a Cell: [None] is never recorded. *)
Theorem walk_parents_known cfg document root h w :
  walk cfg document root h = Ok w ->
  Forall (known_parent document) (parents w).
Proof.
  intros H. apply walk_extends in H as (lens & ps & ts & _ & _ & _ & Hp & _ & Hk & _).
  simpl in Hp. by subst.
Qed.

Lemma walk_parents_known_witness :
  exists w, walk config doc nested initial_heap = Ok w /\
            Forall (known_parent doc) (parents w).
Proof.
  assert (is_ok (walk config doc nested initial_heap) = true) as Hok
      by (vm_compute; reflexivity).
  destruct (walk config doc nested initial_heap) as [w| |] eqn:E;
    [|discriminate Hok..].
  exists w. split; [reflexivity|].
  exact (walk_parents_known config doc nested initial_heap w E).
Defined.

Lemma table_id_inj a b : Inj (=) (=) (fun n => fmt4 a b (str n) (str n)).
Proof.
  intros n m. unfold fmt4. intros H.
  do 4 apply (inj (String.append _)) in H.
  apply (inj (pretty : Z -> string)).
  apply (append_eq_length _ _ _ _ H).
  apply (f_equal String.length) in H. rewrite !length_append in H. lia.
Qed.

(** X3. The tables of a document are numbered 0, 1, 2, ... in the order
    in which the walk enters them, nested tables included;
    [self.table_idx] ends as the last number given; each table carries
    the identifier ["<name>::table:<n>:<n>"] of its number, and the
    identifiers are pairwise distinct. *)
Theorem walk_tables_numbered cfg document root h w :
  walk cfg document root h = Ok w ->
  exists ts,
    tables (heap w) = tables h ++ ts /\
    map t_position ts = map Z.of_nat (seq 0 (length ts)) /\
    table_idx w = Z.of_nat (length ts) - 1 /\
    Forall (fun t => t_document t = document /\
                     t_stable_id t =
                       name document +:+ "::table:" +:+ str (t_position t)
                            +:+ ":" +:+ str (t_position t)) ts /\
    NoDup (map t_stable_id ts).
Proof.
  intros H. apply walk_extends in H
    as (lens & ps & ts & _ & _ & _ & _ & _ & _ & Ht & Hn & Hdoc & Hi).
  simpl in *. exists ts. split; [done|].
  assert (map t_position ts = map Z.of_nat (seq 0 (length ts))) as Hpos.
  { rewrite Hn. apply map_ext. intros; lia. }
  split; [done|]. split; [lia|]. split; [done|].
  assert (map t_stable_id ts =
          map (fun n => fmt4 (name document) "table" (str n) (str n))
              (map t_position ts)) as ->.
  { rewrite map_map. apply Forall_fmap_ext_1. eapply Forall_impl; [exact Hdoc|].
    by intros t [_ ->]. }
  apply NoDup_fmap_2; [apply table_id_inj|]. rewrite Hpos.
  apply NoDup_fmap_2; [apply Nat2Z.inj'|apply NoDup_seq].
Qed.

Lemma walk_tables_numbered_witness :
  exists w ts, walk config doc nested initial_heap = Ok w /\
               tables (heap w) = tables initial_heap ++ ts /\
               map t_position ts = map Z.of_nat (seq 0 (length ts)).
Proof.
  assert (is_ok (walk config doc nested initial_heap) = true) as Hok
      by (vm_compute; reflexivity).
  destruct (walk config doc nested initial_heap) as [w| |] eqn:E;
    [|discriminate Hok..].
  destruct (walk_tables_numbered config doc nested initial_heap w E)
    as (ts & H1 & H2 & _).
  exists w, ts. split; [reflexivity|]. split; [exact H1|exact H2].
Defined.

(** ** Skipped nodes *)

(** ** Where the block pointer stops *)

Lemma advance_stop rest : forall target idx pos idx' pos' err,
  advance rest target idx pos = (idx', pos', err) ->
  (forall k e, (k < idx' - idx)%nat -> rest !! k = Some e -> e < target) /\
  match err with
  | None => exists e, rest !! (idx' - idx)%nat = Some e /\ target <= e
  | Some x => x = IndexError /\ idx' = (idx + length rest)%nat
  end.
Proof.
  induction rest as [|e rest IH]; intros target idx pos idx' pos' err; simpl.
  - intros [= <- <- <-]. split; [intros; lia|]. split; [done|lia].
  - destruct (Z.gtb_spec target e) as [Hgt|Hle].
    + intros H. pose proof (advance_spec _ _ _ _ _ _ _ H) as (Hle & _).
      apply IH in H as [Hbelow Hstop]. split.
      * intros [|k] e' Hk; simpl; [intros [= <-]; lia|]. apply Hbelow. lia.
      * destruct err as [x|].
        -- destruct Hstop as [-> ->]. split; [done|lia].
        -- destruct Hstop as (e' & He' & Hte). exists e'. split; [|done].
           replace (idx' - idx)%nat with (S (idx' - S idx)) by lia. done.
    + intros [= <- <- <-]. split; [intros; lia|]. exists e.
      rewrite Nat.sub_diag. done.
Qed.

Lemma lookup_drop_sub {A} (l : list A) (i k : nat) :
  (i <= k)%nat -> drop i l !! (k - i)%nat = l !! k.
Proof. intros. rewrite lookup_drop. f_equal. lia. Qed.

(** X5. A unit that is yielded is attached to the first block, from the
    block the pointer stood at, whose end offset [block_char_end[b]] is
    not below [parsed + char_end]: all blocks passed over end before that
    offset. *)
Theorem pointer_stops_at_first_block
        cfg document block_char_end parents parsed c parts c' b p :
  process_unit cfg document block_char_end parents parsed c parts = (c', Yield b p) ->
  (parent_idx c <= b)%nat /\
  (exists e, block_char_end !! b = Some e /\
             parsed + sid_end (stable_id parts) <= e) /\
  (forall k e, (parent_idx c <= k < b)%nat -> block_char_end !! k = Some e ->
               e < parsed + sid_end (stable_id parts)).
Proof.
  unfold process_unit. cbn [split_stable_id].
  destruct (advance _ _ _ _) as [[idx pos] err] eqn:Hadv.
  pose proof (advance_spec _ _ _ _ _ _ _ Hadv) as (Hle & _).
  apply advance_stop in Hadv as [Hbelow Hstop].
  destruct err as [x|]; [done|].
  intros H. assert (idx = b) as -> by (repeat case_match; by simplify_eq).
  clear H. split; [done|]. split.
  - destruct Hstop as (e & He & Hte). rewrite lookup_drop_sub in He by done. eauto.
  - intros k e Hk He. apply (Hbelow (k - parent_idx c)%nat); [lia|].
    rewrite lookup_drop_sub by lia. done.
Qed.

Lemma pointer_stops_at_first_block_witness :
  exists c' p,
    process_unit config doc [5; 10] [IsDocument doc; IsDocument doc] 0 start
                 (sentence "b" 5 6) = (c', Yield 1 p) /\
    (exists e, [5; 10] !! 1%nat = Some e /\ 0 + 6 <= e) /\
    (forall k e, (0 <= k < 1)%nat -> [5; 10] !! k = Some e -> e < 0 + 6).
Proof.
  eexists _, _. split; [vm_compute; reflexivity|].
  eapply proj2, (pointer_stops_at_first_block config doc [5; 10]
                   [IsDocument doc; IsDocument doc] 0 start (sentence "b" 5 6)).
  vm_compute. reflexivity.
Defined.

Lemma cumsum_length l : length (cumsum l) = length l.
Proof. apply cumsum_from_length. Qed.

(** X6. In [parse_structure] the bare [except] is only ever reached by
    an [IndexError]: the unit ends after the end of the last block, and
    the pointer has run off [block_char_end]. With the lists the walk
    produced, [parents[parent_idx]] is always there and [apply_tabular]
    never raises. *)
Theorem only_index_errors cfg document root h w doc' parsed c parts c' e :
  walk cfg document root h = Ok w ->
  process_unit cfg doc' (cumsum (block_lengths w)) (parents w) parsed c parts
    = (c', Caught e) ->
  e = IndexError /\
  (length (block_lengths w) <= parent_idx c')%nat /\
  (forall k e', (parent_idx c <= k)%nat ->
                cumsum (block_lengths w) !! k = Some e' ->
                e' < parsed + sid_end (stable_id parts)).
Proof.
  intros Hw. pose proof (walk_extends _ _ _ _ _ Hw)
    as (lens & ps & ts & Hb & _ & _ & Hp & Hl & Hk & _).
  simpl in Hb, Hp. unfold process_unit. cbn [split_stable_id].
  destruct (advance _ _ _ _) as [[idx pos] err] eqn:Hadv.
  pose proof (advance_spec _ _ _ _ _ _ _ Hadv) as (Hle & _ & Hin).
  apply advance_stop in Hadv as [Hbelow Hstop].
  destruct err as [x|].
  - destruct Hstop as [-> ->]. intros [= <- <-]. simpl. split; [done|].
    rewrite length_drop, cumsum_length. split; [lia|].
    intros k e' Hk' He'. apply (Hbelow (k - parent_idx c)%nat).
    + apply lookup_lt_Some in He'. rewrite cumsum_length in He'.
      rewrite length_drop, cumsum_length. lia.
    + rewrite lookup_drop_sub by lia. done.
  - specialize (Hin eq_refl). rewrite length_drop, cumsum_length in Hin.
    destruct (tabular cfg) eqn:Htab; [|done].
    assert (idx < length (parents w))%nat as Hidx.
    { rewrite Hp, Hb in *. simpl in *. lia. }
    destruct (lookup_lt_is_Some_2 _ _ Hidx) as [parent Hpar]. rewrite Hpar.
    assert (known_parent document parent) as Hkp.
    { rewrite Hp in Hpar. simpl in Hpar.
      eapply (Forall_lookup_1 _ _ _ _ Hk Hpar). }
    destruct parent; done.
Qed.

Lemma only_index_errors_witness :
  exists w c',
    walk config doc two_paragraphs initial_heap = Ok w /\
    process_unit config doc (cumsum (block_lengths w)) (parents w) 0 start
                 (sentence "z" 20 21) = (c', Caught IndexError) /\
    (length (block_lengths w) <= parent_idx c')%nat.
Proof.
  assert (is_ok (walk config doc two_paragraphs initial_heap) = true) as Hok
      by (vm_compute; reflexivity).
  destruct (walk config doc two_paragraphs initial_heap) as [w| |] eqn:E;
    [|discriminate Hok..].
  destruct (process_unit config doc (cumsum (block_lengths w)) (parents w) 0 start
                         (sentence "z" 20 21)) as [c' [b p|e]] eqn:Hu.
  - exfalso. revert Hu. vm_compute in E. injection E as <-. vm_compute. discriminate.
  - destruct (only_index_errors config doc two_paragraphs initial_heap w doc 0 start
                                (sentence "z" 20 21) c' e E Hu) as (-> & Hlen & _).
    exists w, c'. split; [reflexivity|]. split; [exact Hu|exact Hlen].
Defined.




(** ** What every yielded phrase carries *)

Section Yielded.
Context (cfg : Config) (pdb : Debugger) (document : Document).
Context (block_char_end : list Z) (parents : list Context).
Context (Q : nat -> Phrase -> Prop).
Hypothesis HQ : forall parsed c parts c' b p,
  process_unit cfg document block_char_end parents parsed c parts = (c', Yield b p) ->
  Q b p.

Lemma run_units_Forall parsed units : forall c n l c' n' stop,
  run_units cfg pdb document block_char_end parents parsed units c n
    = (l, c', n', stop) ->
  Forall (fun x => Q x.1 x.2) l.
Proof.
  induction units as [|u units IH]; intros c n l c' n' stop; simpl.
  - intros [= <- <- <- <-]. constructor.
  - destruct (process_unit _ _ _ _ _ _ _) as [c1 [b p|e]] eqn:Hu.
    + destruct (run_units _ _ _ _ _ _ _ _ _) as [[[l1 c2] n2] stop2] eqn:Hr.
      intros [= <- <- <- <-]. constructor; [by eapply HQ|by eapply IH].
    + destruct (pdb n); [by apply IH|]. intros [= <- <- <- <-]. constructor.
Qed.

Lemma run_batches_Forall lp contents fuel : forall parsed c n,
  Forall (fun x => Q x.1 x.2)
         (emitted (run_batches fuel cfg lp pdb document contents
                               block_char_end parents parsed c n)).
Proof.
  induction fuel as [|fuel IH]; intros parsed c n; simpl; [constructor|].
  destruct (parsed <? len contents); [|constructor].
  destruct (lp document _) as [units raised].
  destruct (run_units _ _ _ _ _ _ _ _ _) as [[[l c1] n1] stop] eqn:Hr.
  apply run_units_Forall in Hr.
  destruct stop as [e|]; [done|]. destruct raised as [e|]; [done|]. simpl.
  apply Forall_app. split; [done|apply IH].
Qed.

End Yielded.

Lemma process_unit_linked cfg document block_char_end parents parsed c parts c' b p :
  process_unit cfg document block_char_end parents parsed c parts = (c', Yield b p) ->
  p_parts p = parts /\ p_document p = document /\
  if tabular cfg
  then exists parent, parents !! b = Some parent /\ linked parent p
  else p_position p = parts_position parts /\ p_table p = None /\ p_cell p = None.
Proof.
  unfold process_unit. cbn [split_stable_id].
  destruct (advance _ _ _ _) as [[idx pos] err]. destruct err; [done|].
  destruct (tabular cfg).
  - destruct (parents !! idx) as [parent|] eqn:Hp; [|done].
    destruct parent; simpl; intros H; simplify_eq; simpl;
      (split; [done|]); (split; [done|]); eexists; (split; [done|]); done.
  - intros [= <- <- <-]. done.
Qed.

(** X7. Every Phrase that [parse_structure] yields carries the
    document being parsed, whatever document the annotator put in its
    record. In tabular mode it carries the parent recorded for the block
    it was attached to: nothing for the document, the table for a Table,
    and for a Cell the cell, its table and its four row and column
    bounds. Outside tabular mode no table or cell is set, and the
    position is the one of the annotator's record (the index of the
    sentence in the answer of CoreNLP; none from [SimpleTokenizer]). *)
Theorem phrases_linked cfg corenlp pdb document root h w :
  walk cfg document root h = Ok w ->
  Forall (fun x =>
            p_document x.2 = document /\
            if tabular cfg
            then exists parent, parents w !! x.1 = Some parent /\ linked parent x.2
            else p_position x.2 = parts_position (p_parts x.2) /\
                 p_table x.2 = None /\ p_cell x.2 = None)
         (emitted (parse_structure cfg corenlp pdb document root h)).
Proof.
  intros Hw. unfold parse_structure. rewrite Hw.
  apply (run_batches_Forall cfg pdb document _ _
           (fun b p => p_document p = document /\
                       if tabular cfg
                       then exists parent, parents w !! b = Some parent /\ linked parent p
                       else p_position p = parts_position (p_parts p) /\
                            p_table p = None /\ p_cell p = None)).
  intros parsed c parts c' b p H.
  apply process_unit_linked in H as (Hparts & Hdoc & H). split; [done|].
  destruct (tabular cfg); [done|]. by rewrite Hparts.
Qed.

Lemma phrases_linked_witness :
  (exists w,
      walk config doc two_cells initial_heap = Ok w /\
      Forall (fun x =>
                p_document x.2 = doc /\
                exists parent, parents w !! x.1 = Some parent /\ linked parent x.2)
             (emitted (parse_structure config two_sentences (fun _ => Continue) doc
                                       two_cells initial_heap))) /\
  (exists w,
      walk config_no_tables doc two_paragraphs initial_heap = Ok w /\
      Forall (fun x =>
                p_document x.2 = doc /\
                p_position x.2 = parts_position (p_parts x.2) /\
                p_table x.2 = None /\ p_cell x.2 = None)
             (emitted (parse_structure config_no_tables two_sentences
                                       (fun _ => Continue) doc two_paragraphs
                                       initial_heap)) /\
      map (fun x => p_position x.2)
          (emitted (parse_structure config_no_tables two_sentences
                                    (fun _ => Continue) doc two_paragraphs
                                    initial_heap)) = [Some 0; Some 1]).
Proof.
  split.
  - assert (is_ok (walk config doc two_cells initial_heap) = true) as Hok
        by (vm_compute; reflexivity).
    destruct (walk config doc two_cells initial_heap) as [w| |] eqn:E;
      [|discriminate Hok..].
    exists w. split; [reflexivity|].
    exact (phrases_linked config two_sentences (fun _ => Continue) doc two_cells
                          initial_heap w E).
  - assert (is_ok (walk config_no_tables doc two_paragraphs initial_heap) = true)
      as Hok by (vm_compute; reflexivity).
    destruct (walk config_no_tables doc two_paragraphs initial_heap) as [w| |] eqn:E;
      [|discriminate Hok..].
    exists w. split; [reflexivity|]. split.
    + exact (phrases_linked config_no_tables two_sentences (fun _ => Continue) doc
                            two_paragraphs initial_heap w E).
    + vm_compute. reflexivity.
Defined.

(** ** [flatten] *)

Lemma tag_in_with_tail e pending l : tag_in (with_tail e pending) l = tag_in e l.
Proof. by destruct pending. Qed.

Lemma untail_with_tail e pending : untail (with_tail e pending) = untail e.
Proof. by destruct pending. Qed.

Lemma flatten_children_kept cfg cs :
  Forall (fun c => tag_in c (self_flatten cfg) = false) (flatten_children cfg cs).2 /\
  untail <$> (flatten_children cfg cs).2 =
  untail <$> filter (fun c => tag_in c (self_flatten cfg) = false) cs.
Proof.
  induction cs as [|c cs [IH1 IH2]]; [by split|]. cbn [flatten_children].
  destruct (flatten_children cfg cs) as [pending rest]. cbn [snd] in *.
  rewrite tag_in_with_tail. destruct (tag_in c (self_flatten cfg)) eqn:Hc; cbn [snd].
  - rewrite filter_cons_False by (rewrite Hc; done). done.
  - rewrite filter_cons_True by done. split.
    + constructor; [by rewrite tag_in_with_tail|done].
    + cbn [fmap list_fmap]. rewrite untail_with_tail. f_equal. exact IH2.
Qed.

Lemma flatten_children_none cfg cs :
  Forall (fun c => tag_in c (self_flatten cfg) = false) cs ->
  flatten_children cfg cs = (None, cs).
Proof.
  induction 1 as [|c cs Hc _ IH]; [done|]. cbn [flatten_children].
  rewrite IH. cbn [with_tail]. by rewrite Hc.
Qed.

Lemma flatten_children_grown cfg cs :
  Forall2 (fun c c' => untail c' = untail c /\ grown (tail c) (tail c'))
          (filter (fun c => tag_in c (self_flatten cfg) = false) cs)
          (flatten_children cfg cs).2.
Proof.
  induction cs as [|c cs IH]; [constructor|]. cbn [flatten_children].
  destruct (flatten_children cfg cs) as [pending rest]. cbn [snd] in *.
  rewrite tag_in_with_tail. destruct (tag_in c (self_flatten cfg)) eqn:Hc; cbn [snd].
  - by rewrite filter_cons_False by (rewrite Hc; done).
  - rewrite filter_cons_True by done. constructor; [|exact IH].
    split; [apply untail_with_tail|].
    destruct pending as [s|]; [|by left]. right. exists s. by destruct c.
Qed.

(** X8. [flatten] removes exactly the children whose tag is in
    [self.flatten]: none of them is left, and the other children stay in
    their order with tag, attributes, text and subtree untouched. The
    tail of a child that stays is the old one, or the old one with text
    appended to it; the same holds for the text of the node, which
    keeps its tag, attributes and tail. *)
Theorem flatten_removes cfg node :
  Forall (fun c => tag_in c (self_flatten cfg) = false) (children (flatten cfg node)) /\
  untail <$> children (flatten cfg node) =
    untail <$> filter (fun c => tag_in c (self_flatten cfg) = false) (children node) /\
  Forall2 (fun c c' => untail c' = untail c /\ grown (tail c) (tail c'))
          (filter (fun c => tag_in c (self_flatten cfg) = false) (children node))
          (children (flatten cfg node)) /\
  grown (text node) (text (flatten cfg node)) /\
  tag (flatten cfg node) = tag node /\
  attrib (flatten cfg node) = attrib node /\
  tail (flatten cfg node) = tail node.
Proof.
  pose proof (flatten_children_kept cfg (children node)) as [H1 H2].
  pose proof (flatten_children_grown cfg (children node)) as H3.
  unfold flatten. destruct (flatten_children cfg (children node)) as [pending cs].
  cbn [children text tag attrib tail snd] in *.
  repeat (split; [done|]). split; [|done].
  destruct pending as [s|]; [|by left]. right. by exists s.
Qed.

(** X9. [flatten] changes nothing on a node that has no child to
    flatten, and so running it a second time changes nothing. *)
Theorem flatten_idempotent cfg node :
  (Forall (fun c => tag_in c (self_flatten cfg) = false) (children node) ->
   flatten cfg node = node) /\
  flatten cfg (flatten cfg node) = flatten cfg node.
Proof.
  assert (forall n, Forall (fun c => tag_in c (self_flatten cfg) = false) (children n) ->
                    flatten cfg n = n) as Hfix.
  { intros n Hn. unfold flatten. rewrite flatten_children_none by done. by destruct n. }
  split; [apply Hfix|]. apply Hfix.
  pose proof (flatten_children_kept cfg (children node)) as [H _].
  unfold flatten. by destruct (flatten_children cfg (children node)).
Qed.

Lemma flatten_idempotent_witness :
  Forall (fun c => tag_in c (self_flatten config) = false)
         (children two_paragraphs) /\
  flatten config two_paragraphs = two_paragraphs.
Proof.
  assert (Forall (fun c => tag_in c (self_flatten config) = false)
                 (children two_paragraphs)) as H by (repeat constructor).
  split; [exact H|].
  exact (proj1 (flatten_idempotent config two_paragraphs) H).
Defined.

(** The text that flattening moves: what the flattened children held is
    appended, in order, to the tail of the child before them. *)
Example flatten_inline :
  flatten config inline =
  el "p" [] (Some "ab") [Elem (TagName "i") [] (Some "c") [] (Some "d")].
Proof. reflexivity. Qed.

(** ** The batches cover the buffer *)

Lemma substring_zero n s : String.substring n 0 s = "".
Proof. revert n. induction s as [|a s IH]; intros [|n]; simpl; auto. Qed.

Lemma substring_glue s : forall a n m,
  String.substring a n s +:+ String.substring (a + n) m s = String.substring a (n + m) s.
Proof.
  induction s as [|c s IH]; intros a n m.
  - by rewrite !substring_empty.
  - destruct a as [|a].
    + destruct n as [|n]; [done|]. simpl.
      change (String c ?x +:+ ?y) with (String c (x +:+ y)). f_equal. apply (IH 0%nat).
    + simpl. apply IH.
Qed.

Lemma substring_clip s : forall a n,
  (String.length s <= a + n)%nat ->
  String.substring a n s = String.substring a (String.length s - a) s.
Proof.
  induction s as [|c s IH]; intros a n Hl.
  - by rewrite !substring_empty.
  - destruct a as [|a].
    + destruct n as [|n]; [simpl in Hl; lia|]. simpl. f_equal.
      rewrite (IH 0%nat n) by (simpl in *; lia). f_equal. lia.
    + simpl. apply IH. simpl in Hl. lia.
Qed.

Lemma length_substring s : forall a n,
  (String.length (String.substring a n s) <= n)%nat /\
  (String.length (String.substring a n s) <= String.length s - a)%nat /\
  (a + n <= String.length s -> String.length (String.substring a n s) = n)%nat.
Proof.
  induction s as [|c s IH]; intros a n.
  - rewrite substring_empty. simpl. lia.
  - destruct a as [|a].
    + destruct n as [|n]; simpl; [lia|]. destruct (IH 0%nat n) as (? & ? & ?). lia.
    + simpl. destruct (IH a n) as (? & ? & ?). lia.
Qed.

Lemma slice_glue s a b :
  0 <= a <= b -> slice s a b +:+ slice s b (len s) = slice s a (len s).
Proof.
  intros Hab. unfold slice, len.
  destruct (Z.le_gt_cases b (Z.of_nat (String.length s))) as [Hb|Hb].
  - replace (Z.to_nat b) with (Z.to_nat a + Z.to_nat (b - a))%nat by lia.
    rewrite substring_glue. f_equal. lia.
  - replace (Z.to_nat (Z.of_nat (String.length s) - b)) with 0%nat by lia.
    rewrite substring_zero.
    rewrite (substring_clip s (Z.to_nat a) (Z.to_nat (b - a))) by lia.
    replace (Z.to_nat (Z.of_nat (String.length s) - a))
      with (String.length s - Z.to_nat a)%nat by lia.
    generalize (String.substring (Z.to_nat a) (String.length s - Z.to_nat a) s).
    intros t. induction t as [|c t IH]; [done|].
    change (String c t +:+ "") with (String c (t +:+ "")). by rewrite IH.
Qed.

Lemma run_batches_cover cfg lp pdb document contents bce parents fuel :
  forall parsed c n,
    0 <= parsed ->
    outcome (run_batches fuel cfg lp pdb document contents bce parents parsed c n)
      = Ok tt ->
    glue (calls (run_batches fuel cfg lp pdb document contents bce parents parsed c n))
      = slice contents parsed (len contents).
Proof.
  induction fuel as [|fuel IH]; intros parsed c n Hp; [done|]. simpl.
  destruct (Z.ltb_spec parsed (len contents)) as [Hlt|Hge].
  - destruct (lp document _) as [units raised].
    destruct (run_units _ _ _ _ _ _ _ _ _) as [[[l c1] n1] stop].
    destruct stop as [e|]; [done|]. destruct raised as [e|]; [done|]. simpl.
    intros Hout. pose proof (batch_end_progress cfg contents parsed) as Hbe.
    rewrite IH by (done || lia). apply slice_glue. lia.
  - intros _. simpl. unfold slice.
    replace (Z.to_nat (len contents - parsed)) with 0%nat by lia.
    by rewrite substring_zero.
Qed.

Lemma slice_all s : slice s 0 (len s) = s.
Proof.
  unfold slice, len. rewrite Z.sub_0_r, Nat2Z.id. change (Z.to_nat 0) with 0%nat.
  induction s as [|c s IH]; [done|]. simpl. by rewrite IH.
Qed.

(** X10. When [parse_structure] comes to its normal end, the texts it
    handed to the annotator, put one after the other, are the buffer
    [self.contents]: no character is left out or sent twice, whatever
    the batch boundaries were. *)
Theorem batches_cover_contents cfg corenlp pdb document root h w :
  walk cfg document root h = Ok w ->
  outcome (parse_structure cfg corenlp pdb document root h) = Ok tt ->
  glue (calls (parse_structure cfg corenlp pdb document root h)) = contents w.
Proof.
  intros Hw. unfold parse_structure. rewrite Hw. intros Hout.
  rewrite run_batches_cover by done. apply slice_all.
Qed.

Lemma batches_cover_contents_witness :
  exists w,
    walk config doc two_paragraphs initial_heap = Ok w /\
    outcome (parse_structure config two_sentences (fun _ => Continue) doc
                             two_paragraphs initial_heap) = Ok tt /\
    glue (calls (parse_structure config two_sentences (fun _ => Continue) doc
                                 two_paragraphs initial_heap)) = contents w.
Proof.
  assert (is_ok (walk config doc two_paragraphs initial_heap) = true) as Hok
      by (vm_compute; reflexivity).
  destruct (walk config doc two_paragraphs initial_heap) as [w| |] eqn:E;
    [|discriminate Hok..].
  assert (outcome (parse_structure config two_sentences (fun _ => Continue) doc
                                   two_paragraphs initial_heap) = Ok tt) as Hout
      by (vm_compute; reflexivity).
  exists w. split; [reflexivity|]. split; [exact Hout|].
  exact (batches_cover_contents config two_sentences (fun _ => Continue) doc
                                two_paragraphs initial_heap w E Hout).
Defined.

Lemma prefix_length sub s :
  String.prefix sub s = true -> (String.length sub <= String.length s)%nat.
Proof.
  intros H. apply prefix_correct in H.
  destruct (length_substring s 0 (String.length sub)) as (_ & Hl & _).
  rewrite H in Hl. lia.
Qed.

Lemma rfind_from_bound s sub : forall i j,
  rfind_from s sub i = Some j ->
  j - i + len sub <= len s.
Proof.
  unfold len. induction s as [|a s IH]; intros i j; cbn [rfind_from].
  - destruct (String.prefix sub "") eqn:Hp; [|done]. intros [= <-].
    apply prefix_length in Hp. simpl in *. lia.
  - destruct (rfind_from s sub (i + 1)) as [j'|] eqn:E.
    + intros [= <-]. apply IH in E. simpl String.length. lia.
    + destruct (String.prefix sub (String a s)) eqn:Hp; [|done]. intros [= <-].
      apply prefix_length in Hp. lia.
Qed.

Lemma len_slice s a b : 0 <= a <= b -> len (slice s a b) <= b - a.
Proof.
  intros H. unfold len, slice.
  destruct (length_substring s (Z.to_nat a) (Z.to_nat (b - a))) as (Hl & _). lia.
Qed.

Lemma len_slice_inside s a b :
  0 <= a <= b -> b <= len s -> len (slice s a b) = b - a.
Proof.
  intros H Hb. unfold len, slice in *.
  destruct (length_substring s (Z.to_nat a) (Z.to_nat (b - a))) as (_ & _ & Hl). lia.
Qed.

(** A batch is never longer than [self.batch_size]. *)
Lemma batch_end_bound cfg contents parsed :
  0 <= parsed -> batch_end cfg contents parsed - parsed <= batch_size cfg.
Proof.
  intros Hp. unfold batch_end. change (len delim) with 4.
  assert (4 <= batch_size cfg) as Hbs by (unfold batch_size; destruct (lingual cfg); lia).
  unfold rfind.
  destruct (rfind_from _ delim 0) as [j|] eqn:E; [|lia].
  apply rfind_from_bound in E. change (len delim) with 4 in E.
  pose proof (len_slice contents parsed (parsed + batch_size cfg)). lia.
Qed.

Lemma run_batches_calls_bounded cfg lp pdb document contents bce parents fuel :
  forall parsed c n,
    0 <= parsed ->
    Forall (fun s => 0 < len s <= batch_size cfg)
           (calls (run_batches fuel cfg lp pdb document contents bce parents parsed c n)).
Proof.
  induction fuel as [|fuel IH]; intros parsed c n Hp; [constructor|]. simpl.
  destruct (Z.ltb_spec parsed (len contents)) as [Hlt|Hge]; [|constructor].
  pose proof (batch_end_progress cfg contents parsed) as Hbe.
  pose proof (batch_end_bound cfg contents parsed Hp) as Hbb.
  assert (0 < len (slice contents parsed (batch_end cfg contents parsed))
          <= batch_size cfg) as Hcall.
  { split.
    - destruct (Z.le_gt_cases (batch_end cfg contents parsed) (len contents)).
      + rewrite len_slice_inside by lia. lia.
      + unfold slice. rewrite substring_clip by (unfold len in *; lia).
        unfold len in *.
        destruct (length_substring contents (Z.to_nat parsed)
                    (String.length contents - Z.to_nat parsed)) as (_ & _ & Hl).
        rewrite Hl by lia. lia.
    - pose proof (len_slice contents parsed (batch_end cfg contents parsed)). lia. }
  destruct (lp document _) as [units raised].
  destruct (run_units _ _ _ _ _ _ _ _ _) as [[[l c1] n1] stop].
  destruct stop as [e|], raised as [e'|]; simpl;
    try (constructor; [done|constructor]).
  constructor; [done|]. apply IH. lia.
Qed.

(** X11. Every text handed to the annotator is non-empty and at most
    [self.batch_size] characters long, also when a block is longer than
    a batch. *)
Theorem batches_bounded cfg corenlp pdb document root h :
  Forall (fun s => 0 < len s <= batch_size cfg)
         (calls (parse_structure cfg corenlp pdb document root h)).
Proof.
  unfold parse_structure. destruct (walk cfg document root h) as [w| |];
    [|constructor..].
  by apply run_batches_calls_bounded.
Qed.

(** ** [SimpleTokenizer.parse] *)

Lemma words_go_some cur s : String.words_go (Some cur) s <> [].
Proof.
  revert cur. induction s as [|a s IH]; intros cur; simpl; [done|].
  destruct (Ascii.is_space a); [done|]. apply IH.
Qed.

Lemma nonblank_words t : nonblank t = true -> String.words t <> [].
Proof.
  unfold nonblank, Py.strip, String.words.
  assert (lstrip t <> "" -> String.words_go None t <> []) as H.
  { induction t as [|a t IH]; simpl; [done|].
    destruct (Ascii.is_space a); [exact IH|]. intros _. apply words_go_some. }
  intros Hn. apply H. by destruct (lstrip t).
Qed.

Lemma removelast_length {A} (l : list A) :
  length (removelast l) = Nat.pred (length l).
Proof. rewrite removelast_firstn_len, length_take. lia. Qed.

(** Where the offsets of [SimpleTokenizer] point. *)
Lemma offsets_unfold acc w ws :
  ws <> [] ->
  acc :: removelast (cumsum_from acc (map (fun x => len x + 1) (w :: ws))) =
  acc :: (acc + (len w + 1))
      :: removelast (cumsum_from (acc + (len w + 1)) (map (fun x => len x + 1) ws)).
Proof. destruct ws; [done|]. reflexivity. Qed.

Lemma substring_middle pre : forall w rest,
  String.substring (String.length pre) (String.length w) (pre +:+ w +:+ rest) = w.
Proof.
  induction pre as [|a pre IH]; intros w rest.
  - change ("" +:+ w +:+ rest) with (w +:+ rest). simpl String.length.
    induction w as [|b w IHw]; [by destruct rest|].
    change (String b w +:+ rest) with (String b (w +:+ rest)). simpl. by rewrite IHw.
  - change (String a pre +:+ w +:+ rest) with (String a (pre +:+ w +:+ rest)).
    simpl. apply IH.
Qed.

Lemma append_assoc s1 s2 s3 : (s1 +:+ s2) +:+ s3 = s1 +:+ s2 +:+ s3.
Proof.
  induction s1 as [|a s1 IH]; [done|].
  change (String a s1 +:+ s2) with (String a (s1 +:+ s2)).
  change (String a (s1 +:+ s2) +:+ s3) with (String a ((s1 +:+ s2) +:+ s3)).
  by rewrite IH.
Qed.

Lemma append_empty_r s : s +:+ "" = s.
Proof. induction s as [|a s IH]; [done|]. change (String a s +:+ "") with (String a (s +:+ "")). by rewrite IH. Qed.

Lemma offsets_point ws : forall pre k w,
  ws !! k = Some w ->
  exists o,
    (len pre :: removelast (cumsum_from (len pre) (map (fun x => len x + 1) ws))) !! k
      = Some o /\
    slice (pre +:+ join " " ws) o (o + len w) = w.
Proof.
  induction ws as [|w0 ws IH]; intros pre k w Hk; [done|].
  assert (slice (pre +:+ w0 +:+ match ws with [] => "" | _ => " " +:+ join " " ws end)
                (len pre) (len pre + len w0) = w0) as H0.
  { unfold slice, len.
    replace (Z.to_nat (Z.of_nat (String.length pre) + Z.of_nat (String.length w0)
                       - Z.of_nat (String.length pre))) with (String.length w0) by lia.
    rewrite Nat2Z.id. apply substring_middle. }
  destruct ws as [|w1 ws].
  - destruct k as [|k]; [|done]. injection Hk as <-. exists (len pre). split; [done|].
    simpl join. rewrite append_empty_r in H0. exact H0.
  - destruct k as [|k].
    + injection Hk as <-. exists (len pre). split; [done|]. exact H0.
    + rewrite offsets_unfold by done.
      destruct (IH (pre +:+ w0 +:+ " ") k w Hk) as (o & Ho & Hs).
      exists o. split.
      * cbn [lookup list_lookup]. rewrite <- Ho.
        assert (len (pre +:+ w0 +:+ " ") = len pre + (len w0 + 1)) as ->; [|done].
        rewrite !len_append. change (len " ") with 1. lia.
      * etransitivity; [|exact Hs]. f_equal.
        change (join " " (w0 :: w1 :: ws)) with (w0 +:+ " " +:+ join " " (w1 :: ws)).
        by rewrite !append_assoc.
Qed.

(** X12. [SimpleTokenizer.parse] skips the blank pieces and yields one
    unit for each other piece, numbered on in its identifier
    (["phrase", i, i]); a unit has at least one word, its text is the
    words joined by single spaces, it has one offset per word, and
    [char_offsets[k]] is the index at which [words[k]] starts in the
    text. *)
Theorem simple_tokenizer_units document pieces i :
  let us := SimpleTokenizer_go document pieces i in
  length us = length (filter (fun t => nonblank t = true) pieces) /\
  map (fun u => split_stable_id (stable_id u)) us =
    map (fun k => (name document, "phrase", i + Z.of_nat k, i + Z.of_nat k))
        (seq 0 (length us)) /\
  Forall (fun u =>
            words u <> [] /\
            parts_text u = join " " (words u) /\
            length (char_offsets u) = length (words u) /\
            forall k w, words u !! k = Some w ->
              exists o, char_offsets u !! k = Some o /\
                        slice (parts_text u) o (o + len w) = w) us.
Proof.
  revert i. induction pieces as [|t pieces IH]; intros i; [by repeat split|].
  cbn [SimpleTokenizer_go]. fold (nonblank t).
  destruct (nonblank t) eqn:Ht.
  - rewrite filter_cons_True by done. destruct (IH (i + 1)) as (IH1 & IH2 & IH3).
    cbn zeta in *. split; [simpl; by rewrite IH1|]. split.
    + cbn [map length seq]. rewrite Z.add_0_r. f_equal.
      rewrite IH2, <- seq_shift, map_map. apply map_ext. intros k.
      by replace (i + 1 + Z.of_nat k) with (i + Z.of_nat (S k)) by lia.
    + constructor; [|exact IH3]. cbn [words parts_text char_offsets].
      pose proof (nonblank_words t Ht) as Hw.
      split; [done|]. split; [done|]. split.
      * destruct (String.words t) as [|w ws]; [done|].
        unfold cumsum. cbn [length].
        rewrite removelast_length, cumsum_from_length, length_map. simpl. lia.
      * intros k w Hk. apply (offsets_point (String.words t) "" k w Hk).
  - rewrite filter_cons_False by (rewrite Ht; done). apply IH.
Qed.

(** ** fonduer: the records of [CoreNLPHandler.parse] *)

Section FonduerRecords.
Import Snorkel.

Lemma fonduer_step_counts st td :
  token_counts (FonduerNLP.token_step st td).1.1.1 =
  (fun m => S m) <$> token_counts st.1.1.1.
Proof.
  destruct st as [[[parts a] b] c], td as [tok deps].
  unfold FonduerNLP.token_step, token_counts. cbn [fst fmap list_fmap].
  repeat first [rewrite getlist_append_eq | rewrite getlist_append_ne by done].
  rewrite !length_app. simpl. repeat (apply (f_equal2 cons); [lia|]). done.
Qed.

Lemma fonduer_loop_counts tds : forall st,
  token_counts (foldl FonduerNLP.token_step st tds).1.1.1 =
  (fun m => (m + length tds)%nat) <$> token_counts st.1.1.1.
Proof.
  induction tds as [|td tds IH]; intros st; cbn [foldl].
  - unfold token_counts. simpl. repeat (apply (f_equal2 cons); [lia|]). done.
  - rewrite IH, fonduer_step_counts. unfold token_counts. simpl.
    repeat (apply (f_equal2 cons); [lia|]). done.
Qed.

End FonduerRecords.

(** X13. Every record that fonduer's [CoreNLPHandler.parse] yields comes
    from a sentence with [n >= 1] tokens and holds exactly [n] words,
    lemmas, part-of-speech tags, entity tags and character offsets, and
    [n] entries ['O'] in each of the two entity lists. *)
Theorem fonduer_arrays_aligned sort_X_on_Y document_name position block parts :
  FonduerNLP.parse_block sort_X_on_Y document_name position block = Ok parts ->
  let n := length (zip (Snorkel.tokens block) (Snorkel.basic_dependencies block)) in
  (0 < n)%nat /\
  token_counts parts = [n; n; n; n; n] /\
  Snorkel.getlist parts "entity_cids" = replicate n (Snorkel.AStr "O") /\
  Snorkel.getlist parts "entity_types" = replicate n (Snorkel.AStr "O") /\
  get_int parts "position" = Some position.
Proof.
  intros H n. unfold FonduerNLP.parse_block in H. unfold mbind, result_bind in H.
  pose proof (fonduer_loop_counts
                (zip (Snorkel.tokens block) (Snorkel.basic_dependencies block))
                (∅, [], [], [])) as Hc.
  destruct (foldl FonduerNLP.token_step (∅, [], [], [])
                  (zip (Snorkel.tokens block) (Snorkel.basic_dependencies block)))
    as [[[p0 dep_par] dep_lab] dep_order].
  cbn [fst] in Hc. fold n in Hc.
  unfold token_counts in Hc. cbn [fmap list_fmap] in Hc.
  change (length (Snorkel.getlist ∅ _)) with 0%nat in Hc. cbn [Nat.add] in Hc.
  injection Hc as Hw Hl Hp Hn Ho.
  rewrite getlist_insert_ne in H by done.
  destruct (Snorkel.first _) as [a0| |] eqn:Ha0; [|done..].
  apply first_nonempty in Ha0. cbn [Py.bind] in H.
  destruct (Snorkel.atom_int a0) as [z| |]; [|done..]. cbn [Py.bind] in H.
  destruct (foldr _ (Ok []) _) as [offsets| |] eqn:Hoff; [|done..]. cbn [Py.bind] in H.
  apply relative_offsets_length in Hoff.
  destruct (Snorkel.final _) as [o| |]; [|done..]. cbn [Py.bind] in H.
  destruct (Snorkel.atom_int o) as [o'| |]; [|done..]. cbn [Py.bind] in H.
  destruct (Snorkel.final _) as [w| |]; [|done..]. cbn [Py.bind] in H.
  destruct (Snorkel.atom_len w) as [m| |]; [|done..]. cbn [Py.bind] in H.
  injection H as <-.
  split; [lia|]. unfold token_counts, get_int. cbn [fmap list_fmap].
  repeat first [ rewrite getlist_insert_eq
               | rewrite getlist_insert_ne by done ].
  rewrite Hw, Hl, Hp, Hn, Hoff, Ho.
  split; [done|].
  assert (forall l : list Snorkel.Atom,
             (fun _ => Snorkel.AStr "O") <$> l = replicate (length l) (Snorkel.AStr "O"))
    as Hrep.
  { intros l. induction l as [|x l IH]; [done|]. simpl. by rewrite <- IH. }
  rewrite !Hrep, Hw. split; [done|]. split; [done|].
  rewrite lookup_insert_ne by done. rewrite lookup_insert_ne by done.
  rewrite lookup_insert_ne by done. rewrite lookup_insert_ne by done.
  by rewrite lookup_insert_eq.
Qed.

Lemma fonduer_arrays_aligned_witness :
  exists parts,
    FonduerNLP.parse_block unsorted "doc" 0 two_tokens = Ok parts /\
    token_counts parts = [2; 2; 2; 2; 2]%nat.
Proof.
  assert (is_ok (FonduerNLP.parse_block unsorted "doc" 0 two_tokens) = true) as Hok
      by (vm_compute; reflexivity).
  destruct (FonduerNLP.parse_block unsorted "doc" 0 two_tokens) as [parts| |] eqn:E;
    [|discriminate Hok..].
  exists parts. split; [reflexivity|].
  destruct (fonduer_arrays_aligned unsorted "doc" 0 two_tokens parts E) as (_ & H & _).
  exact H.
Defined.

Section FonduerContents.
Import Snorkel.

Lemma fonduer_loop_contents tds : forall st,
  let parts := (foldl FonduerNLP.token_step st tds).1.1.1 in
  getlist parts "char_offsets" =
    getlist st.1.1.1 "char_offsets" ++ (AInt <$> (characterOffsetBegin <$> tds.*1)) /\
  getlist parts "words" =
    getlist st.1.1.1 "words" ++
    (AStr <$> ((fun t => PTB_get PTB (word t)) <$> tds.*1)).
Proof.
  induction tds as [|td tds IH]; intros st; cbn [foldl].
  - rewrite !fmap_nil. by rewrite !app_nil_r.
  - destruct (IH (FonduerNLP.token_step st td)) as [-> ->].
    destruct st as [[[parts a] b] c], td as [tok deps].
    unfold FonduerNLP.token_step. cbn [fst]. rewrite !fmap_cons. cbn [fst].
    repeat first [rewrite getlist_append_eq | rewrite getlist_append_ne by done].
    by rewrite <- !app_assoc.
Qed.

Lemma relative_offsets_ints z (zs : list Z) :
  foldr (fun a acc => p ← atom_int a; l ← acc; Ok (AInt (p - z) :: l))
        (Ok []) (AInt <$> zs) = Ok ((fun p => AInt (p - z)) <$> zs).
Proof.
  induction zs as [|p zs IH]; [done|].
  rewrite !fmap_cons. cbn [foldr atom_int]. rewrite IH. reflexivity.
Qed.

Lemma first_fmap {A B} (f : A -> B) (g : B -> Atom) (l : list A) :
  first (g <$> (f <$> l)) =
  match head l with Some a => Ok (g (f a)) | None => Raise IndexError end.
Proof. by destruct l. Qed.

Lemma final_fmap {A} (f : A -> Atom) (l : list A) :
  final (f <$> l) =
  match last l with Some a => Ok (f a) | None => Raise IndexError end.
Proof. unfold final. rewrite fmap_last. by destruct (last l). Qed.

(** The run of [parse_block] on the zipped tokens [ts]. *)
Lemma fonduer_parse_block_run sort_X_on_Y document_name position block :
  let ts := (zip (tokens block) (basic_dependencies block)).*1 in
  match head ts, last ts with
  | Some t0, Some tn =>
      exists parts,
        FonduerNLP.parse_block sort_X_on_Y document_name position block = Ok parts /\
        getlist parts "char_offsets" =
          (fun t => AInt (characterOffsetBegin t - characterOffsetBegin t0)) <$> ts /\
        parts !! "stable_id" =
          Some (VStr (fmt4 document_name "sentence"
                           (str (characterOffsetBegin t0))
                           (str (characterOffsetBegin tn +
                                 len (PTB_get PTB (word tn)))))) /\
        get_int parts "position" = Some position
  | _, _ =>
      FonduerNLP.parse_block sort_X_on_Y document_name position block = Raise IndexError
  end.
Proof.
  intros ts. unfold FonduerNLP.parse_block. unfold mbind, result_bind.
  destruct (fonduer_loop_contents (zip (tokens block) (basic_dependencies block))
                                  (∅, [], [], [])) as [Ho Hw].
  fold ts in Ho, Hw.
  destruct (foldl FonduerNLP.token_step (∅, [], [], []) _)
    as [[[p0 dep_par] dep_lab] dep_order].
  cbn [fst] in Ho, Hw.
  change (getlist ∅ _) with (@nil Atom) in Ho, Hw.
  cbn [app] in Ho, Hw.
  rewrite getlist_insert_ne by done. rewrite Ho.
  rewrite first_fmap.
  destruct (head ts) as [t0|] eqn:Hhead; cbn [Py.bind atom_int compose].
  2:{ reflexivity. }
  pose proof (relative_offsets_ints (characterOffsetBegin t0) (characterOffsetBegin <$> ts))
    as Hr.
  unfold mbind, result_bind in Hr. rewrite Hr. clear Hr. cbn [Py.bind].
  repeat first [ rewrite getlist_insert_eq
               | rewrite getlist_insert_ne by done ].
  rewrite Hw. rewrite <- !list_fmap_compose. rewrite !final_fmap.
  destruct (last ts) as [tn|] eqn:Hlast.
  2:{ apply last_None in Hlast. by rewrite Hlast in Hhead. }
  cbn [Py.bind atom_int atom_len compose].
  eexists. split; [reflexivity|]. split; [|split].
  - rewrite getlist_insert_ne by done.
    repeat first [ rewrite getlist_insert_eq
                 | rewrite getlist_insert_ne by done ].
    done.
  - rewrite lookup_insert_eq. do 3 f_equal. f_equal. lia.
  - unfold get_int. do 4 (rewrite lookup_insert_ne by done).
    by rewrite lookup_insert_eq.
Qed.

End FonduerContents.

(** X14. In a record of fonduer's [CoreNLPHandler.parse] the character
    offsets are those of the server minus the offset of the sentence's
    first token (so the first is 0), and the stable id is
    ["<name>::sentence:<a>:<b>"] with [a] the server's offset of the
    first token and [b] the server's offset of the last token plus the
    length of its word (after the Penn Treebank symbols are turned back
    into characters). *)
Theorem fonduer_offsets_relative sort_X_on_Y document_name position block parts :
  FonduerNLP.parse_block sort_X_on_Y document_name position block = Ok parts ->
  let ts := (zip (Snorkel.tokens block) (Snorkel.basic_dependencies block)).*1 in
  exists t0 tn,
    head ts = Some t0 /\ last ts = Some tn /\
    Snorkel.getlist parts "char_offsets" =
      (fun t => Snorkel.AInt (Snorkel.characterOffsetBegin t -
                              Snorkel.characterOffsetBegin t0)) <$> ts /\
    parts !! "stable_id" =
      Some (Snorkel.VStr
              (fmt4 document_name "sentence"
                    (str (Snorkel.characterOffsetBegin t0))
                    (str (Snorkel.characterOffsetBegin tn +
                          len (Snorkel.PTB_get Snorkel.PTB (Snorkel.word tn)))))).
Proof.
  intros H ts.
  pose proof (fonduer_parse_block_run sort_X_on_Y document_name position block) as Hrun.
  cbv zeta in Hrun. fold ts in Hrun.
  destruct (head ts) as [t0|]; [destruct (last ts) as [tn|]|]; [|congruence..].
  destruct Hrun as (parts' & Hp & Ho & Hid & _).
  assert (parts' = parts) as -> by congruence.
  by exists t0, tn.
Qed.

Lemma fonduer_offsets_relative_witness :
  exists parts,
    FonduerNLP.parse_block unsorted "doc" 0 two_tokens = Ok parts /\
    Snorkel.getlist parts "char_offsets" = [Snorkel.AInt 0; Snorkel.AInt 3] /\
    parts !! "stable_id" = Some (Snorkel.VStr "doc::sentence:10:14").
Proof.
  assert (is_ok (FonduerNLP.parse_block unsorted "doc" 0 two_tokens) = true) as Hok
      by (vm_compute; reflexivity).
  destruct (FonduerNLP.parse_block unsorted "doc" 0 two_tokens) as [parts| |] eqn:E;
    [|discriminate Hok..].
  exists parts. split; [reflexivity|].
  destruct (fonduer_offsets_relative unsorted "doc" 0 two_tokens parts E)
    as (t0 & tn & H0 & Hn & Ho & Hid).
  injection H0 as <-. injection Hn as <-. split; [exact Ho | exact Hid].
Defined.

Lemma fonduer_parse_block_raises sort_X_on_Y document_name position block :
  tokenless block ->
  FonduerNLP.parse_block sort_X_on_Y document_name position block = Raise IndexError.
Proof.
  unfold tokenless. intros Hz.
  pose proof (fonduer_parse_block_run sort_X_on_Y document_name position block) as Hrun.
  cbv zeta in Hrun. by rewrite Hz in Hrun.
Qed.

Lemma fonduer_parse_block_returns sort_X_on_Y document_name position block :
  ~ tokenless block ->
  exists parts,
    FonduerNLP.parse_block sort_X_on_Y document_name position block = Ok parts /\
    get_int parts "position" = Some position.
Proof.
  unfold tokenless. intros Hz.
  pose proof (fonduer_parse_block_run sort_X_on_Y document_name position block) as Hrun.
  cbv zeta in Hrun.
  destruct (zip _ _) as [|td tds] eqn:E; [done|].
  rewrite fmap_cons in Hrun. cbn [head] in Hrun.
  destruct (last _) as [tn|] eqn:Hlast.
  2:{ by apply last_None in Hlast. }
  destruct Hrun as (parts & Hp & _ & _ & Hpos). by exists parts.
Qed.

(** The loop over the sentences: the records are numbered from
    [position] on, one for each sentence up to the first that has no
    token, where the loop ends with [IndexError]. *)
Lemma fonduer_parse_blocks_run sort_X_on_Y document_name blocks : forall position,
  let '(ps, e) := FonduerNLP.parse_blocks sort_X_on_Y document_name position blocks in
  (fun parts => get_int parts "position") <$> ps =
    (fun k => Some (position + Z.of_nat k)) <$> seq 0 (length ps) /\
  (forall k b, (k < length ps)%nat -> blocks !! k = Some b -> ~ tokenless b) /\
  match e with
  | None => length ps = length blocks
  | Some x => x = IndexError /\
              exists b, blocks !! length ps = Some b /\ tokenless b
  end.
Proof.
  induction blocks as [|b blocks IH]; intros position; cbn [FonduerNLP.parse_blocks].
  { split; [done|]. split; [|done]. intros k b' Hk. simpl in Hk. lia. }
  assert (tokenless b \/ ~ tokenless b) as [Hb|Hb].
  { unfold tokenless. destruct (zip _ _); [by left | by right]. }
  - rewrite (fonduer_parse_block_raises _ _ _ _ Hb).
    split; [done|]. split; [intros k b' Hk; simpl in Hk; lia|].
    split; [done|]. by exists b.
  - destruct (fonduer_parse_block_returns sort_X_on_Y document_name position b Hb)
      as (parts & Hp & Hposition).
    rewrite Hp. specialize (IH (position + 1)).
    destruct (FonduerNLP.parse_blocks sort_X_on_Y document_name (position + 1) blocks)
      as [ps e].
    destruct IH as (Hpos & Hgood & He).
    split; [|split].
    + rewrite fmap_cons. cbn [length seq]. rewrite fmap_cons. f_equal.
      * rewrite Hposition. f_equal. lia.
      * rewrite Hpos. rewrite <- seq_shift, <- list_fmap_compose.
        apply list_fmap_ext. intros _ k _. simpl. f_equal. lia.
    + intros [|k] b' Hk; cbn [lookup list_lookup].
      * by intros [= <-].
      * simpl in Hk. apply Hgood. lia.
    + destruct e as [x|]; [|simpl; by rewrite He].
      destruct He as (-> & b' & Hb' & Ht). split; [done|]. by exists b'.
Qed.

(** X15. The outcomes of fonduer's [CoreNLPHandler.parse]. The records
    it yields are numbered 0, 1, 2, ... and each comes from a sentence
    with a token. It raises [ValueError] exactly when the text is not
    blank and the server's answer starts with one of the two refusals,
    and then no record is yielded. Its only other exception is
    [IndexError], at the first sentence that has no token (or no
    dependency entry), after the records of the earlier sentences. When
    it ends normally the text was blank, or the answer could not be
    decoded (nothing is yielded in either case), or there is one record
    per sentence. *)
Theorem fonduer_parse_outcome sort_X_on_Y server decode document_name text :
  let content := Py.strip (server text) in
  let refused := String.prefix "Request is too long" content ||
                 String.prefix "CoreNLP request timed out" content in
  let '(ps, e) := FonduerNLP.parse sort_X_on_Y server decode document_name text in
  (fun parts => get_int parts "position") <$> ps =
    (fun k => Some (Z.of_nat k)) <$> seq 0 (length ps) /\
  match e with
  | Some x =>
      Py.strip text <> "" /\
      if refused then x = ValueError /\ ps = []
      else x = IndexError /\
           exists blocks b, decode content = Some blocks /\
                            blocks !! length ps = Some b /\ tokenless b /\
                            forall k b', (k < length ps)%nat ->
                                         blocks !! k = Some b' -> ~ tokenless b'
  | None =>
      (Py.strip text = "" /\ ps = []) \/
      (Py.strip text <> "" /\ refused = false /\
       match decode content with
       | None => ps = []
       | Some blocks => length ps = length blocks /\
                        Forall (fun b => ~ tokenless b) blocks
       end)
  end.
Proof.
  intros content refused. unfold FonduerNLP.parse. fold content.
  assert (forall s, (len s =? 0) = true <-> s = "") as Hlen.
  { intros s. unfold len. rewrite Z.eqb_eq. destruct s; simpl; [done|].
    split; [lia|done]. }
  destruct (len (Py.strip text) =? 0) eqn:Hblank.
  { apply Hlen in Hblank. split; [done|]. by left. }
  assert (Py.strip text <> "") as Hne.
  { intros Hs. apply Hlen in Hs. congruence. }
  subst refused.
  destruct (String.prefix "Request is too long" content) eqn:H1; cbn [orb].
  { done. }
  destruct (String.prefix "CoreNLP request timed out" content) eqn:H2.
  { done. }
  destruct (decode content) as [blocks|] eqn:Hdec.
  2:{ split; [done|]. right. by repeat split. }
  pose proof (fonduer_parse_blocks_run sort_X_on_Y document_name blocks 0) as Hrun.
  destruct (FonduerNLP.parse_blocks sort_X_on_Y document_name 0 blocks) as [ps e].
  destruct Hrun as (Hpos & Hgood & He).
  split.
  { rewrite Hpos. apply list_fmap_ext. intros _ k _. simpl. f_equal. }
  destruct e as [x|].
  - destruct He as (-> & b & Hb & Ht). split; [done|]. split; [done|].
    by exists blocks, b.
  - right. split; [done|]. split; [done|]. split; [done|].
    apply Forall_lookup. intros k b Hk. apply (Hgood k b); [|done].
    apply lookup_lt_Some in Hk. lia.
Qed.

(** A sentence without tokens between two sentences: one record, then
    [IndexError]; the third sentence is never reached. *)
Example fonduer_stops_at_tokenless :
  let '(ps, e) := FonduerNLP.parse_blocks unsorted "doc" 0
                    [two_tokens; no_tokens; two_tokens] in
  length ps = 1%nat /\ e = Some IndexError.
Proof. vm_compute. done. Qed.

(** ** The document preprocessors *)

Lemma generate_file_spec {D} m (docs : list D) : forall c,
  let n := Z.to_nat (Z.max 1 (m - c)) in
  DocPreprocessor.generate_file (Some m) c docs =
  if decide (n <= length docs)%nat
  then (take n docs, c + Z.of_nat n, true)
  else (docs, c + Z.of_nat (length docs), false).
Proof.
  induction docs as [|d docs IH]; intros c n; cbn [DocPreprocessor.generate_file].
  - rewrite decide_False by (simpl; lia). f_equal. f_equal. simpl. lia.
  - destruct (m <=? c + 1) eqn:Hm.
    + apply Z.leb_le in Hm. assert (n = 1%nat) as -> by lia.
      rewrite decide_True by (simpl; lia). simpl. done.
    + apply Z.leb_gt in Hm. rewrite IH.
      assert (n = S (Z.to_nat (Z.max 1 (m - (c + 1))))) as -> by lia.
      set (n' := Z.to_nat (Z.max 1 (m - (c + 1)))).
      destruct (decide (n' <= length docs)%nat) as [Hn|Hn].
      * rewrite decide_True by (simpl; lia). simpl. do 2 f_equal. lia.
      * rewrite decide_False by (simpl; lia). do 2 f_equal. simpl length. lia.
Qed.

Lemma generate_file_all {D} (docs : list D) : forall c,
  DocPreprocessor.generate_file None c docs = (docs, c + Z.of_nat (length docs), false).
Proof.
  induction docs as [|d docs IH]; intros c; cbn [DocPreprocessor.generate_file].
  - do 2 f_equal. simpl. lia.
  - rewrite IH. do 2 f_equal. simpl length. lia.
Qed.

Lemma generate_from_spec {F D} (_can_read : F -> bool) (parse_file : F -> list D)
      m files : forall c,
  DocPreprocessor.generate_from _can_read parse_file (Some m) c files =
  take (Z.to_nat (Z.max 1 (m - c)))
       (concat (parse_file <$> filter (fun fp => _can_read fp = true) files)).
Proof.
  induction files as [|fp files IH]; intros c; cbn [DocPreprocessor.generate_from].
  - by destruct (Z.to_nat _).
  - rewrite filter_cons. destruct (_can_read fp) eqn:Hr.
    + rewrite decide_True by done. rewrite fmap_cons. cbn [concat].
      rewrite generate_file_spec. cbv zeta.
      set (n := Z.to_nat (Z.max 1 (m - c))).
      destruct (decide (n <= length (parse_file fp))%nat) as [Hn|Hn].
      * rewrite take_app_le by done. done.
      * rewrite IH. rewrite take_app_ge by lia. f_equal. f_equal. lia.
    + rewrite decide_False by done. apply IH.
Qed.

(** X16. [DocPreprocessor.generate] yields the documents of the
    readable files in order. With the default [max_docs] it yields all
    of them; with a number [m] it yields the first [max(1, m)] of them
    (all, when there are fewer): the count is tested only after a
    document has been yielded, so one document comes out even for
    [m <= 0]. *)
Theorem generate_max_docs {F D} (_can_read : F -> bool) (parse_file : F -> list D)
        max_docs files :
  let all := concat (parse_file <$> filter (fun fp => _can_read fp = true) files) in
  DocPreprocessor.generate _can_read parse_file max_docs files =
  match max_docs with
  | None => all
  | Some m => take (Z.to_nat (Z.max 1 m)) all
  end.
Proof.
  intros all. unfold DocPreprocessor.generate. destruct max_docs as [m|].
  - rewrite generate_from_spec. by rewrite Z.sub_0_r.
  - subst all. generalize 0. induction files as [|fp files IH]; intros c; [done|].
    cbn [DocPreprocessor.generate_from]. rewrite filter_cons.
    destruct (_can_read fp) eqn:Hr.
    + rewrite decide_True by done. rewrite fmap_cons. cbn [concat].
      rewrite generate_file_all. by rewrite IH.
    + rewrite decide_False by done. apply IH.
Qed.

Section FileNames.
Import PyStr.

Lemma rfind_from_shift s sub : forall i,
  rfind_from s sub i = Z.add i <$> rfind_from s sub 0.
Proof.
  induction s as [|a s IH]; intros i; cbn [rfind_from].
  - destruct (String.prefix sub ""); cbn [fmap option_fmap option_map]; [|done].
    f_equal. lia.
  - rewrite (IH (i + 1)), (IH (0 + 1)).
    destruct (rfind_from s sub 0) as [j|]; cbn [fmap option_fmap option_map].
    + f_equal. lia.
    + destruct (String.prefix sub (String a s)); cbn [fmap option_fmap option_map];
        [|done].
      f_equal. lia.
Qed.

Lemma rfind_last_dot stem : forall ext i,
  rfind_from ext "." 0 = None ->
  rfind_from (stem +:+ "." +:+ ext) "." i = Some (i + len stem).
Proof.
  induction stem as [|a stem IH]; intros ext i Hext.
  - change ("" +:+ "." +:+ ext) with (String "." ext). cbn [rfind_from].
    rewrite rfind_from_shift, Hext. cbn [fmap option_fmap option_map].
    replace (String.prefix "." (String "." ext)) with true.
    2:{ simpl. destruct (ascii_dec "." "."); [by destruct ext | done]. }
    f_equal. unfold len. cbn [String.length]. lia.
  - change (String a stem +:+ "." +:+ ext) with (String a (stem +:+ "." +:+ ext)).
    cbn [rfind_from]. rewrite (IH ext (i + 1) Hext). f_equal.
    unfold len. simpl String.length. lia.
Qed.

Lemma substring_prefix s : forall t,
  String.substring 0 (String.length s) (s +:+ t) = s.
Proof.
  induction s as [|a s IH]; intros t.
  - simpl. by destruct t.
  - change (String a s +:+ t) with (String a (s +:+ t)). simpl. by rewrite IH.
Qed.

Lemma substring_split n : forall s,
  (n <= String.length s)%nat ->
  s = String.substring 0 n s +:+ String.substring n (String.length s - n) s.
Proof.
  induction n as [|n IH]; intros s Hn.
  - rewrite Nat.sub_0_r. destruct s as [|a s]; [done|].
    change (String.substring 0 0 (String a s)) with "".
    change ("" +:+ ?x) with x.
    pose proof (substring_prefix (String a s) "") as H.
    by rewrite append_empty_r in H.
  - destruct s as [|a s]; [simpl in Hn; lia|]. simpl in Hn.
    simpl.
    change (String a (String.substring 0 n s) +:+ ?x)
      with (String a (String.substring 0 n s +:+ x)).
    f_equal. apply IH. lia.
Qed.

Lemma endswith_split s suf :
  endswith s suf = true -> exists p, s = p +:+ suf.
Proof.
  unfold endswith, slice, len. intros [Hl He]%andb_true_iff.
  apply Z.leb_le in Hl. apply String.eqb_eq in He.
  exists (String.substring 0 (String.length s - String.length suf) s).
  etransitivity; [apply (substring_split (String.length s - String.length suf)); lia|].
  f_equal. etransitivity; [|exact He]. unfold len. f_equal; lia.
Qed.

Lemma slice_prefix s t : slice (s +:+ t) 0 (len s) = s.
Proof.
  unfold slice, len. rewrite Z.sub_0_r, Nat2Z.id. apply substring_prefix.
Qed.

Lemma rfind_dot_split s : forall i j,
  rfind_from s "." i = Some j ->
  exists pre ext, s = pre +:+ "." +:+ ext /\ len pre = j - i /\
                  rfind_from ext "." 0 = None.
Proof.
  induction s as [|a s IH]; intros i j; cbn [rfind_from].
  - done.
  - destruct (rfind_from s "." (i + 1)) as [j'|] eqn:E.
    + intros [= <-]. destruct (IH _ _ E) as (pre & ext & -> & Hl & Hext).
      exists (String a pre), ext. split; [reflexivity|]. split; [|done].
      unfold len in *. simpl String.length. lia.
    + destruct (String.prefix "." (String a s)) eqn:Hp; [|done]. intros [= <-].
      exists "", s. split.
      * cbn [String.prefix] in Hp. destruct (ascii_dec "." a) as [<-|]; [reflexivity|discriminate].
      * split; [unfold len; simpl; lia|].
        rewrite rfind_from_shift in E. by destruct (rfind_from s "." 0).
Qed.

End FileNames.

(** X17. The document name of a file that a preprocessor reads.
    [HTMLDocPreprocessor] reads the files whose name ends in [.html]
    and names the document by the file name without that ending.
    [HTMLPreprocessor] reads every name that ends in [html]: a name with
    a dot gives the part before the last dot, but a name without a dot
    is cut by one character, so the document name loses the final [l]. *)
Theorem html_document_names basename :
  (HTMLDocPreprocessor._can_read basename = true ->
   HTMLDocPreprocessor.name basename +:+ ".html" = basename) /\
  (HTMLPreprocessor._can_read basename = true ->
   if decide (rfind basename "." = -1)
   then HTMLPreprocessor.name basename +:+ "l" = basename
   else exists ext, HTMLPreprocessor.name basename +:+ "." +:+ ext = basename /\
                    rfind ext "." = -1).
Proof.
  split.
  - intros [p ->]%endswith_split.
    unfold HTMLDocPreprocessor.name, PyStr.rsplit_dot_head.
    change (p +:+ ".html") with (p +:+ "." +:+ "html").
    rewrite (rfind_last_dot p "html" 0) by done.
    rewrite Z.add_0_l. by rewrite slice_prefix.
  - intros [p ->]%endswith_split.
    unfold HTMLPreprocessor.name, PyStr.upto, rfind.
    destruct (rfind_from (p +:+ "html") "." 0) as [j|] eqn:E.
    + pose proof (rfind_from_ge _ _ _ _ E) as Hj.
      rewrite decide_False by lia.
      destruct (rfind_dot_split _ _ _ E) as (pre & ext & Heq & Hl & Hext).
      rewrite Z.sub_0_r in Hl. subst j.
      replace (len pre <? 0) with false by (symmetry; apply Z.ltb_ge; lia).
      rewrite Heq, slice_prefix. exists ext. split; [done|]. by rewrite Hext.
    + rewrite decide_True by done. cbn [Z.ltb Z.compare].
      replace (p +:+ "html") with ((p +:+ "htm") +:+ "l")
        by (by rewrite append_assoc).
      replace (len ((p +:+ "htm") +:+ "l") + -1) with (len (p +:+ "htm")).
      2:{ unfold len. rewrite !length_append. simpl. lia. }
      by rewrite slice_prefix.
Qed.

Lemma html_document_names_witness :
  HTMLDocPreprocessor.name "a.b.html" +:+ ".html" = "a.b.html" /\
  HTMLPreprocessor.name "xhtml" +:+ "l" = "xhtml".
Proof.
  split.
  - apply (proj1 (html_document_names "a.b.html")). reflexivity.
  - apply (proj2 (html_document_names "xhtml")). reflexivity.
Defined.

(** ** tutorials/tables: the entity counts *)

Section EntityCounts.
Import HardwareUtils.
Context {A : Type} {EqA : EqDecision A} {CountA : Countable A}.
Implicit Types (e : A) (gold pred : Iterable (A := A)).

Lemma member_to_set e gold : member e gold = bool_decide (e ∈ to_set gold).
Proof.
  destruct gold as [s|l]; [done|]. simpl. apply bool_decide_ext.
  by rewrite elem_of_list_to_set.
Qed.

Lemma count_labels_from gold entities : forall T F,
  foldl (fun '(T, F) e => if member e gold then (T + 1, F) else (T, F + 1))
        (T, F) entities =
  (T + Z.of_nat (length (filter (fun e => e ∈ to_set gold) entities)),
   F + Z.of_nat (length (filter (fun e => e ∉ to_set gold) entities))).
Proof.
  induction entities as [|e entities IH]; intros T F; cbn [foldl].
  - simpl. f_equal; lia.
  - rewrite !filter_cons, member_to_set.
    destruct (decide (e ∈ to_set gold)) as [He|He].
    + rewrite bool_decide_eq_true_2 by done. rewrite IH.
      rewrite decide_False by (intros Hn; by apply Hn). simpl length. f_equal; lia.
    + rewrite bool_decide_eq_false_2 by done. rewrite IH.
      rewrite decide_True by done. simpl length. f_equal; lia.
Qed.

(** X18. The three sets of [entity_confusion_matrix] split the
    predictions into true and false positives and the gold entities
    into true positives and false negatives, and no entity is in two of
    them. *)
Theorem confusion_matrix_partition pred gold :
  let '(TP, FP, FN) := entity_confusion_matrix pred gold in
  TP ∪ FP = to_set pred /\ TP ∪ FN = to_set gold /\
  TP ## FP /\ TP ## FN /\ FP ## FN.
Proof.
  unfold entity_confusion_matrix. cbv zeta.
  split; [|split; [|split; [|split]]].
  - apply set_eq. intros x. rewrite elem_of_union, elem_of_intersection, elem_of_difference.
    destruct (decide (x ∈ to_set gold)); tauto.
  - apply set_eq. intros x. rewrite elem_of_union, elem_of_intersection, elem_of_difference.
    destruct (decide (x ∈ to_set pred)); tauto.
  - apply elem_of_disjoint. intros x.
    rewrite elem_of_intersection, elem_of_difference. tauto.
  - apply elem_of_disjoint. intros x.
    rewrite elem_of_intersection, elem_of_difference. tauto.
  - apply elem_of_disjoint. intros x. rewrite !elem_of_difference. tauto.
Qed.

(** X19. On a collection of entities without repetition,
    [count_labels] gives the sizes of the true-positive and the
    false-positive set of [entity_confusion_matrix]; its two counts
    always add up to the number of entities it was given. *)
Theorem count_labels_confusion (entities : list A) gold :
  NoDup entities ->
  let '(TP, FP, _) := entity_confusion_matrix (IsList entities) gold in
  let '(T, F) := count_labels entities gold in
  T = Z.of_nat (size TP) /\ F = Z.of_nat (size FP) /\
  T + F = Z.of_nat (length entities).
Proof.
  intros Hnd. unfold entity_confusion_matrix, count_labels. cbv zeta.
  rewrite count_labels_from. cbn [to_set].
  assert (list_to_set entities ∩ to_set gold =@{gset A}
          list_to_set (filter (fun e => e ∈ to_set gold) entities)) as ->.
  { apply set_eq. intros x.
    rewrite elem_of_intersection, !elem_of_list_to_set, list_elem_of_filter.
    tauto. }
  assert (list_to_set entities ∖ to_set gold =@{gset A}
          list_to_set (filter (fun e => e ∉ to_set gold) entities)) as ->.
  { apply set_eq. intros x.
    rewrite elem_of_difference, !elem_of_list_to_set, list_elem_of_filter.
    tauto. }
  rewrite !size_list_to_set by (by apply NoDup_filter).
  split; [lia|]. split; [lia|].
  rewrite !Z.add_0_l, <- Nat2Z.inj_add. f_equal.
  clear Hnd. induction entities as [|e entities IH]; [done|].
  rewrite !filter_cons. destruct (decide (e ∈ to_set gold)).
  - rewrite decide_False by (intros Hn; by apply Hn). simpl. lia.
  - rewrite decide_True by done. simpl. lia.
Qed.

End EntityCounts.

Lemma count_labels_confusion_witness :
  NoDup ["a"; "b"; "c"] /\
  let '(TP, FP, _) :=
    HardwareUtils.entity_confusion_matrix
      (HardwareUtils.IsList ["a"; "b"; "c"])
      (HardwareUtils.IsList ["b"; "c"; "d"; "b"]) in
  let '(T, F) :=
    HardwareUtils.count_labels ["a"; "b"; "c"]
      (HardwareUtils.IsList ["b"; "c"; "d"; "b"]) in
  T = Z.of_nat (size TP) /\ F = Z.of_nat (size FP) /\
  T + F = Z.of_nat (length ["a"; "b"; "c"]).
Proof.
  assert (NoDup ["a"; "b"; "c"]) as Hnd.
  { repeat constructor; rewrite ?elem_of_cons, ?elem_of_nil; intros Hn;
      repeat destruct Hn as [Hn|Hn]; done. }
  split; [exact Hnd|].
  exact (count_labels_confusion ["a"; "b"; "c"]
           (HardwareUtils.IsList ["b"; "c"; "d"; "b"]) Hnd).
Defined.

(** ** Comments and blacklisted children *)

Lemma parse_node_skipped cfg fuel node ti w :
  skipped cfg node = true -> parse_node cfg (S fuel) node ti w = Ok (ti, w).
Proof.
  unfold skipped. cbn [parse_node]. destruct (tag node) as [t|]; [|done].
  by intros ->.
Qed.

Lemma flatten_fixed cfg n :
  Forall (fun c => tag_in c (self_flatten cfg) = false) (children n) ->
  flatten cfg n = n.
Proof.
  intros Hn. unfold flatten. rewrite flatten_children_none by done. by destruct n.
Qed.

Lemma flatten_when_set cfg node :
  match self_flatten cfg with [] => node | _ => flatten cfg node end = flatten cfg node.
Proof.
  destruct (self_flatten cfg) eqn:Hf; [|done]. symmetry. apply flatten_fixed.
  apply Forall_forall. intros c _. unfold tag_in. rewrite Hf. by destruct (tag c).
Qed.

Lemma flatten_pruned cfg node :
  flatten cfg (pruned cfg (flatten cfg node)) = pruned cfg (flatten cfg node).
Proof.
  apply flatten_fixed. unfold pruned. cbn [children].
  pose proof (flatten_children_kept cfg (children node)) as [H _].
  assert (Forall (fun c => tag_in c (self_flatten cfg) = false)
                 (children (flatten cfg node))) as Hk.
  { unfold flatten. by destruct (flatten_children cfg (children node)). }
  apply Forall_forall. intros c [_ Hc]%list_elem_of_filter.
  by apply (proj1 (Forall_forall _ _) Hk).
Qed.

Lemma enter_tabular_same self n1 n2 idx h :
  tag n1 = tag n2 -> attrib n1 = attrib n2 ->
  enter_tabular self n1 idx h = enter_tabular self n2 idx h.
Proof. destruct n1, n2. simpl. by intros -> ->. Qed.

Lemma exit_tabular_same self n1 n2 :
  tag n1 = tag n2 -> exit_tabular self n1 = exit_tabular self n2.
Proof. destruct n1, n2. simpl. by intros ->. Qed.

Lemma parse_children_pruned cfg fuel cs :
  contains (blacklist cfg) "table" = false ->
  (forest_height cs <= fuel)%nat ->
  forall ti w,
    parse_children (parse_node cfg fuel) (filter (fun c => skipped cfg c = false) cs) ti w =
    parse_children (parse_node cfg fuel) cs ti w.
Proof.
  intros Hbl. induction cs as [|c cs IH]; intros Hh ti w; [done|].
  rewrite forest_height_cons in Hh.
  assert (forall ti w,
             parse_children (parse_node cfg fuel)
                            (filter (fun c => skipped cfg c = false) cs) ti w =
             parse_children (parse_node cfg fuel) cs ti w) as IH' by (apply IH; lia).
  destruct (skipped cfg c) eqn:Hs.
  - rewrite filter_cons_False by (rewrite Hs; done). rewrite IH'.
    cbn [parse_children].
    assert (tag_is c "table" = false) as ->.
    { unfold skipped in Hs. unfold tag_is. destruct (tag c) as [t|]; [|done].
      destruct (String.eqb_spec t "table") as [->|]; [|done].
      destruct (blacklist cfg); [done|]. congruence. }
    destruct fuel as [|fuel]; [rewrite height_children in Hh; lia|].
    by rewrite parse_node_skipped.
  - rewrite filter_cons_True by done. cbn [parse_children].
    destruct (tag_is c "table").
    + destruct ti as [ti|]; [|done].
      unfold mbind, result_bind.
      destruct (parse_node cfg fuel c _ w) as [[? w']| |]; [|done..].
      cbn [Py.bind]. apply IH'.
    + unfold mbind, result_bind.
      destruct (parse_node cfg fuel c ti w) as [[ti' w']| |]; [|done..].
      cbn [Py.bind]. apply IH'.
Qed.

(** X4. A comment or a blacklisted element among the children of a node
    adds nothing to the walk, and what stands after it is lost with it:
    its subtree, its tail, and the text of flattened siblings that
    [flatten] appended to that tail. The node is walked exactly as its
    flattened form without these children. ([table] is taken not to be
    blacklisted: a child with that tag is handed a new [TableInfo]
    before it is looked at.) *)
Theorem skipped_children_dropped cfg fuel node ti w :
  contains (blacklist cfg) "table" = false ->
  (height node <= fuel)%nat ->
  parse_node cfg fuel node ti w =
  parse_node cfg fuel (pruned cfg (flatten cfg node)) ti w.
Proof.
  intros Hbl Hh. destruct fuel as [|fuel]; [done|]. cbn [parse_node].
  rewrite !flatten_when_set, flatten_pruned.
  change (tag (pruned cfg (flatten cfg node))) with (tag (flatten cfg node)).
  rewrite tag_flatten. destruct (tag node) as [t|] eqn:Ht; [|done].
  destruct (match blacklist cfg with [] => false | _ => _ end); [done|].
  assert (forall self idx h,
             enter_tabular self node idx h =
             enter_tabular self (pruned cfg (flatten cfg node)) idx h) as Henter.
  { intros. apply enter_tabular_same.
    - change (tag (pruned cfg (flatten cfg node))) with (tag (flatten cfg node)).
      by rewrite tag_flatten.
    - unfold pruned, flatten. cbn [attrib].
      by destruct (flatten_children cfg (children node)). }
  assert (forall self,
             exit_tabular self (flatten cfg node) =
             exit_tabular self (pruned cfg (flatten cfg node))) as Hexit.
  { intros. by apply exit_tabular_same. }
  assert (forall ti w,
             parse_children (parse_node cfg fuel)
                            (children (pruned cfg (flatten cfg node))) ti w =
             parse_children (parse_node cfg fuel) (children (flatten cfg node)) ti w)
    as Hchildren.
  { intros. unfold pruned. cbn [children]. apply parse_children_pruned; [done|].
    pose proof (flatten_height cfg node). rewrite height_children in Hh. lia. }
  change (text (pruned cfg (flatten cfg node))) with (text (flatten cfg node)).
  change (tail (pruned cfg (flatten cfg node))) with (tail (flatten cfg node)).
  unfold mbind, result_bind.
  destruct (tabular cfg).
  - destruct ti as [ti|]; [|done]. rewrite <- Henter.
    destruct (enter_tabular ti node (table_idx w) (heap w)) as [[[idx ti'] h']| |];
      [|done..].
    cbn [Py.bind].
    destruct (emit cfg (Some ti') (text (flatten cfg node)) _) as [w1| |]; [|done..].
    cbn [Py.bind].
    destruct (emit cfg (Some ti') (tail (flatten cfg node)) w1) as [w2| |]; [|done..].
    cbn [Py.bind]. rewrite Hchildren.
    destruct (parse_children _ _ _ _) as [[[ti3|] w3]| |]; [|done..].
    cbn [Py.bind]. by rewrite Hexit.
  - cbn [Py.bind].
    destruct (emit cfg ti (text (flatten cfg node)) w) as [w1| |]; [|done..].
    cbn [Py.bind].
    destruct (emit cfg ti (tail (flatten cfg node)) w1) as [w2| |]; [|done..].
    cbn [Py.bind]. by rewrite Hchildren.
Qed.

Lemma skipped_children_dropped_witness :
  contains (blacklist config) "table" = false /\
  (height hello_comment <= 2)%nat /\
  pruned config (flatten config hello_comment) = el "p" [] (Some "Hello") [] /\
  parse_node config 2 hello_comment (Some (TableInfo_init doc (IsDocument doc)))
    {| contents := ""; block_lengths := []; parents := [];
       table_idx := -1; heap := initial_heap |} =
  parse_node config 2 (el "p" [] (Some "Hello") [])
    (Some (TableInfo_init doc (IsDocument doc)))
    {| contents := ""; block_lengths := []; parents := [];
       table_idx := -1; heap := initial_heap |}.
Proof.
  split; [reflexivity|]. split; [simpl; lia|]. split; [reflexivity|].
  apply (skipped_children_dropped config 2 hello_comment); [reflexivity|simpl; lia].
Defined.

(** The text that is lost after a comment: the paragraph gives the one
    block ["Hello"], and ["Hellothere"] once the comment is taken out. *)
Example text_after_comment_lost :
  (exists w, walk config doc hello_comment initial_heap = Ok w /\
             contents w = "Hello<NB>") /\
  (exists w, walk config doc
               (el "p" [] (Some "Hello")
                   [Elem (TagName "span") [] (Some "there") [] None])
               initial_heap = Ok w /\
             contents w = "Hellothere<NB>").
Proof.
  split; (eexists; split; [vm_compute; reflexivity|]; by vm_compute).
Qed.
